(** * TokPay: offline payment tokens, payee-side verification and
      server-side reconciliation

    A shallow embedding of
    - [src/backend/server.js]: the [/api/load-balance] and [/api/sync]
      handlers over the SQLite tables [users], [merchants], [transactions];
    - the merchant application context ([verifyPaymentToken] and its
      reducer);
    - the wallet application context ([signPaymentToken] and its reducer);
    - of the server again: [authenticateToken], [validatePassword],
      [validatePhone], the validation stage of the two registration routes,
      the two login routes with [isAccountLocked], and the statements of the
      login, logout and refresh routes on [refresh_tokens];
    - of the wallet: the registration form, the load-balance screen, the
      scan screen ([onScan]), the payment screen ([handlePay]) and the BLE
      service ([connect], [sendPayment], [disconnect]);
    - of the merchant: the registration form, the code of the home screen
      ([generateQR] and its interval) and [handleSync] of the transactions
      screen;
    - the header [AuthService] and the headers [ApiService] send.

    Amounts, counters and timestamps are JavaScript numbers in the source,
    that is doubles, and the balance columns of the tables are REAL. They
    are whole numbers here ([Z]): the arithmetic and the comparisons of the
    source are exact on whole numbers of magnitude below 2^53 ([safe]), and
    the statements on what is stored or added up are made for such numbers.
    An amount with a fractional part, which the handlers and the screens
    accept as well and round on, is outside this development. *)

From Stdlib Require Import ZArith Lia Ascii String.
From stdpp Require Import gmap strings list fin_maps pretty.

Local Open Scope Z_scope.

(** ** Numbers *)

(** 2^53: below it in magnitude, every whole number is a double, and the
    sum and the difference of two of them is computed exactly when it is
    below it again. *)
Definition limit : Z := 9007199254740992.

Definition safe (z : Z) : Prop := Z.abs z < limit.

(** ** The authoritative store and the backend handlers *)

Module Backend.

(** A row of [users], keyed by [phone]. *)
Record UserRow := {
  balance : Z;
  offline_balance : Z;
  public_key : string
}.

(** A row of [transactions], keyed by [txn_id] (PRIMARY KEY). *)
Record TxnRow := {
  from_phone : string;
  to_merchant : string;
  amount : Z;
  counter : Z;
  signature : string;
  status : string
}.

(** The three tables. A row of [merchants] is its [balance], keyed by
    [merchant_id]. *)
Record Db := {
  users : gmap string UserRow;
  merchants : gmap string Z;
  transactions : gmap string TxnRow
}.

(** [req.user.type], as decoded from the access token. *)
Inductive AccountType := TUser | TMerchant.

(** *** POST /api/load-balance *)

(** What the handler answers. *)
Inductive LoadReply :=
| OnlyUsers                        (* 403 *)
| InvalidAmount                    (* 400 *)
| MaximumOfflineBalance            (* 400 *)
| UserNotFound                     (* 404 *)
| CanOnlyLoad (remaining : Z)      (* 400 *)
| InsufficientBalance              (* 400 *)
| FailedToLoad                     (* 500 *)
| Loaded (newBalance newOffline : Z).

Definition http_status (r : LoadReply) : nat :=
  match r with
  | OnlyUsers => 403
  | InvalidAmount | MaximumOfflineBalance | CanOnlyLoad _
  | InsufficientBalance => 400
  | UserNotFound => 404
  | FailedToLoad => 500
  | Loaded _ _ => 200
  end%nat.

(** The currency sign, as the bytes of the source file read. *)
Definition currency : string := "‚Çπ".

(** The [error] field of the body ([None] for the success body). *)
Definition error_message (r : LoadReply) : option string :=
  match r with
  | OnlyUsers => Some "Only users can load balance"
  | InvalidAmount => Some "Invalid amount"
  | MaximumOfflineBalance => Some ("Maximum offline balance is " +:+ currency +:+ "2000")
  | UserNotFound => Some "User not found"
  | CanOnlyLoad n => Some ("Can only load " +:+ currency +:+ pretty n +:+ " more")
  | InsufficientBalance => Some "Insufficient balance"
  | FailedToLoad => Some "Failed to load balance"
  | Loaded _ _ => None
  end.

(** [UPDATE users SET balance = balance - ?, offline_balance =
    offline_balance + ? WHERE phone = ?] *)
Definition move_to_offline (a : Z) (u : UserRow) : UserRow :=
  {| balance := balance u - a;
     offline_balance := offline_balance u + a;
     public_key := public_key u |}.

(** The handler, for a whole [amount]; [get_err] and [run_err] say
    whether the SELECT, resp. the UPDATE, reports a storage error to its
    callback. The comparisons, the sum [offline_balance + amount] and the
    UPDATE are those of the source on amounts and balances in range
    ([safe]); the source computes them on doubles, and on an amount with a
    fractional part, which it accepts as well, it rounds. *)
Definition load_balance (d : Db) (type : AccountType) (phone : string)
    (a : Z) (get_err run_err : bool) : Db * LoadReply :=
  match type with
  | TMerchant => (d, OnlyUsers)
  | TUser =>
    if (a =? 0) || (a <=? 0) then (d, InvalidAmount)
    else if a >? 2000 then (d, MaximumOfflineBalance)
    else
      match (if get_err then None else users d !! phone) with
      | None => (d, UserNotFound)
      | Some user =>
        if offline_balance user + a >? 2000
        then (d, CanOnlyLoad (2000 - offline_balance user))
        else if balance user <? a then (d, InsufficientBalance)
        else if run_err then (d, FailedToLoad)
        else ({| users := alter (move_to_offline a) phone (users d);
                 merchants := merchants d;
                 transactions := transactions d |},
              Loaded (balance user - a) (offline_balance user + a))
      end
  end.

Definition load_succeeds (r : LoadReply) : bool :=
  match r with Loaded _ _ => true | _ => false end.

(** *** POST /api/sync *)

(** An element of the [transactions] array of the request body. *)
Record Txn := {
  txnId : string;
  fromPhone : string;
  toMerchant : string;
  t_amount : Z;
  t_counter : Z;
  t_signature : string
}.

(** The per-element outcomes pushed to [results]. *)
Inductive SyncStatus := Duplicate | AmountExceeded | Error | Success.

Definition status_string (s : SyncStatus) : string :=
  match s with
  | Duplicate => "duplicate"
  | AmountExceeded => "amount_exceeded"
  | Error => "error"
  | Success => "success"
  end.

(** The variables one invocation of the handler closes over:
    [transactions.length], [processed], [failed], [results],
    [responseSent]. *)
Record Req := {
  len : nat;
  processed : nat;
  failed : nat;
  results : list (string * SyncStatus);
  responseSent : bool
}.

(** The body [{ success: true, processed, failed, results }] written to
    [res]. *)
Inductive SyncResponse :=
| SyncReply (processed failed : nat) (results : list (string * SyncStatus)).

(** A database statement that has been issued and whose completion (and
    callback, when it has one) is still to come. [rid] names the handler
    invocation whose closure the callback belongs to; the element [t] is
    what the callback closes over. *)
Inductive Op :=
| Select (rid : nat) (t : Txn)     (* db.get('SELECT * FROM transactions WHERE txn_id = ?') *)
| Insert (rid : nat) (t : Txn)     (* db.run('INSERT INTO transactions ...', callback) *)
| UpdateUser (t : Txn)             (* db.run('UPDATE users SET offline_balance = offline_balance - ? ...') *)
| UpdateMerchant (t : Txn).        (* db.run('UPDATE merchants SET balance = balance + ? ...') *)

(** The effects performed so far, newest first: the INSERT and the two
    UPDATEs of a token id that completed without error (an UPDATE whose
    WHERE matches no row among them), responses sent by an invocation, and
    requests refused with 400 'Invalid transaction data' before any of the
    variables above exists. *)
Inductive Event :=
| Inserted (id : string)
| Debited (id : string)
| Credited (id : string)
| Responded (rid : nat) (r : SyncResponse)
| Refused.

Record Sys := {
  db : Db;
  reqs : list Req;
  pool : list Op;
  log : list Event
}.

(** What the environment does next: a request arrives, or the [i]-th
    statement in flight completes, with a storage error when [err]. The
    database is opened without [serialize], so statements in flight may
    complete in any order. *)
Inductive Action :=
| Submit (body : option (list Txn))
| Complete (i : nat) (err : bool).

Definition set_db (s : Sys) (d : Db) : Sys :=
  {| db := d; reqs := reqs s; pool := pool s; log := log s |}.

Definition issue (s : Sys) (ops : list Op) : Sys :=
  {| db := db s; reqs := reqs s; pool := pool s ++ ops; log := log s |}.

Definition emit (s : Sys) (e : Event) : Sys :=
  {| db := db s; reqs := reqs s; pool := pool s; log := e :: log s |}.

Definition set_req (s : Sys) (rid : nat) (r : Req) : Sys :=
  {| db := db s; reqs := <[rid := r]> (reqs s); pool := pool s; log := log s |}.

(** [failed++; results.push({ txnId, status })] and
    [processed++; results.push({ txnId, status })]. *)
Definition count_failed (r : Req) (id : string) (st : SyncStatus) : Req :=
  {| len := len r; processed := processed r; failed := S (failed r);
     results := results r ++ [(id, st)]; responseSent := responseSent r |}.

Definition count_processed (r : Req) (id : string) (st : SyncStatus) : Req :=
  {| len := len r; processed := S (processed r); failed := failed r;
     results := results r ++ [(id, st)]; responseSent := responseSent r |}.

Definition mark_sent (r : Req) : Req :=
  {| len := len r; processed := processed r; failed := failed r;
     results := results r; responseSent := true |}.

(** [sendResponse] of invocation [rid]. *)
Definition sendResponse (s : Sys) (rid : nat) : Sys :=
  match reqs s !! rid with
  | None => s
  | Some r =>
    if negb (responseSent r) && (processed r + failed r =? len r)%nat
    then emit (set_req s rid (mark_sent r))
              (Responded rid (SyncReply (processed r) (failed r) (results r)))
    else s
  end.

(** One more outcome for invocation [rid], then [sendResponse()]. *)
Definition finish (s : Sys) (rid : nat) (upd : Req -> Req) : Sys :=
  match reqs s !! rid with
  | None => s
  | Some r => sendResponse (set_req s rid (upd r)) rid
  end.

Definition row_of (t : Txn) : TxnRow :=
  {| from_phone := fromPhone t; to_merchant := toMerchant t;
     amount := t_amount t; counter := t_counter t;
     signature := t_signature t; status := "completed" |}.

(** [offline_balance = offline_balance - ?], on a whole amount; the
    column is REAL, and the difference is exact when amount, balance and
    result are in range ([safe]). *)
Definition debit (a : Z) (u : UserRow) : UserRow :=
  {| balance := balance u; offline_balance := offline_balance u - a;
     public_key := public_key u |}.

Definition insert_txn (d : Db) (t : Txn) : Db :=
  {| users := users d; merchants := merchants d;
     transactions := <[txnId t := row_of t]> (transactions d) |}.

Definition update_user (d : Db) (t : Txn) : Db :=
  {| users := alter (debit (t_amount t)) (fromPhone t) (users d);
     merchants := merchants d; transactions := transactions d |}.

Definition update_merchant (d : Db) (t : Txn) : Db :=
  {| users := users d;
     merchants := alter (fun b => b + t_amount t) (toMerchant t) (merchants d);
     transactions := transactions d |}.

(** Completion of one statement and the run of its callback. The two
    UPDATEs are issued without a callback: one that completes without error
    has its effect, and for one that fails nothing is stored; what becomes
    of the process then is [exits] below. *)
Definition complete (s : Sys) (op : Op) (err : bool) : Sys :=
  match op with
  | Select rid t =>
    let existing := if err then None else transactions (db s) !! txnId t in
    match existing with
    | Some _ => finish s rid (fun r => count_failed r (txnId t) Duplicate)
    | None =>
      if t_amount t >? 500
      then finish s rid (fun r => count_failed r (txnId t) AmountExceeded)
      else issue s [Insert rid t]
    end
  | Insert rid t =>
    (* the statement fails on a storage error and on the PRIMARY KEY *)
    if err || bool_decide (is_Some (transactions (db s) !! txnId t))
    then finish s rid (fun r => count_failed r (txnId t) Error)
    else
      let s1 := emit (set_db s (insert_txn (db s) t)) (Inserted (txnId t)) in
      let s2 := issue s1 [UpdateUser t; UpdateMerchant t] in
      finish s2 rid (fun r => count_processed r (txnId t) Success)
  | UpdateUser t =>
    if err then s
    else emit (set_db s (update_user (db s) t)) (Debited (txnId t))
  | UpdateMerchant t =>
    if err then s
    else emit (set_db s (update_merchant (db s) t)) (Credited (txnId t))
  end.

Definition new_req (n : nat) (sent : bool) : Req :=
  {| len := n; processed := 0; failed := 0; results := []; responseSent := sent |}.

(** The synchronous part of the handler, for a request that has passed
    [authenticateToken]: validation, the empty batch, and the [forEach]
    that issues one SELECT per element. The invocation that answers an
    empty batch at once is recorded with nothing left to do. *)
Definition submit (s : Sys) (body : option (list Txn)) : Sys :=
  let rid := length (reqs s) in
  match body with
  | None => emit s Refused
  | Some [] =>
    {| db := db s; reqs := reqs s ++ [new_req 0 true]; pool := pool s;
       log := Responded rid (SyncReply 0 0 []) :: log s |}
  | Some ts =>
    {| db := db s; reqs := reqs s ++ [new_req (length ts) false];
       pool := pool s ++ map (Select rid) ts; log := log s |}
  end.

Definition exec (s : Sys) (a : Action) : Sys :=
  match a with
  | Submit body => submit s body
  | Complete i err =>
    match pool s !! i with
    | None => s
    | Some op =>
      complete {| db := db s; reqs := reqs s; pool := delete i (pool s);
                  log := log s |} op err
    end
  end.

Definition run (s : Sys) (sched : list Action) : Sys := foldl exec s sched.

(** An UPDATE that fails has no callback to take its error, and the
    ['error'] event raised instead has no listener: the process ends there,
    the statements in flight are never completed and the requests not yet
    answered never are. [exits s a] says that [a] is such a completion in
    [s]; a failed SELECT or INSERT is taken by its callback. *)
Definition exits (s : Sys) (a : Action) : bool :=
  match a with
  | Complete i true =>
    match pool s !! i with
    | Some (UpdateUser _) | Some (UpdateMerchant _) => true
    | _ => false
    end
  | _ => false
  end.

(** The process lives through the schedule: no step of it is one the
    process exits on. A run of [exec] is a run of the program up to its
    first such step. *)
Fixpoint survives (s : Sys) (sched : list Action) : bool :=
  match sched with
  | [] => true
  | a :: rest => negb (exits s a) && survives (exec s a) rest
  end.

Definition init (d : Db) : Sys :=
  {| db := d; reqs := []; pool := []; log := [] |}.

(** No statement in flight. *)
Definition quiescent (s : Sys) : Prop := pool s = [].

(** No storage error in the schedule. *)
Definition no_error (a : Action) : bool :=
  match a with Complete _ err => negb err | Submit _ => true end.

(** Counting effects in the log. *)
Definition is_inserted (id : string) (e : Event) : bool :=
  match e with Inserted i => bool_decide (i = id) | _ => false end.
Definition is_debited (id : string) (e : Event) : bool :=
  match e with Debited i => bool_decide (i = id) | _ => false end.
Definition is_credited (id : string) (e : Event) : bool :=
  match e with Credited i => bool_decide (i = id) | _ => false end.

(** The responses invocation [rid] has written, newest first. *)
Definition response_of (rid : nat) (e : Event) : option SyncResponse :=
  match e with
  | Responded r x => if bool_decide (r = rid) then Some x else None
  | _ => None
  end.

Definition responses (rid : nat) (l : list Event) : list SyncResponse :=
  omap (response_of rid) l.

Definition reply_of (r : Req) : SyncResponse :=
  SyncReply (processed r) (failed r) (results r).

(** A predicate on events that does not look at responses. *)
Definition blind (p : Event -> bool) : Prop :=
  forall rid r, p (Responded rid r) = false.

Definition count {A} (p : A -> bool) (l : list A) : nat :=
  length (List.filter p l).

(** Counting statements in flight. *)
Definition is_debit_of (id : string) (o : Op) : bool :=
  match o with UpdateUser t => bool_decide (txnId t = id) | _ => false end.
Definition is_credit_of (id : string) (o : Op) : bool :=
  match o with UpdateMerchant t => bool_decide (txnId t = id) | _ => false end.
Definition is_element_of (rid : nat) (o : Op) : bool :=
  match o with
  | Select r _ | Insert r _ => bool_decide (r = rid)
  | _ => false
  end.




(** The invocation a callback belongs to. *)
Definition op_rid (o : Op) : option nat :=
  match o with
  | Select r _ | Insert r _ => Some r
  | _ => None
  end.

(** Invariant of one token id [id], relative to the store [d0] the run
    started from. *)
Definition id_inv (d0 : Db) (s : Sys) (id : string) : Prop :=
  (forall k, is_Some (transactions d0 !! k) ->
             is_Some (transactions (db s) !! k))
  /\ (transactions (db s) !! id = None -> count (is_inserted id) (log s) = 0%nat)
  /\ (is_Some (transactions d0 !! id) -> count (is_inserted id) (log s) = 0%nat)
  /\ (count (is_inserted id) (log s) <= 1)%nat
  /\ (count (is_debited id) (log s) + count (is_debit_of id) (pool s)
      <= count (is_inserted id) (log s))%nat
  /\ (count (is_credited id) (log s) + count (is_credit_of id) (pool s)
      <= count (is_inserted id) (log s))%nat.

(** What holds in addition as long as no statement has failed on the
    storage. *)
Definition id_inv_exact (s : Sys) (id : string) : Prop :=
  (count (is_debited id) (log s) + count (is_debit_of id) (pool s)
   = count (is_inserted id) (log s))%nat
  /\ (count (is_credited id) (log s) + count (is_credit_of id) (pool s)
      = count (is_inserted id) (log s))%nat.

(** Invariant of one invocation of the handler. *)
Definition req_inv (s : Sys) (rid : nat) (r : Req) : Prop :=
  (processed r + failed r + count (is_element_of rid) (pool s) = len r)%nat
  /\ length (results r) = (processed r + failed r)%nat
  /\ (responseSent r = true <-> (processed r + failed r)%nat = len r)
  /\ responses rid (log s) = (if responseSent r then [reply_of r] else []).

Definition sys_inv (s : Sys) : Prop :=
  (forall o rid, o ∈ pool s -> op_rid o = Some rid -> (rid < length (reqs s))%nat)
  /\ (forall rid, (length (reqs s) <= rid)%nat -> responses rid (log s) = [])
  /\ (forall rid r, reqs s !! rid = Some r -> req_inv s rid r).

End Backend.

(** ** Payment tokens, as both applications read and write them *)

Module Token.

(** A JavaScript number, or [undefined] ([None]); arithmetic on [undefined]
    gives [NaN], which is [None] as well, and every comparison with it is
    false. *)
Abbreviation JsNum := (option Z).

Definition js_gt (a b : JsNum) : bool :=
  match a, b with Some x, Some y => x >? y | _, _ => false end.

Definition js_le (a b : JsNum) : bool :=
  match a, b with Some x, Some y => x <=? y | _, _ => false end.

Definition js_sub (a b : JsNum) : JsNum :=
  match a, b with Some x, Some y => Some (x - y) | _, _ => None end.

Definition js_add (a b : JsNum) : JsNum :=
  match a, b with Some x, Some y => Some (x + y) | _, _ => None end.

(** [v || d] for a property [v] holding a number: [undefined], [NaN] and
    [0] are falsy. *)
Definition js_or (v : option JsNum) (d : Z) : JsNum :=
  match v with
  | Some (Some n) => if n =? 0 then Some d else Some n
  | _ => Some d
  end.

(** A property key: [undefined] names the property ["undefined"]. *)
Definition js_key (k : option string) : string := default "undefined" k.

(** Code that may throw. *)
Inductive Exc (A : Type) :=
| Return (a : A)
| Throw (e : string).
Arguments Return {A} a.
Arguments Throw {A} e.

#[export] Instance exc_bind : MBind Exc := fun A B k m =>
  match m with Return a => k a | Throw e => Throw e end.
#[export] Instance exc_ret : MRet Exc := fun A a => Return a.

(** [try { body } catch (error) { handler }] *)
Definition try_catch {A} (body : Exc A) (handler : string -> A) : A :=
  match body with Return a => a | Throw e => handler e end.

(** The signed part of a token: what is left of the object once [signature]
    and [publicKey] are taken out. [rest] holds any other property the
    object carries. A property that is absent reads as [undefined]. *)
Record TokenData := {
  from : option string;
  to : option string;
  amount : JsNum;
  counter : JsNum;
  timestamp : JsNum;
  txnId : option string;
  rest : list (string * string)
}.

Record Token := {
  data : TokenData;
  signature : option string;
  publicKey : option string
}.

(** The functions both applications take from the JavaScript runtime,
    tweetnacl and tweetnacl-util. *)
Class Library := {
  Bytes : Type;
  JSON_stringify : TokenData -> string;
  decodeUTF8 : string -> Exc Bytes;
  decodeBase64 : option string -> Exc Bytes;
  encodeBase64 : Bytes -> string;
  sign_detached : Bytes -> Bytes -> Exc Bytes;
  sign_detached_verify : Bytes -> Bytes -> Bytes -> Exc bool
}.

(** [{ publicKey, secretKey }], base64. *)
Record KeyPair := {
  kp_publicKey : string;
  kp_secretKey : string
}.

End Token.

(** ** The merchant application: the payee side *)

Module Merchant.
Import Token.

Record State := {
  merchant : option string;
  isLoggedIn : bool;
  balance : JsNum;
  keyPair : option KeyPair;
  transactions : list Token;
  pendingSync : list Token;
  bleActive : bool;
  lastCounter : gmap string JsNum
}.

Definition initialState : State :=
  {| merchant := None; isLoggedIn := false; balance := Some 0;
     keyPair := None; transactions := []; pendingSync := [];
     bleActive := false; lastCounter := ∅ |}.

Inductive Action :=
| SET_MERCHANT (payload : string)
| SET_BALANCE (payload : JsNum)
| SET_KEYPAIR (payload : KeyPair)
| ADD_TRANSACTION (payload : Token)
| ADD_PENDING_SYNC (payload : Token)
| CLEAR_PENDING_SYNC
| SET_BLE_ACTIVE (payload : bool)
| UPDATE_COUNTER (userPhone : option string) (counter : JsNum)
| LOGOUT.

Definition appReducer (state : State) (action : Action) : State :=
  match action with
  | SET_MERCHANT p =>
    {| merchant := Some p; isLoggedIn := true; balance := balance state;
       keyPair := keyPair state; transactions := transactions state;
       pendingSync := pendingSync state; bleActive := bleActive state;
       lastCounter := lastCounter state |}
  | SET_BALANCE p =>
    {| merchant := merchant state; isLoggedIn := isLoggedIn state; balance := p;
       keyPair := keyPair state; transactions := transactions state;
       pendingSync := pendingSync state; bleActive := bleActive state;
       lastCounter := lastCounter state |}
  | SET_KEYPAIR p =>
    {| merchant := merchant state; isLoggedIn := isLoggedIn state;
       balance := balance state; keyPair := Some p;
       transactions := transactions state; pendingSync := pendingSync state;
       bleActive := bleActive state; lastCounter := lastCounter state |}
  | ADD_TRANSACTION p =>
    {| merchant := merchant state; isLoggedIn := isLoggedIn state;
       balance := js_add (balance state) (amount (data p));
       keyPair := keyPair state; transactions := p :: transactions state;
       pendingSync := pendingSync state; bleActive := bleActive state;
       lastCounter := lastCounter state |}
  | ADD_PENDING_SYNC p =>
    {| merchant := merchant state; isLoggedIn := isLoggedIn state;
       balance := balance state; keyPair := keyPair state;
       transactions := transactions state;
       pendingSync := pendingSync state ++ [p]; bleActive := bleActive state;
       lastCounter := lastCounter state |}
  | CLEAR_PENDING_SYNC =>
    {| merchant := merchant state; isLoggedIn := isLoggedIn state;
       balance := balance state; keyPair := keyPair state;
       transactions := transactions state; pendingSync := [];
       bleActive := bleActive state; lastCounter := lastCounter state |}
  | SET_BLE_ACTIVE p =>
    {| merchant := merchant state; isLoggedIn := isLoggedIn state;
       balance := balance state; keyPair := keyPair state;
       transactions := transactions state; pendingSync := pendingSync state;
       bleActive := p; lastCounter := lastCounter state |}
  | UPDATE_COUNTER userPhone c =>
    {| merchant := merchant state; isLoggedIn := isLoggedIn state;
       balance := balance state; keyPair := keyPair state;
       transactions := transactions state; pendingSync := pendingSync state;
       bleActive := bleActive state;
       lastCounter := <[js_key userPhone := c]> (lastCounter state) |}
  | LOGOUT => initialState
  end.

(** [{ valid, error }] *)
Record Verdict := {
  valid : bool;
  error : option string
}.

Definition accept : Verdict := {| valid := true; error := None |}.
Definition reject (reason : string) : Verdict :=
  {| valid := false; error := Some reason |}.

(** The reasons [verifyPaymentToken] gives. *)
Definition reasons : list string :=
  ["Invalid signature"; "Amount exceeds limit"; "Duplicate transaction";
   "Token expired"; "Verification failed"].

Section Verify.
Context `{Library}.

(** The body of the [try] block of [verifyPaymentToken]; [token] is [None]
    for [null] or [undefined], which the destructuring throws on. [now] is
    [Date.now()]. *)
Definition verify_checks (state : State) (now : Z) (token : option Token)
    : Exc Verdict :=
  match token with
  | None => Throw "TypeError"
  | Some token =>
    let message := JSON_stringify (data token) in
    messageBytes ← decodeUTF8 message;
    signatureBytes ← decodeBase64 (signature token);
    publicKeyBytes ← decodeBase64 (publicKey token);
    isValid ← sign_detached_verify messageBytes signatureBytes publicKeyBytes;
    if negb isValid then Return (reject "Invalid signature")
    else if js_gt (amount (data token)) (Some 500)
    then Return (reject "Amount exceeds limit")
    else
      let last := js_or (lastCounter state !! js_key (from (data token))) (-1) in
      if js_le (counter (data token)) last
      then Return (reject "Duplicate transaction")
      else
        let tokenAge := js_sub (Some now) (timestamp (data token)) in
        if js_gt tokenAge (Some 60000)
        then Return (reject "Token expired")
        else Return accept
  end.

Definition verifyPaymentToken (state : State) (now : Z) (token : option Token)
    : Verdict :=
  try_catch (verify_checks state now token)
            (fun _ => reject "Verification failed").

(** Whether the detached signature of the token verifies under the key the
    token carries. *)
Definition signature_verifies (token : Token) : Prop :=
  (messageBytes ← decodeUTF8 (JSON_stringify (data token));
   signatureBytes ← decodeBase64 (signature token);
   publicKeyBytes ← decodeBase64 (publicKey token);
   sign_detached_verify messageBytes signatureBytes publicKeyBytes)
  = Return true.

(** Acceptance of a verified token by the payee: the counter it carries is
    recorded for its payer. *)
Definition record_counter (state : State) (token : Token) : State :=
  appReducer state (UPDATE_COUNTER (from (data token)) (counter (data token))).

End Verify.

End Merchant.

(** ** The wallet application: the payer side *)

Module Wallet.
Import Token.

Record State := {
  user : option string;              (* [state.user?.phone] *)
  isLoggedIn : bool;
  balance : Z;
  offlineBalance : JsNum;
  keyPair : option KeyPair;
  transactions : list Token;
  pendingSync : list Token;
  counter : Z
}.

Definition initialState : State :=
  {| user := None; isLoggedIn := false; balance := 0;
     offlineBalance := Some 0; keyPair := None; transactions := [];
     pendingSync := []; counter := 0 |}.

Inductive Action :=
| SET_USER (payload : string)
| SET_BALANCE (balance : Z) (offlineBalance : JsNum)
| SET_KEYPAIR (payload : KeyPair)
| ADD_TRANSACTION (payload : Token)
| ADD_PENDING_SYNC (payload : Token)
| CLEAR_PENDING_SYNC
| INCREMENT_COUNTER
| LOGOUT.

Definition appReducer (state : State) (action : Action) : State :=
  match action with
  | SET_USER p =>
    {| user := Some p; isLoggedIn := true; balance := balance state;
       offlineBalance := offlineBalance state; keyPair := keyPair state;
       transactions := transactions state; pendingSync := pendingSync state;
       counter := counter state |}
  | SET_BALANCE b o =>
    {| user := user state; isLoggedIn := isLoggedIn state; balance := b;
       offlineBalance := o; keyPair := keyPair state;
       transactions := transactions state; pendingSync := pendingSync state;
       counter := counter state |}
  | SET_KEYPAIR p =>
    {| user := user state; isLoggedIn := isLoggedIn state;
       balance := balance state; offlineBalance := offlineBalance state;
       keyPair := Some p; transactions := transactions state;
       pendingSync := pendingSync state; counter := counter state |}
  | ADD_TRANSACTION p =>
    {| user := user state; isLoggedIn := isLoggedIn state;
       balance := balance state;
       offlineBalance := js_sub (offlineBalance state) (amount (data p));
       keyPair := keyPair state; transactions := p :: transactions state;
       pendingSync := pendingSync state; counter := counter state |}
  | ADD_PENDING_SYNC p =>
    {| user := user state; isLoggedIn := isLoggedIn state;
       balance := balance state; offlineBalance := offlineBalance state;
       keyPair := keyPair state; transactions := transactions state;
       pendingSync := pendingSync state ++ [p]; counter := counter state |}
  | CLEAR_PENDING_SYNC =>
    {| user := user state; isLoggedIn := isLoggedIn state;
       balance := balance state; offlineBalance := offlineBalance state;
       keyPair := keyPair state; transactions := transactions state;
       pendingSync := []; counter := counter state |}
  | INCREMENT_COUNTER =>
    {| user := user state; isLoggedIn := isLoggedIn state;
       balance := balance state; offlineBalance := offlineBalance state;
       keyPair := keyPair state; transactions := transactions state;
       pendingSync := pendingSync state; counter := counter state + 1 |}
  | LOGOUT => initialState
  end.

(** What one call of [signPaymentToken] reads besides the state: the
    merchant and amount passed in, the two readings of [Date.now()] and
    the string drawn from [Math.random()]. *)
Record SignArgs := {
  merchantId : string;
  payAmount : Z;
  now_timestamp : Z;
  now_txnId : Z;
  random : string
}.

Section Sign.
Context `{Library}.

(** [signPaymentToken], run against the state [state] its closure holds.
    It returns the token ([None] for [null]) and the actions it has
    dispatched. *)
Definition signPaymentToken (state : State) (a : SignArgs)
    : Exc (option Token * list Action) :=
  match keyPair state with
  | None => Return (None, [])
  | Some kp =>
    let tokenData :=
      {| from := user state;
         to := Some (merchantId a);
         amount := Some (payAmount a);
         Token.counter := Some (counter state);
         timestamp := Some (now_timestamp a);
         txnId := Some ("TXN-" +:+ pretty (now_txnId a) +:+ "-" +:+ random a);
         rest := [] |} in
    let message := JSON_stringify tokenData in
    messageBytes ← decodeUTF8 message;
    secretKey ← decodeBase64 (Some (kp_secretKey kp));
    signature ← sign_detached messageBytes secretKey;
    Return (Some {| data := tokenData;
                    Token.signature := Some (encodeBase64 signature);
                    publicKey := Some (kp_publicKey kp) |},
            [INCREMENT_COUNTER])
  end.

(** The store behind [useReducer]: dispatched actions are reduced onto
    it, in order. *)
Definition dispatch (store : State) (actions : list Action) : State :=
  foldl appReducer store actions.

(** One sign operation on the current store: the closure holds the
    store as it is, and the store then takes the dispatched actions. A call
    that throws leaves the store as it was and returns no token. *)
Definition sign_once (store : State) (a : SignArgs) : option Token * State :=
  match signPaymentToken store a with
  | Return (tok, acts) => (tok, dispatch store acts)
  | Throw _ => (None, store)
  end.

(** A sequence of sign operations, each on the store the previous one
    left; the tokens returned, in order. *)
Fixpoint sign_all (store : State) (l : list SignArgs) : list Token :=
  match l with
  | [] => []
  | a :: l =>
    let '(tok, store') := sign_once store a in
    match tok with
    | Some t => t :: sign_all store' l
    | None => sign_all store' l
    end
  end.

(** Two calls made through one closure, hence against one and the same
    state, as [handlePay] followed by [saveOfflinePayment] of one render
    of the payment screen make them; the tokens returned. *)
Definition sign_twice_in_one_render (state : State) (a1 a2 : SignArgs)
    : list Token :=
  match signPaymentToken state a1, signPaymentToken state a2 with
  | Return (Some t1, _), Return (Some t2, _) => [t1; t2]
  | Return (Some t1, _), _ => [t1]
  | _, Return (Some t2, _) => [t2]
  | _, _ => []
  end.

End Sign.

(** The counters a list of tokens carries. *)
Definition counters (l : list Token) : list JsNum :=
  map (fun t => Token.counter (data t)) l.

End Wallet.

(** ** An instance of the library interface

    A keyed checksum stands in for Ed25519, and base64 text for its own
    bytes, so that the functions above can be evaluated on concrete
    tokens. *)

Module Checksum.
Import Token.

Definition base64_char (c : ascii) : bool :=
  let n := nat_of_ascii c in
  ((65 <=? n) && (n <=? 90) || (97 <=? n) && (n <=? 122)
   || (48 <=? n) && (n <=? 57) || (n =? 43) || (n =? 47) || (n =? 61))%nat.

Fixpoint all_chars (p : ascii -> bool) (s : string) : bool :=
  match s with
  | EmptyString => true
  | String c s => p c && all_chars p s
  end.

Fixpoint checksum (s : string) : nat :=
  match s with
  | EmptyString => 0
  | String c s => nat_of_ascii c + checksum s
  end%nat.

Definition show_string (o : option string) : string :=
  match o with None => EmptyString | Some s => s end.

Definition show_num (o : JsNum) : string :=
  match o with None => EmptyString | Some z => pretty z end.

Definition stringify (d : TokenData) : string :=
  show_string (from d) +:+ "," +:+ show_string (to d) +:+ ","
  +:+ show_num (amount d) +:+ "," +:+ show_num (counter d) +:+ ","
  +:+ show_num (timestamp d) +:+ "," +:+ show_string (txnId d) +:+ ","
  +:+ String.concat EmptyString (map (fun kv => fst kv +:+ "=" +:+ snd kv +:+ ";") (rest d)).

Definition decode (v : option string) : Exc string :=
  match v with
  | None => Throw "invalid encoding"
  | Some s => if all_chars base64_char s then Return s
              else Throw "invalid encoding"
  end.

Definition tag (message key : string) : string :=
  key +:+ pretty (checksum message).

#[export] Instance library : Library := {|
  Bytes := string;
  JSON_stringify := stringify;
  decodeUTF8 := fun s => Return s;
  decodeBase64 := decode;
  encodeBase64 := fun b => b;
  sign_detached := fun m k => Return (tag m k);
  sign_detached_verify := fun m s k => Return (String.eqb s (tag m k))
|}.

End Checksum.

(** ** Concrete data on which the functions are evaluated *)

Module Demo.
Import Token Checksum.

(** The store: one user with 5000 in the main balance and 1800 loaded, one
    merchant, no transaction yet. *)
Definition demo_user : Backend.UserRow :=
  {| Backend.balance := 5000; Backend.offline_balance := 1800;
     Backend.public_key := "cGs=" |}.

Definition demo_db : Backend.Db :=
  {| Backend.users := {[ "9800000001" := demo_user ]};
     Backend.merchants := {[ "M1" := 0 ]};
     Backend.transactions := ∅ |}.

(** A batch element of 100 from that user to that merchant. *)
Definition demo_txn (id : string) (c : Z) (sig : string) : Backend.Txn :=
  {| Backend.txnId := id; Backend.fromPhone := "9800000001";
     Backend.toMerchant := "M1"; Backend.t_amount := 100;
     Backend.t_counter := c; Backend.t_signature := sig |}.

(** The statements of one element complete one after the other, without
    error: SELECT, INSERT, UPDATE users, UPDATE merchants. *)
Definition in_order : list Backend.Action :=
  [Backend.Complete 0 false; Backend.Complete 0 false;
   Backend.Complete 0 false; Backend.Complete 0 false].

(** One batch holding T1, reconciled; then the same batch again, up
    to its SELECT. *)
Definition once : list Backend.Action :=
  Backend.Submit (Some [demo_txn "T1" 5 "c2ln"]) :: in_order.

Definition twice : list Backend.Action :=
  once ++ [Backend.Submit (Some [demo_txn "T1" 5 "c2ln"]);
           Backend.Complete 0 false].

(** A batch of two elements whose statements complete interleaved. *)
Definition two_elements : list Backend.Txn :=
  [demo_txn "T1" 5 "c2ln"; demo_txn "T2" 6 "c2ln"].

Definition interleaved : list Backend.Action :=
  [Backend.Complete 1 false; Backend.Complete 0 false;
   Backend.Complete 1 false; Backend.Complete 0 false;
   Backend.Complete 0 false; Backend.Complete 0 false;
   Backend.Complete 0 false; Backend.Complete 0 false].

(** A token with counter 5 reconciled, then one with counter 4 of the same
    payer. *)
Definition counter_5_then_4 : list Backend.Action :=
  (Backend.Submit (Some [demo_txn "T5" 5 "c2ln"]) :: in_order)
  ++ (Backend.Submit (Some [demo_txn "T4" 4 "c2ln"]) :: in_order).

(** The same id twice in one batch: both SELECTs complete before either
    INSERT. *)
Definition same_batch_twice : list Backend.Action :=
  [Backend.Submit (Some [demo_txn "T1" 5 "c2ln"; demo_txn "T1" 5 "c2ln"]);
   Backend.Complete 0 false; Backend.Complete 0 false;
   Backend.Complete 0 false; Backend.Complete 0 false;
   Backend.Complete 0 false; Backend.Complete 0 false].

(** One element up to the completion of its INSERT. *)
Definition insert_done : list Backend.Action :=
  [Backend.Submit (Some [demo_txn "T1" 5 "c2ln"]);
   Backend.Complete 0 false; Backend.Complete 0 false].

(** One element whose UPDATE of [users] fails on the storage. *)
Definition debit_fails : list Backend.Action :=
  [Backend.Submit (Some [demo_txn "T1" 5 "c2ln"]);
   Backend.Complete 0 false; Backend.Complete 0 false;
   Backend.Complete 0 true; Backend.Complete 0 false].

(** The payer's key pair under the instance above. *)
Definition demo_key : string := "a2V5".
Definition demo_keyPair : KeyPair :=
  {| kp_publicKey := demo_key; kp_secretKey := demo_key |}.

(** A token over [d], signed with that key. *)
Definition signed (d : TokenData) : Token :=
  {| data := d;
     signature := Some (tag (stringify d) demo_key);
     publicKey := Some demo_key |}.

Definition demo_data (a c ts : Z) (extra : list (string * string)) : TokenData :=
  {| from := Some "9800000001"; to := Some "M1"; amount := Some a;
     counter := Some c; timestamp := Some ts; txnId := Some "TXN-1000-k3x9";
     rest := extra |}.

(** 600 against the cap of 500, created at 0 and verified at 100000. *)
Definition stale_over_cap : Token := signed (demo_data 600 5 0 []).

(** A token bound to the session nonce N1. *)
Definition bound_to_N1 : Token :=
  signed (demo_data 100 5 1000 [("sessionNonce", "N1")]).

(** The first token of a wallet: counter 0. *)
Definition first_token : Token := signed (demo_data 100 0 1000 []).

(** A token without a signature. *)
Definition unsigned_token : Token :=
  {| data := demo_data 100 5 1000 []; signature := None;
     publicKey := Some demo_key |}.

(** A wallet that is logged in and holds its key pair. *)
Definition demo_wallet : Wallet.State :=
  Wallet.appReducer
    (Wallet.appReducer Wallet.initialState (Wallet.SET_USER "9800000001"))
    (Wallet.SET_KEYPAIR demo_keyPair).

Definition demo_args (ts : Z) : Wallet.SignArgs :=
  {| Wallet.merchantId := "M1"; Wallet.payAmount := 100;
     Wallet.now_timestamp := ts; Wallet.now_txnId := ts;
     Wallet.random := "k3x9" |}.

End Demo.

(** ** The ledger the reconciler keeps *)

Module Ledger.
Import Backend.

(** The sum of the amounts of the records paid by [phone], resp. paid to
    the merchant [mid]. *)
Definition paid_by (phone : string) (m : gmap string TxnRow) : Z :=
  map_fold (fun _ r acc =>
              if bool_decide (from_phone r = phone) then amount r + acc else acc)
           0 m.

Definition paid_to (mid : string) (m : gmap string TxnRow) : Z :=
  map_fold (fun _ r acc =>
              if bool_decide (to_merchant r = mid) then amount r + acc else acc)
           0 m.

Definition sumZ {A} (f : A -> Z) (l : list A) : Z :=
  foldr (fun x acc => f x + acc) 0 l.

(** What the UPDATEs in flight will still take from [phone], resp. give
    to [mid]. *)
Definition debit_due (phone : string) (o : Op) : Z :=
  match o with
  | UpdateUser t => if bool_decide (fromPhone t = phone) then t_amount t else 0
  | _ => 0
  end.

Definition credit_due (mid : string) (o : Op) : Z :=
  match o with
  | UpdateMerchant t => if bool_decide (toMerchant t = mid) then t_amount t else 0
  | _ => 0
  end.

(** The records: those of the start are kept as they are, a new one is
    within the cap and completed, and so is every INSERT in flight. *)
Definition records_inv (d0 : Db) (s : Sys) : Prop :=
  (forall id row, transactions d0 !! id = Some row ->
                  transactions (db s) !! id = Some row)
  /\ (forall id row, transactions (db s) !! id = Some row ->
        transactions d0 !! id = Some row
        \/ (amount row <= 500 /\ status row = "completed"))
  /\ (forall rid t, Insert rid t ∈ pool s -> t_amount t <= 500).

(** The accounts: none appears or disappears, and only the offline balance
    of a user and the balance of a merchant move. *)
Definition accounts_inv (d0 : Db) (s : Sys) : Prop :=
  (forall phone,
     match users d0 !! phone with
     | None => users (db s) !! phone = None
     | Some u0 => exists u, users (db s) !! phone = Some u
                            /\ balance u = balance u0
                            /\ public_key u = public_key u0
     end)
  /\ (forall mid, is_Some (merchants (db s) !! mid) <-> is_Some (merchants d0 !! mid)).

(** The balances against the records, as long as no statement has failed
    on the storage. *)
Definition ledger_inv (d0 : Db) (s : Sys) : Prop :=
  (forall phone u0 u,
     users d0 !! phone = Some u0 -> users (db s) !! phone = Some u ->
     offline_balance u - sumZ (debit_due phone) (pool s)
     = offline_balance u0
       - (paid_by phone (transactions (db s)) - paid_by phone (transactions d0)))
  /\ (forall mid b0 b,
        merchants d0 !! mid = Some b0 -> merchants (db s) !! mid = Some b ->
        b + sumZ (credit_due mid) (pool s)
        = b0 + (paid_to mid (transactions (db s)) - paid_to mid (transactions d0))).

(** The ids of the elements of invocation [rid] that have no outcome
    yet. *)
Definition id_in_flight (rid : nat) (o : Op) : option string :=
  match o with
  | Select r t | Insert r t => if bool_decide (r = rid) then Some (txnId t) else None
  | _ => None
  end.

Definition ids_in_flight (rid : nat) (l : list Op) : list string :=
  omap (id_in_flight rid) l.

Definition is_success (x : string * SyncStatus) : bool :=
  match snd x with Success => true | _ => false end.

(** The outcomes of invocation [rid] against its batch [ts]. *)
Definition outcomes_inv (rid : nat) (ts : list Txn) (s : Sys) : Prop :=
  exists r, reqs s !! rid = Some r
    /\ map fst (results r) ++ ids_in_flight rid (pool s) ≡ₚ map txnId ts
    /\ processed r = count is_success (results r)
    /\ failed r = count (fun x => negb (is_success x)) (results r).

(** The amounts a schedule submits, added up in absolute value. *)
Definition amounts (ts : list Txn) : Z := sumZ (fun t => Z.abs (t_amount t)) ts.

Definition submitted (a : Action) : Z :=
  match a with
  | Submit (Some ts) => amounts ts
  | _ => 0
  end.

Definition volume (sched : list Action) : Z := sumZ submitted sched.

(** What a statement in flight may still move, at most, of the offline
    balance of a user, resp. of the balance of a merchant. *)
Definition user_due (o : Op) : Z :=
  match o with
  | Select _ t | Insert _ t | UpdateUser t => Z.abs (t_amount t)
  | UpdateMerchant _ => 0
  end.

Definition merchant_due (o : Op) : Z :=
  match o with
  | Select _ t | Insert _ t | UpdateMerchant t => Z.abs (t_amount t)
  | UpdateUser _ => 0
  end.

(** How far the balances are from those of the start [d0], against the
    volume [v] submitted so far. *)
Definition range_inv (d0 : Db) (v : Z) (s : Sys) : Prop :=
  (forall phone u0 u,
     users d0 !! phone = Some u0 -> users (db s) !! phone = Some u ->
     Z.abs (offline_balance u - offline_balance u0) + sumZ user_due (pool s) <= v)
  /\ (forall mid b0 b,
        merchants d0 !! mid = Some b0 -> merchants (db s) !! mid = Some b ->
        Z.abs (b - b0) + sumZ merchant_due (pool s) <= v).

(** A store and a schedule on which the additions and subtractions of the
    UPDATEs are exact: no offline balance of a user and no balance of a
    merchant can leave the range of [safe] by the amounts submitted. *)
Definition in_range (d0 : Db) (sched : list Action) : Prop :=
  volume sched < limit
  /\ map_Forall (fun _ u => Z.abs (offline_balance u) + volume sched < limit)
                (users d0)
  /\ map_Forall (fun _ b => Z.abs b + volume sched < limit) (merchants d0).

(** One element, its statements completing one after the other without
    error. *)
Definition one_by_one : list Action :=
  [Complete 0 false; Complete 0 false; Complete 0 false; Complete 0 false].

End Ledger.

(** ** Loading, request after request, and the screen that asks for it *)

Module Loads.
Import Token.

(** One request to [/api/load-balance], with what the storage does to its
    two statements. *)
Record LoadRequest := {
  lr_type : Backend.AccountType;
  lr_phone : string;
  lr_amount : Z;
  lr_get_err : bool;
  lr_run_err : bool
}.

Definition serve (d : Backend.Db) (r : LoadRequest) : Backend.Db :=
  fst (Backend.load_balance d (lr_type r) (lr_phone r) (lr_amount r)
         (lr_get_err r) (lr_run_err r)).

(** Requests handled one after the other. *)
Definition serve_all (d : Backend.Db) (l : list LoadRequest) : Backend.Db :=
  foldl serve d l.

(** A row on which what the handler computes for an amount of at most
    2000 is exact. *)
Definition loadable (u : Backend.UserRow) : Prop :=
  safe (Backend.balance u) /\ Z.abs (Backend.offline_balance u) + 2000 < limit.

(** The alerts of [handleLoad] of the load-balance screen. *)
Inductive LoadAlert :=
| AlertInvalidAmount
| AlertLimitExceeded
| AlertCanOnlyLoad (remaining : JsNum)
| AlertInsufficientBalance.

(** The checks [handleLoad] makes on [loadAmount = parseFloat(amount)]
    before it calls the server; [None] when all of them pass. *)
Definition check_load (state : Wallet.State) (loadAmount : JsNum)
    : option LoadAlert :=
  if match loadAmount with None => true | Some a => (a =? 0) || (a <=? 0) end
  then Some AlertInvalidAmount
  else if js_gt loadAmount (Some 2000) then Some AlertLimitExceeded
  else if js_gt (js_add (Wallet.offlineBalance state) loadAmount) (Some 2000)
  then Some (AlertCanOnlyLoad (js_sub (Some 2000) (Wallet.offlineBalance state)))
  else if js_gt loadAmount (Some (Wallet.balance state))
  then Some AlertInsufficientBalance
  else None.

(** [handleLoad]: the actions it dispatches, given whether the response of
    the server has [success] set ([Throw] when the call throws). *)
Definition handleLoad (state : Wallet.State) (loadAmount : JsNum)
    (response_success : Exc bool) : list Wallet.Action :=
  match check_load state loadAmount with
  | Some _ => []
  | None =>
    match response_success with
    | Return true =>
      [Wallet.SET_BALANCE
         (match loadAmount with
          | Some a => Wallet.balance state - a
          | None => Wallet.balance state
          end)
         (js_add (Wallet.offlineBalance state) loadAmount)]
    | _ => []
    end
  end.

End Loads.

(** ** Accounts: what the forms and the server ask of a phone number and
       a password *)

Module Accounts.

(** A JavaScript string, as the sequence of its UTF-16 code units. *)
Abbreviation JsStr := (list N).

(** The string a literal of ASCII characters denotes. *)
Definition units (s : string) : JsStr :=
  map N_of_ascii (list_ascii_of_string s).

Definition between (lo hi c : N) : bool := ((lo <=? c) && (c <=? hi))%N.

Definition is_upper (c : N) : bool := between 65 90 c.    (* [A-Z] *)
Definition is_lower (c : N) : bool := between 97 122 c.   (* [a-z] *)
Definition is_digit (c : N) : bool := between 48 57 c.    (* \d and [0-9] *)

(** The class of the special characters, by code: exclamation mark, at,
    hash, dollar, percent, caret, ampersand, asterisk, the parentheses,
    comma, full stop, question mark, double quote, colon, the braces, bar,
    less and greater. *)
Definition is_special (c : N) : bool :=
  bool_decide (c ∈ [33; 64; 35; 36; 37; 94; 38; 42; 40; 41; 44; 46; 63; 34;
                    58; 123; 125; 124; 60; 62]%N).

(** [/[class]/.test(s)] *)
Definition has (class : N -> bool) (s : JsStr) : bool := existsb class s.

(** [{ valid, error }] *)
Record Validation := {
  valid : bool;
  error : option string
}.

Definition ok : Validation := {| valid := true; error := None |}.
Definition bad (e : string) : Validation := {| valid := false; error := Some e |}.

(** [validatePassword] of the server. *)
Definition validatePassword (password : JsStr) : Validation :=
  let hasUpperCase := has is_upper password in
  let hasLowerCase := has is_lower password in
  let hasNumbers := has is_digit password in
  let hasSpecialChar := has is_special password in
  if (length password <? 8)%nat
  then bad "Password must be at least 8 characters"
  else if negb hasUpperCase || negb hasLowerCase
  then bad "Password must contain upper and lower case letters"
  else if negb hasNumbers
  then bad "Password must contain at least one number"
  else if negb hasSpecialChar
  then bad "Password must contain at least one special character"
  else ok.

(** [validatePhone] of the server, and the same expression in the forms:
    [/^[6-9]\d{9}$/.test(phone)]. *)
Definition validatePhone (phone : JsStr) : bool :=
  match phone with
  | c :: rest => between 54 57 c && (length rest =? 9)%nat && forallb is_digit rest
  | [] => false
  end.

(** The validation stage of [POST /api/auth/register]: the status and
    error it answers with, or [None] when the request goes on to be
    stored. *)
Definition register_validation (phone password name publicKey : JsStr)
    : option (nat * string) :=
  if bool_decide (phone = []) || bool_decide (password = [])
     || bool_decide (name = []) || bool_decide (publicKey = [])
  then Some (400%nat, "All fields are required")
  else if negb (validatePhone phone)
  then Some (400%nat, "Invalid phone number format")
  else match error (validatePassword password) with
       | Some e => Some (400%nat, e)
       | None => None
       end.

(** The validation stage of [POST /api/auth/merchant/register]. *)
Definition merchant_register_validation
    (merchantId phone password name publicKey : JsStr) : option (nat * string) :=
  if bool_decide (merchantId = []) || bool_decide (phone = [])
     || bool_decide (password = []) || bool_decide (name = [])
     || bool_decide (publicKey = [])
  then Some (400%nat, "All fields are required")
  else if negb (validatePhone phone)
  then Some (400%nat, "Invalid phone number format")
  else match error (validatePassword password) with
       | Some e => Some (400%nat, e)
       | None => None
       end.

(** [String.prototype.trim]: white space and line terminators. *)
Definition is_space (c : N) : bool :=
  bool_decide (c ∈ [9; 10; 11; 12; 13; 32; 160; 5760; 8232; 8233; 8239; 8287;
                    12288; 65279]%N)
  || between 8192 8202 c.

Fixpoint trim_start (s : JsStr) : JsStr :=
  match s with
  | c :: rest => if is_space c then trim_start rest else s
  | [] => []
  end.

Definition trim (s : JsStr) : JsStr := rev (trim_start (rev (trim_start s))).

(** The password branch of [validateInputs] of the wallet's registration
    form: the message put under [newErrors.password], if any. *)
Definition wallet_password_error (password : JsStr) : option string :=
  if bool_decide (password = []) then Some "Password is required"
  else if (length password <? 8)%nat
  then Some "Password must be at least 8 characters"
  else if negb (has is_upper password)
  then Some "Password must contain uppercase letter"
  else if negb (has is_lower password)
  then Some "Password must contain lowercase letter"
  else if negb (has is_digit password)
  then Some "Password must contain a number"
  else if negb (has is_special password)
  then Some "Password must contain special character"
  else None.

(** The same branch of the merchant's registration form. *)
Definition merchant_password_error (password : JsStr) : option string :=
  if bool_decide (password = []) then Some "Password is required"
  else if (length password <? 8)%nat
  then Some "Password must be at least 8 characters"
  else if negb (has is_upper password) || negb (has is_lower password)
  then Some "Include upper and lowercase letters"
  else if negb (has is_digit password)
  then Some "Include at least one number"
  else if negb (has is_special password)
  then Some "Include a special character"
  else None.

Definition phone_error (phone : JsStr) : option string :=
  if bool_decide (phone = []) then Some "Phone number is required"
  else if negb (validatePhone phone)
  then Some "Enter valid 10-digit phone number"
  else None.

(** The fields of the wallet's registration form. *)
Record WalletForm := {
  wf_name : JsStr;
  wf_phone : JsStr;
  wf_password : JsStr;
  wf_confirmPassword : JsStr;
  wf_acceptTerms : bool
}.

Definition of_option {A} (key : string) (o : option A) : list (string * A) :=
  match o with Some x => [(key, x)] | None => [] end.

(** [newErrors], as the entries [validateInputs] has put into it, in
    order. *)
Definition wallet_errors (f : WalletForm) : list (string * string) :=
  (if bool_decide (wf_name f = []) || (length (trim (wf_name f)) <? 2)%nat
   then [("name", "Name must be at least 2 characters")] else [])
  ++ of_option "phone" (phone_error (wf_phone f))
  ++ of_option "password" (wallet_password_error (wf_password f))
  ++ (if bool_decide (wf_password f <> wf_confirmPassword f)
      then [("confirmPassword", "Passwords do not match")] else [])
  ++ (if negb (wf_acceptTerms f)
      then [("terms", "You must accept the terms")] else []).

(** [validateInputs]: [Object.keys(newErrors).length === 0]. *)
Definition wallet_validateInputs (f : WalletForm) : bool :=
  (length (wallet_errors f) =? 0)%nat.

(** [state.keyPair?.publicKey || 'temp-public-key'] *)
Definition publicKey_or (kp : option JsStr) (fallback : JsStr) : JsStr :=
  match kp with
  | Some (c :: k) => c :: k
  | _ => fallback
  end.

(** [/^[A-Z0-9]+$/.test(merchantId)] *)
Definition merchantId_chars (s : JsStr) : bool :=
  negb (bool_decide (s = [])) && forallb (fun c => is_upper c || is_digit c) s.

Record MerchantForm := {
  mf_merchantId : JsStr;
  mf_businessName : JsStr;
  mf_phone : JsStr;
  mf_password : JsStr;
  mf_confirmPassword : JsStr;
  mf_acceptTerms : bool
}.

Definition merchant_errors (f : MerchantForm) : list (string * string) :=
  (if bool_decide (mf_merchantId f = []) || (length (mf_merchantId f) <? 3)%nat
   then [("merchantId", "Merchant ID must be at least 3 characters")]
   else if negb (merchantId_chars (mf_merchantId f))
   then [("merchantId", "Only uppercase letters and numbers allowed")]
   else [])
  ++ (if bool_decide (mf_businessName f = [])
         || (length (trim (mf_businessName f)) <? 2)%nat
      then [("businessName", "Business name is required")] else [])
  ++ of_option "phone" (phone_error (mf_phone f))
  ++ of_option "password" (merchant_password_error (mf_password f))
  ++ (if bool_decide (mf_password f <> mf_confirmPassword f)
      then [("confirmPassword", "Passwords do not match")] else [])
  ++ (if negb (mf_acceptTerms f)
      then [("terms", "Accept terms to continue")] else []).

Definition merchant_validateInputs (f : MerchantForm) : bool :=
  (length (merchant_errors f) =? 0)%nat.

(** [getPasswordStrength(...).strength] of the wallet's form. *)
Definition strength (password : JsStr) : nat :=
  if bool_decide (password = []) then 0
  else ((if (8 <=? length password)%nat then 1 else 0)
        + (if has is_upper password then 1 else 0)
        + (if has is_lower password then 1 else 0)
        + (if has is_digit password then 1 else 0)
        + (if has is_special password then 1 else 0))%nat.

(** The phone field of the forms: what [onChangeText] stores for the text
    typed, [text.replace(/[^0-9]/g, '').slice(0, 10)]. *)
Definition phone_field (text : JsStr) : JsStr :=
  take 10 (List.filter is_digit text).

End Accounts.

(** ** Logging in: failed attempts and the lock of an account *)

Module Login.

(** The two columns of a row of [users] or [merchants] the login routes
    write: [failed_attempts], and [locked_until] as the instant its ISO
    string denotes, in milliseconds ([None] for [NULL]). *)
Record Account := {
  failed_attempts : Z;
  locked_until : option Z
}.

(** A row as registration leaves it. *)
Definition registered : Account :=
  {| failed_attempts := 0; locked_until := None |}.

(** [isAccountLocked], at the instant [now] of its [new Date()]. *)
Definition isAccountLocked (lockedUntil : option Z) (now : Z) : bool :=
  match lockedUntil with
  | None => false
  | Some t => t >? now
  end.

(** [/api/auth/login] and [/api/auth/merchant/login]. *)
Inductive Route := UserRoute | MerchantRoute.

Inductive LoginReply :=
| PhoneAndPasswordRequired                        (* 400 *)
| ServerError                                     (* 500 *)
| InvalidCredentials (attemptsRemaining : option Z)  (* 401 *)
| AccountLocked                                   (* 423, the account is locked *)
| TooManyFailedAttempts                           (* 423, the account is being locked *)
| LoggedIn.                                       (* 200 *)

(** One request to a login route: its body, whether the [SELECT] fails,
    the clock as [isAccountLocked] and as the computation of [lockUntil]
    read it, and what [bcrypt.compare] answers. *)
Record Request := {
  phone : string;
  password : string;
  get_err : bool;
  at_check : Z;
  at_lock : Z;
  validPassword : bool
}.

(** The handler, from the row found on. *)
Definition attempt (route : Route) (row : Account) (r : Request)
    : Account * LoginReply :=
  if isAccountLocked (locked_until row) (at_check r) then (row, AccountLocked)
  else if negb (validPassword r) then
    let newAttempts := failed_attempts row + 1 in
    let lockUntil :=
      if newAttempts >=? 5 then Some (at_lock r + 15 * 60 * 1000) else None in
    let row' := {| failed_attempts := newAttempts; locked_until := lockUntil |} in
    match route, lockUntil with
    | UserRoute, Some _ => (row', TooManyFailedAttempts)
    | _, _ => (row', InvalidCredentials (Some (5 - newAttempts)))
    end
  else ({| failed_attempts := 0; locked_until := None |}, LoggedIn).

(** The route, on the table it reads; the [UPDATE] it issues is applied. *)
Definition login (route : Route) (accounts : gmap string Account) (r : Request)
    : gmap string Account * LoginReply :=
  if bool_decide (phone r = EmptyString) || bool_decide (password r = EmptyString)
  then (accounts, PhoneAndPasswordRequired)
  else if get_err r then (accounts, ServerError)
  else match accounts !! phone r with
       | None => (accounts, InvalidCredentials None)
       | Some row =>
         let '(row', reply) := attempt route row r in
         (<[phone r := row']> accounts, reply)
       end.

(** Requests handled one after the other; each with the reply it got. *)
Fixpoint logins (route : Route) (accounts : gmap string Account)
    (l : list Request) : gmap string Account * list (Request * LoginReply) :=
  match l with
  | [] => (accounts, [])
  | r :: l =>
    let '(accounts', reply) := login route accounts r in
    let '(accounts'', replies) := logins route accounts' l in
    (accounts'', (r, reply) :: replies)
  end.

(** The requests follow one another in time, from [t] on: each reads the
    clock twice, in order, and the next one starts after. *)
Fixpoint in_time (t : Z) (l : list Request) : Prop :=
  match l with
  | [] => True
  | r :: l => t <= at_check r /\ at_check r <= at_lock r /\ in_time (at_lock r) l
  end.

(** The password of the request was compared with the hash of the row. *)
Definition compared (reply : LoginReply) : bool :=
  match reply with
  | InvalidCredentials (Some _) | TooManyFailedAttempts | LoggedIn => true
  | _ => false
  end.

(** The number of passwords tried on the account of [p]. *)
Definition tried (p : string) (l : list (Request * LoginReply)) : Z :=
  Z.of_nat (length (List.filter
    (fun x => bool_decide (phone (fst x) = p) && compared (snd x)) l)).

End Login.

(** ** The access token of a request *)

Module Auth.

(** [s.split(sep)], for a separator of one character. *)
Fixpoint split (sep : ascii) (s : string) : list string :=
  match s with
  | EmptyString => [EmptyString]
  | String c s' =>
    if Ascii.eqb c sep then EmptyString :: split sep s'
    else match split sep s' with
         | w :: ws => String c w :: ws
         | [] => [String c EmptyString]
         end
  end.

(** No space in the string. *)
Fixpoint no_space (s : string) : bool :=
  match s with
  | EmptyString => true
  | String c s' => negb (Ascii.eqb c " ") && no_space s'
  end.

(** What [jwt.verify] calls back with. *)
Inductive Verified (P : Type) :=
| Decoded (payload : P)
| TokenExpiredError
| OtherError.
Arguments Decoded {P} payload.
Arguments TokenExpiredError {P}.
Arguments OtherError {P}.

(** What [authenticateToken] does with the request. *)
Inductive Outcome (P : Type) :=
| AccessTokenRequired          (* 401 *)
| TokenExpired                 (* 401, code TOKEN_EXPIRED *)
| InvalidToken                 (* 403 *)
| Next (user : P).             (* req.user = decoded; next() *)
Arguments AccessTokenRequired {P}.
Arguments TokenExpired {P}.
Arguments InvalidToken {P}.
Arguments Next {P} user.

Section Middleware.
Context {P : Type} (jwt_verify : string -> Verified P).

(** [authHeader && authHeader.split(' ')[1]], where [None] stands for a
    value that is falsy: [undefined] or the empty string. *)
Definition token_of (authHeader : option string) : option string :=
  match authHeader with
  | None => None
  | Some h =>
    if bool_decide (h = EmptyString) then None
    else match split " " h !! 1%nat with
         | Some t => if bool_decide (t = EmptyString) then None else Some t
         | None => None
         end
  end.

Definition authenticateToken (authHeader : option string) : Outcome P :=
  match token_of authHeader with
  | None => AccessTokenRequired
  | Some token =>
    match jwt_verify token with
    | TokenExpiredError => TokenExpired
    | OtherError => InvalidToken
    | Decoded decoded => Next decoded
    end
  end.

End Middleware.

(** The header [authFetch] and [logout] of the applications' [AuthService]
    send: [`Bearer ${accessToken}`]. *)
Definition authorization (accessToken : string) : string :=
  "Bearer " +:+ accessToken.

End Auth.

(** ** The code the merchant shows and the wallet scans *)

Module Qr.
Import Token.

(** [v || d] for a property holding a string. *)
Definition str_or (v : option string) (d : string) : string :=
  match v with
  | Some s => if bool_decide (s = EmptyString) then d else s
  | None => d
  end.

(** The object [generateQR] of the merchant's home screen encodes. *)
Record QrData := {
  merchantId : string;
  merchantName : string;
  bleId : string;
  timestamp : Z
}.

(** [generateQR], for what [state.merchant?.merchantId] and
    [state.merchant?.name] hold and what [Date.now()] reads. *)
Definition generateQR (id name : option string) (now : Z) : QrData :=
  {| merchantId := str_or id "MERCHANT001";
     merchantName := str_or name "Demo Merchant";
     bleId := "TOKPAY-" +:+ str_or id "M001";
     timestamp := now |}.

(** What the home screen shows. *)
Record Screen := {
  qrData : QrData;
  countdown : Z
}.

(** The screen once its effect has run. *)
Definition mount (id name : option string) (now : Z) : Screen :=
  {| qrData := generateQR id name now; countdown := 18 |}.

(** One firing of the interval. *)
Definition tick (id name : option string) (s : Screen) (now : Z) : Screen :=
  if countdown s <=? 1
  then {| qrData := generateQR id name now; countdown := 18 |}
  else {| qrData := qrData s; countdown := countdown s - 1 |}.

(** The screen after [k] firings, [time i] being what [Date.now()] reads
    at the [i]-th of them, and [time 0] when the screen is mounted. *)
Fixpoint shown (id name : option string) (time : nat -> Z) (k : nat) : Screen :=
  match k with
  | O => mount id name (time O)
  | S k' => tick id name (shown id name time k') (time k)
  end.

(** The object the wallet has parsed from a code: properties may be
    absent, and [timestamp] and [amount] are numbers when present. *)
Record Scanned := {
  s_merchantId : option string;
  s_merchantName : option string;
  s_bleId : option string;
  s_timestamp : JsNum;
  s_amount : JsNum
}.

(** [JSON.parse] of what [JSON.stringify] made of the merchant's object. *)
Definition read (q : QrData) : Scanned :=
  {| s_merchantId := Some (merchantId q);
     s_merchantName := Some (merchantName q);
     s_bleId := Some (bleId q);
     s_timestamp := Some (timestamp q);
     s_amount := None |}.

Definition falsy_str (v : option string) : bool :=
  match v with Some s => bool_decide (s = EmptyString) | None => true end.

Definition falsy_num (v : JsNum) : bool :=
  match v with Some n => n =? 0 | None => true end.

Inductive ScanOutcome :=
| InvalidQR                       (* alert 'Invalid QR' *)
| QRExpired                       (* alert 'QR Expired' *)
| Payment (merchantId merchantName bleId : option string) (amount : JsNum).
                                  (* navigate to the payment screen *)

(** [onScan] of the wallet's scan screen; [parsed] is what
    [JSON.parse(e.data)] gives, [now] what [Date.now()] reads. *)
Definition onScan (parsed : Exc Scanned) (now : Z) : ScanOutcome :=
  try_catch
    (data ← parsed;
     if falsy_str (s_merchantId data) || falsy_str (s_bleId data)
        || falsy_num (s_timestamp data)
     then Throw "Invalid QR code"
     else
       let qrAge := js_sub (Some now) (s_timestamp data) in
       if js_gt qrAge (Some 18000) then Return QRExpired
       else Return (Payment (s_merchantId data) (s_merchantName data)
                            (s_bleId data) (s_amount data)))
    (fun _ => InvalidQR).

End Qr.

(** ** Paying: the payment screen of the wallet *)

Module Pay.
Import Token.

(** The alerts of [handlePay] before anything is sent. *)
Inductive PayAlert :=
| AlertInvalidAmount
| AlertLimitExceeded
| AlertInsufficientBalance.

(** The checks [handlePay] makes on [payAmount = parseFloat(amount)], for
    the text of a whole amount ([None] is [NaN]); the result is [None] when
    all of them pass. The text of an amount with a fractional part, 0.5
    say, passes the same three comparisons when it is above 0 and within
    500 and the offline balance; a token of such an amount is not among
    the tokens of this development, whose amounts are whole. *)
Definition check_pay (state : Wallet.State) (payAmount : JsNum)
    : option PayAlert :=
  if match payAmount with None => true | Some a => (a =? 0) || (a <=? 0) end
  then Some AlertInvalidAmount
  else if js_gt payAmount (Some 500) then Some AlertLimitExceeded
  else if js_gt payAmount (Wallet.offlineBalance state)
  then Some AlertInsufficientBalance
  else None.

(** What the merchant answers through [BLEService.sendPayment]. *)
Record Response := {
  success : bool;
  error : option string
}.

(** What one call of [handlePay] reads besides the state: the parameters
    of the route, the amount typed, what [BLEService.connect] and
    [BLEService.sendPayment] do, and what [signPaymentToken] reads. *)
Record PayInput := {
  p_merchantId : string;
  p_merchantName : option string;
  p_amount : JsNum;
  p_connect : Exc unit;
  p_send : Exc Response;
  p_now_timestamp : Z;
  p_now_txnId : Z;
  p_random : string
}.

Inductive PayStatus :=
| Alerted (a : PayAlert)
| Succeeded
| Failed (errorMessage : string) (offerOffline : bool).

(** [s.includes(sub)] *)
Definition includes (s sub : string) : bool :=
  match index 0 sub s with Some _ => true | None => false end.

(** [{ ...token, merchantName, status }] *)
Definition with_status (token : Token) (merchantName : option string)
    (status : string) : Token :=
  {| data :=
       {| from := from (data token); to := to (data token);
          amount := amount (data token); counter := counter (data token);
          timestamp := timestamp (data token); txnId := txnId (data token);
          rest := rest (data token)
                  ++ match merchantName with
                     | Some n => [("merchantName", n)]
                     | None => []
                     end
                  ++ [("status", status)] |};
     signature := signature token;
     publicKey := publicKey token |}.

Section HandlePay.
Context `{Library}.

(** The [try] block of [handlePay], once the checks have passed for the
    amount [a]: the actions dispatched, and how the block ends. *)
Definition pay_try (state : Wallet.State) (a : Z) (i : PayInput)
    : list Wallet.Action * Exc unit :=
  match p_connect i with
  | Throw e => ([], Throw e)
  | Return _ =>
    match Wallet.signPaymentToken state
            {| Wallet.merchantId := p_merchantId i; Wallet.payAmount := a;
               Wallet.now_timestamp := p_now_timestamp i;
               Wallet.now_txnId := p_now_txnId i;
               Wallet.random := p_random i |} with
    | Throw e => ([], Throw e)
    | Return (None, acts) => (acts, Throw "Failed to sign token")
    | Return (Some token, acts) =>
      match p_send i with
      | Throw e => (acts, Throw e)
      | Return response =>
        if success response
        then (acts ++ [Wallet.ADD_TRANSACTION
                         (with_status token (p_merchantName i) "completed");
                       Wallet.ADD_PENDING_SYNC token],
              Return ())
        else (acts,
              Throw (match error response with
                     | Some e => if bool_decide (e = EmptyString)
                                 then "Payment failed" else e
                     | None => "Payment failed"
                     end))
      end
    end
  end.

(** [handlePay], run against the state its closure holds. *)
Definition handlePay (state : Wallet.State) (i : PayInput)
    : list Wallet.Action * PayStatus :=
  match check_pay state (p_amount i), p_amount i with
  | Some alert, _ => ([], Alerted alert)
  | None, None => ([], Alerted AlertInvalidAmount)
  | None, Some a =>
    match pay_try state a i with
    | (acts, Return _) => (acts, Succeeded)
    | (acts, Throw e) =>
      (acts, Failed e (includes e "BLE" || includes e "connect"))
    end
  end.

(** The token [handlePay] hands to [BLEService.sendPayment], when it gets
    that far. *)
Definition token_sent (state : Wallet.State) (i : PayInput) : option Token :=
  match check_pay state (p_amount i), p_amount i, p_connect i with
  | None, Some a, Return _ =>
    match Wallet.signPaymentToken state
            {| Wallet.merchantId := p_merchantId i; Wallet.payAmount := a;
               Wallet.now_timestamp := p_now_timestamp i;
               Wallet.now_txnId := p_now_txnId i;
               Wallet.random := p_random i |} with
    | Return (Some token, _) => Some token
    | _ => None
    end
  | _, _, _ => None
  end.

(** [saveOfflinePayment(payAmount)], which the alert of [handlePay] calls
    when 'Save Offline' is pressed. It is a function of the same render as
    the [handlePay] that raised the alert, and so runs against the state
    that [handlePay] ran against. What it reads besides are the clock and
    [Math.random()], a second time. The result is the token it signs and
    the actions dispatched, or [None] when [signPaymentToken] throws or
    returns [null], in which case what is dispatched holds no token. *)
Definition saveOfflinePayment (state : Wallet.State) (i : PayInput) (a : Z)
    (now_timestamp now_txnId : Z) (random : string)
    : option (Token * list Wallet.Action) :=
  match Wallet.signPaymentToken state
          {| Wallet.merchantId := p_merchantId i; Wallet.payAmount := a;
             Wallet.now_timestamp := now_timestamp;
             Wallet.now_txnId := now_txnId;
             Wallet.random := random |} with
  | Return (Some token, acts) =>
    Some (token,
          acts ++ [Wallet.ADD_TRANSACTION
                     (with_status token (p_merchantName i) "pending");
                   Wallet.ADD_PENDING_SYNC token])
  | _ => None
  end.

(** One payment on the store: the closure holds the store as it is, and
    the store then takes the dispatched actions. *)
Definition pay (store : Wallet.State) (i : PayInput) : Wallet.State :=
  Wallet.dispatch store (handlePay store i).1.

(** Payments made one after the other. *)
Definition pay_all (store : Wallet.State) (l : list PayInput) : Wallet.State :=
  foldl pay store l.

End HandlePay.

(** The sum of the amounts of a list of tokens, absent amounts aside. *)
Definition total (l : list Token) : Z :=
  Ledger.sumZ (fun t => default 0 (amount (data t))) l.

End Pay.

(** ** The wallet's BLE service, and the payment screen on top of it *)

Module Ble.
Import Token.

(** A connected device, as [device.connect] returns it. *)
Abbreviation Device := nat.

(** The fields of the service. *)
Record Service := {
  device : option Device;
  isConnected : bool
}.

(** The service as its constructor leaves it. *)
Definition fresh : Service := {| device := None; isConnected := false |}.

(** One call of the listener of [startDeviceScan]: an error, or a device
    seen, with its name, what [device.connect] gives for it ([None] when it
    throws) and whether the discovery of its services succeeds. *)
Inductive ScanEvent :=
| ScanError (message : string)
| Seen (name : option string) (connected : option Device) (discovered : bool).

(** A promise settles once. *)
Definition settle {A} (settled : option (Exc A)) (r : Exc A) : option (Exc A) :=
  match settled with Some _ => settled | None => Some r end.

(** The scan of [connect]: the calls of the listener, in order, until the
    scan is stopped. An error rejects the promise and leaves the scan
    running; the device named [bleId] stops the scan. *)
Fixpoint scan (bleId : string) (s : Service) (settled : option (Exc bool))
    (events : list ScanEvent) : Service * option (Exc bool) :=
  match events with
  | [] => (s, settled)
  | ScanError e :: events => scan bleId s (settle settled (Throw e)) events
  | Seen name connected discovered :: events =>
    if bool_decide (name = Some bleId) then
      match connected with
      | None => (s, settle settled (Throw "BLE connection failed"))
      | Some d =>
        if discovered
        then ({| device := Some d; isConnected := true |},
              settle settled (Return true))
        else ({| device := Some d; isConnected := isConnected s |},
              settle settled (Throw "BLE connection failed"))
      end
    else scan bleId s settled events
  end.

(** [connect]: [initialize] is awaited inside the [try]; the promise of the
    scan is returned from it, not awaited. [events] are the calls of the
    listener there are before the ten seconds are over or the scan is
    stopped; a promise nothing has settled by then is rejected by the
    timeout. *)
Definition connect (s : Service) (bleId : string) (initialize : Exc unit)
    (events : list ScanEvent) : Service * Exc bool :=
  match initialize with
  | Throw e => (s, Throw ("BLE initialization failed: " +:+ e))
  | Return _ =>
    let '(s', settled) := scan bleId s None events in
    (s', match settled with
         | Some r => r
         | None => Throw "Could not find merchant. Please try again."
         end)
  end.

(** [disconnect]; what [cancelConnection] does is ignored. *)
Definition disconnect (s : Service) : Service :=
  match device s with
  | Some _ => {| device := None; isConnected := false |}
  | None => s
  end.

(** [sendPayment]; [exchange] is what the [try] block comes to: the answer
    of the merchant, parsed, or the error thrown on the way. *)
Definition sendPayment {R} (s : Service) (exchange : Exc R) : Service * Exc R :=
  if negb (isConnected s) || bool_decide (device s = None)
  then (s, Throw "Not connected to merchant")
  else match exchange with
       | Return result => (disconnect s, Return result)
       | Throw e => (disconnect s, Throw ("Payment transmission failed: " +:+ e))
       end.

(** The calls made on the service. *)
Inductive Call :=
| Connect (bleId : string) (initialize : Exc unit) (events : list ScanEvent)
| SendPayment (exchange : Exc Pay.Response)
| Disconnect.

Definition call (s : Service) (c : Call) : Service :=
  match c with
  | Connect bleId initialize events => (connect s bleId initialize events).1
  | SendPayment exchange => (sendPayment s exchange).1
  | Disconnect => disconnect s
  end.

Definition calls (s : Service) (l : list Call) : Service := foldl call s l.

(** No call of the listener is an error or shows the device named
    [bleId]. *)
Definition not_found (bleId : string) (events : list ScanEvent) : Prop :=
  Forall (fun e => match e with
                   | ScanError _ => False
                   | Seen name _ _ => name <> Some bleId
                   end) events.

(** What [handlePay] reads, when [BLEService.connect] and
    [BLEService.sendPayment] are those of the service [s]. *)
Definition over_service (s : Service) (bleId : string) (initialize : Exc unit)
    (events : list ScanEvent) (exchange : Exc Pay.Response)
    (i : Pay.PayInput) : Pay.PayInput :=
  let '(s', connected) := connect s bleId initialize events in
  {| Pay.p_merchantId := Pay.p_merchantId i;
     Pay.p_merchantName := Pay.p_merchantName i;
     Pay.p_amount := Pay.p_amount i;
     Pay.p_connect := (_ ← connected; Return ());
     Pay.p_send := (sendPayment s' exchange).2;
     Pay.p_now_timestamp := Pay.p_now_timestamp i;
     Pay.p_now_txnId := Pay.p_now_txnId i;
     Pay.p_random := Pay.p_random i |}.

End Ble.

(** ** Refresh tokens: the sessions the server keeps *)

Module Sessions.

(** A row of [refresh_tokens]; [None] is [NULL]. *)
Record RefreshRow := {
  user_phone : option string;
  merchant_id : option string;
  token_hash : string;
  expires_at : string
}.

(** The INSERT of [/api/auth/login]. *)
Definition user_session (phone hash expiresAt : string)
    (table : list RefreshRow) : list RefreshRow :=
  table ++ [{| user_phone := Some phone; merchant_id := None;
               token_hash := hash; expires_at := expiresAt |}].

(** The INSERT of [/api/auth/merchant/login]. *)
Definition merchant_session (merchantId hash expiresAt : string)
    (table : list RefreshRow) : list RefreshRow :=
  table ++ [{| user_phone := None; merchant_id := Some merchantId;
               token_hash := hash; expires_at := expiresAt |}].

(** The DELETE of [/api/auth/logout], for the [phone] of [req.user]: the
    rows whose [user_phone] equals it go; a [NULL] equals nothing. *)
Definition logout (phone : string) (table : list RefreshRow) : list RefreshRow :=
  List.filter (fun r => negb (bool_decide (user_phone r = Some phone))) table.

(** The SELECT of [/api/auth/refresh]: the first row of the hash that has
    not expired, [unexpired] being the comparison of [expires_at] with the
    present. *)
Definition refresh_find (unexpired : string -> bool) (hash : string)
    (table : list RefreshRow) : option RefreshRow :=
  List.find (fun r => bool_decide (token_hash r = hash) && unexpired (expires_at r))
            table.

End Sessions.

(** ** The applications' [ApiService] against the protected routes *)

Module Client.
Import Token.

(** The headers [ApiService] sends with a POST, as the server reads them:
    names in lower case. *)
Definition api_headers : gmap string string :=
  {[ "content-type" := "application/json" ]}.

(** [req.headers['authorization']] *)
Definition authorization_of (headers : gmap string string) : option string :=
  headers !! "authorization".

(** The [success] property of the body a route behind [authenticateToken]
    answers with, [handler] being the route proper; the bodies of the
    middleware have none. *)
Definition protected_success {P} (jwt_verify : string -> Auth.Verified P)
    (headers : gmap string string) (handler : P -> bool) : bool :=
  match Auth.authenticateToken jwt_verify (authorization_of headers) with
  | Auth.Next user => handler user
  | _ => false
  end.

(** [handleSync] of the merchant's transactions screen: the actions it
    dispatches, given whether the response has [success] set ([Throw] when
    the call throws). *)
Definition handleSync (state : Merchant.State) (response_success : Exc bool)
    : list Merchant.Action :=
  match Merchant.pendingSync state with
  | [] => []
  | _ :: _ =>
    match response_success with
    | Return true => [Merchant.CLEAR_PENDING_SYNC]
    | _ => []
    end
  end.

End Client.

(** ** Further concrete data *)

Module Examples.
Import Token.

(** The store once T1 has been reconciled, and a batch holding T2. *)
Definition after_T1 : Backend.Db :=
  Backend.db (Backend.run (Backend.init Demo.demo_db) Demo.once).

Definition then_T2 : list Backend.Action :=
  Backend.Submit (Some [Demo.demo_txn "T2" 6 "c2ln"]) :: Demo.in_order.

(** Three load requests of the demo user: 100, accepted; 300, over what
    can still be loaded; 50, failing on the storage. *)
Definition demo_loads : list Loads.LoadRequest :=
  [ {| Loads.lr_type := Backend.TUser; Loads.lr_phone := "9800000001";
       Loads.lr_amount := 100; Loads.lr_get_err := false;
       Loads.lr_run_err := false |};
    {| Loads.lr_type := Backend.TUser; Loads.lr_phone := "9800000001";
       Loads.lr_amount := 300; Loads.lr_get_err := false;
       Loads.lr_run_err := false |};
    {| Loads.lr_type := Backend.TUser; Loads.lr_phone := "9800000001";
       Loads.lr_amount := 50; Loads.lr_get_err := false;
       Loads.lr_run_err := true |} ].

(** The demo wallet, holding the balances the store holds for its user. *)
Definition synced_wallet : Wallet.State :=
  Wallet.appReducer Demo.demo_wallet (Wallet.SET_BALANCE 5000 (Some 1800)).

(** A password all the checks accept, and a phone number. *)
Definition demo_password : Accounts.JsStr := Accounts.units "Abcdef1!".
Definition demo_phone : Accounts.JsStr := Accounts.units "9800000001".

Definition wallet_form : Accounts.WalletForm :=
  {| Accounts.wf_name := Accounts.units "Asha";
     Accounts.wf_phone := demo_phone;
     Accounts.wf_password := demo_password;
     Accounts.wf_confirmPassword := demo_password;
     Accounts.wf_acceptTerms := true |}.

Definition merchant_form : Accounts.MerchantForm :=
  {| Accounts.mf_merchantId := Accounts.units "SHOP1";
     Accounts.mf_businessName := Accounts.units "Shop";
     Accounts.mf_phone := demo_phone;
     Accounts.mf_password := demo_password;
     Accounts.mf_confirmPassword := demo_password;
     Accounts.mf_acceptTerms := true |}.

(** One registered account, and six requests for it with a wrong
    password, a second apart. *)
Definition demo_accounts : gmap string Login.Account :=
  {[ "9800000001" := Login.registered ]}.

Definition wrong_at (t : Z) : Login.Request :=
  {| Login.phone := "9800000001"; Login.password := "guess";
     Login.get_err := false; Login.at_check := t; Login.at_lock := t;
     Login.validPassword := false |}.

Definition six_wrong : list Login.Request :=
  [wrong_at 1000; wrong_at 2000; wrong_at 3000; wrong_at 4000; wrong_at 5000;
   wrong_at 6000].

(** The account locked until 905000, and the right password sent at
    6000. *)
Definition locked_row : Login.Account :=
  {| Login.failed_attempts := 5; Login.locked_until := Some 905000 |}.

Definition locked_accounts : gmap string Login.Account :=
  {[ "9800000001" := locked_row ]}.

Definition right_at_6000 : Login.Request :=
  {| Login.phone := "9800000001"; Login.password := "secret";
     Login.get_err := false; Login.at_check := 6000; Login.at_lock := 6000;
     Login.validPassword := true |}.

(** A verification that knows one token. *)
Definition demo_jwt (token : string) : Auth.Verified string :=
  if String.eqb token "abc.def.ghi" then Auth.Decoded "9800000001"
  else Auth.OtherError.

(** The interval of the home screen firing every second, from 1000 on. *)
Definition every_second (i : nat) : Z := 1000 * (Z.of_nat i + 1).

(** Three payments of the synced wallet: 100, which the merchant accepts;
    600, over the limit; 50, for which the connection fails. *)
Definition pay_input (a : Z) (connect : Exc unit) (ok : bool) (ts : Z)
    : Pay.PayInput :=
  {| Pay.p_merchantId := "M1"; Pay.p_merchantName := Some "Shop";
     Pay.p_amount := Some a; Pay.p_connect := connect;
     Pay.p_send := Return {| Pay.success := ok; Pay.error := None |};
     Pay.p_now_timestamp := ts; Pay.p_now_txnId := ts;
     Pay.p_random := "k3x9" |}.

(** T1 reconciled up to its INSERT, so that its two UPDATEs are in
    flight, and a second request, holding T2, just arrived. *)
Definition updates_in_flight : list Backend.Action :=
  [Backend.Submit (Some [Demo.demo_txn "T1" 5 "c2ln"]);
   Backend.Complete 0 false; Backend.Complete 0 false;
   Backend.Submit (Some [Demo.demo_txn "T2" 6 "c2ln"])].

(** A payment of 100 for which the connection is made and the token
    signed, and whose transmission then fails. *)
Definition failed_send : Pay.PayInput :=
  {| Pay.p_merchantId := "M1"; Pay.p_merchantName := Some "Shop";
     Pay.p_amount := Some 100; Pay.p_connect := Return ();
     Pay.p_send :=
       Throw "Payment transmission failed: Device was disconnected";
     Pay.p_now_timestamp := 1000; Pay.p_now_txnId := 1000;
     Pay.p_random := "k3x9" |}.

(** Logging out and in again. *)
Definition relogin (store : Wallet.State) : Wallet.State :=
  Wallet.appReducer
    (Wallet.appReducer (Wallet.appReducer store Wallet.LOGOUT)
       (Wallet.SET_USER "9800000001"))
    (Wallet.SET_KEYPAIR Demo.demo_keyPair).

Definition three_payments : list Pay.PayInput :=
  [pay_input 100 (Return ()) true 1000;
   pay_input 600 (Return ()) true 2000;
   pay_input 50 (Throw "BLE connection failed") true 3000].

(** A library whose encodings are the identity, over the keyed checksum
    of the instance above. *)
Definition plain_decode (v : option string) : Exc string :=
  match v with
  | None => Throw "invalid encoding"
  | Some s => Return s
  end.

Definition plain_library : Library := {|
  Bytes := string;
  JSON_stringify := Checksum.stringify;
  decodeUTF8 := fun s => Return s;
  decodeBase64 := plain_decode;
  encodeBase64 := fun b => b;
  sign_detached := fun m k => Return (Checksum.tag m k);
  sign_detached_verify := fun m s k => Return (String.eqb s (Checksum.tag m k))
|}.

(** A scan that sees two other devices, and one that sees the merchant's. *)
Definition others_seen : list Ble.ScanEvent :=
  [Ble.Seen (Some "TOKPAY-M2") (Some 1%nat) true; Ble.Seen None None false].

Definition merchant_seen : list Ble.ScanEvent :=
  [Ble.Seen (Some "TOKPAY-M2") (Some 1%nat) true;
   Ble.Seen (Some "TOKPAY-M1") (Some 2%nat) true].

Definition accepted : Exc Pay.Response :=
  Return {| Pay.success := true; Pay.error := None |}.

End Examples.

(** * Properties *)

(** ** Loading the offline balance *)

Module LoadBalanceFacts.
Import Backend Demo.

Ltac load_case :=
  split_and!; try split; intros; destruct_and?; simpl in *;
  try done; try lia.

Lemma load_balance_rejected_keeps_db d type phone a ge re :
  load_succeeds (snd (load_balance d type phone a ge re)) = false ->
  fst (load_balance d type phone a ge re) = d.
Proof.
  unfold load_balance. destruct type; [|done].
  repeat (case_match; simpl; try done).
Qed.

(** C9, as stated, fails: an amount above 2000 is refused as exceeding the
    maximum offline balance before the row is read, so that a request of
    2500 by a user holding 1800 offline, which would push the offline
    balance past 2000, is not answered with the remaining capacity of
    200. *)
Lemma capacity_not_reported_above_2000 :
  offline_balance demo_user + 2500 > 2000
  /\ load_balance demo_db TUser "9800000001" 2500 false false
     = (demo_db, MaximumOfflineBalance)
  /\ error_message MaximumOfflineBalance
     = Some ("Maximum offline balance is " +:+ currency +:+ "2000")
  /\ MaximumOfflineBalance <> CanOnlyLoad (2000 - offline_balance demo_user).
Proof. split_and!; [done|reflexivity|reflexivity|discriminate]. Qed.

(** C9, as amended. A load-balance request of a whole amount [a] by a user
    whose row holds main balance [B] and offline balance [O], all in range
    for the handler to compute exactly, with no storage error. It succeeds
    if and only if [0 < a], [a <= 2000], [O + a <= 2000] and [a <= B]; on
    success the reply tells [B - a] and [O + a], the row holds main balance
    [B - a] and offline balance [O + a] with the public key it had, is in
    range again, and nothing else changes. Otherwise nothing changes, and
    the answer is: 'Invalid amount' when [a <= 0]; 'Maximum offline
    balance' when [a > 2000], whatever [O] is; the remaining capacity
    [2000 - O] when [0 < a <= 2000] and [O + a > 2000]; 'Insufficient
    balance' when these pass and [B < a]. With [O = 1800] and [a = 400]
    the body reads that 200 more can be loaded. *)
Theorem load_balance_iff (d : Db) (phone : string) (u : UserRow) (a : Z) :
  users d !! phone = Some u ->
  safe a -> safe (balance u) -> Z.abs (offline_balance u) + 2000 < limit ->
  let d' := fst (load_balance d TUser phone a false false) in
  let r := snd (load_balance d TUser phone a false false) in
  (load_succeeds r = true <->
     0 < a /\ a <= 2000 /\ offline_balance u + a <= 2000 /\ a <= balance u)
  /\ (load_succeeds r = true ->
        r = Loaded (balance u - a) (offline_balance u + a)
        /\ users d' !! phone
           = Some {| balance := balance u - a;
                     offline_balance := offline_balance u + a;
                     public_key := public_key u |}
        /\ safe (balance u - a)
        /\ Z.abs (offline_balance u + a) + 2000 < limit
        /\ (forall p, p <> phone -> users d' !! p = users d !! p)
        /\ merchants d' = merchants d /\ transactions d' = transactions d)
  /\ (load_succeeds r = false -> d' = d)
  /\ (a <= 0 -> r = InvalidAmount)
  /\ (2000 < a -> r = MaximumOfflineBalance)
  /\ (0 < a -> a <= 2000 -> 2000 < offline_balance u + a ->
        r = CanOnlyLoad (2000 - offline_balance u)
        /\ safe (2000 - offline_balance u))
  /\ (0 < a -> a <= 2000 -> offline_balance u + a <= 2000 -> balance u < a ->
        r = InsufficientBalance)
  /\ (offline_balance u = 1800 -> a = 400 ->
        error_message r = Some ("Can only load " +:+ currency +:+ "200 more")).
Proof.
  intros Hu Sa Sb So d' r. subst d' r. unfold load_balance. rewrite Hu.
  unfold safe, limit in *.
  destruct (a =? 0) eqn:E0; simpl; [apply Z.eqb_eq in E0; load_case|].
  destruct (a <=? 0) eqn:E1; simpl; [apply Z.leb_le in E1; load_case|].
  apply Z.leb_gt in E1.
  destruct (a >? 2000) eqn:E2; simpl; [apply Z.gtb_lt in E2; load_case|].
  assert (a <= 2000) by (rewrite Z.gtb_ltb in E2; apply Z.ltb_ge in E2; lia).
  destruct (offline_balance u + a >? 2000) eqn:E3; simpl.
  { apply Z.gtb_lt in E3. load_case.
    match goal with H : offline_balance u = _ |- _ => rewrite H end.
    reflexivity. }
  assert (offline_balance u + a <= 2000)
    by (rewrite Z.gtb_ltb in E3; apply Z.ltb_ge in E3; lia).
  destruct (balance u <? a) eqn:E4; simpl; [apply Z.ltb_lt in E4; load_case|].
  apply Z.ltb_ge in E4. load_case.
  split_and!; [by rewrite lookup_alter_eq, Hu |lia|lia| | done | done].
  intros p Hp. by rewrite lookup_alter_ne.
Qed.

Lemma load_balance_iff_witness :
  snd (load_balance demo_db TUser "9800000001" 400 false false) = CanOnlyLoad 200
  /\ error_message (snd (load_balance demo_db TUser "9800000001" 400 false false))
     = Some ("Can only load " +:+ currency +:+ "200 more")
  /\ snd (load_balance demo_db TUser "9800000001" 200 false false)
     = Loaded 4800 2000
  /\ users (fst (load_balance demo_db TUser "9800000001" 200 false false))
       !! "9800000001"
     = Some {| balance := 4800; offline_balance := 2000; public_key := "cGs=" |}
  /\ snd (load_balance demo_db TUser "9800000001" 2500 false false)
     = MaximumOfflineBalance.
Proof.
  assert (R : forall a, Z.abs a <= 5000 ->
            safe a /\ safe (balance demo_user)
            /\ Z.abs (offline_balance demo_user) + 2000 < limit)
    by (intros a Ha; unfold safe, limit; simpl; lia).
  destruct (R 400 ltac:(lia)) as (S1 & S2 & S3).
  destruct (load_balance_iff demo_db "9800000001" demo_user 400
              (lookup_singleton_eq _ _) S1 S2 S3)
    as (_ & _ & _ & _ & _ & H6 & _ & H8).
  destruct (R 200 ltac:(lia)) as (T1 & _).
  destruct (load_balance_iff demo_db "9800000001" demo_user 200
              (lookup_singleton_eq _ _) T1 S2 S3) as (H1 & H2 & _).
  destruct (R 2500 ltac:(lia)) as (U1 & _).
  destruct (load_balance_iff demo_db "9800000001" demo_user 2500
              (lookup_singleton_eq _ _) U1 S2 S3) as (_ & _ & _ & _ & H5 & _).
  assert (G : 0 < 400 /\ 400 <= 2000 /\ 2000 < offline_balance demo_user + 400)
    by (simpl; lia).
  destruct G as (G1 & G2 & G3). destruct (H6 G1 G2 G3) as [H6a _].
  assert (L : load_succeeds
                (snd (load_balance demo_db TUser "9800000001" 200 false false))
              = true) by (apply H1; simpl; lia).
  destruct (H2 L) as (H2a & H2b & _).
  split; [exact H6a|]. split; [apply H8; reflexivity|].
  split; [exact H2a|]. split; [exact H2b|].
  apply H5. lia.
Defined.

End LoadBalanceFacts.

(** ** Payee-side verification *)

Module MerchantFacts.
Import Token Merchant.

Section General.
Context `{Library}.

Lemma verify_checks_verdict state now token v :
  verify_checks state now token = Return v ->
  v = accept \/ exists r, r ∈ reasons /\ v = reject r.
Proof.
  unfold verify_checks, reasons. destruct token as [t|]; [|done].
  destruct (decodeUTF8 _); simpl; [|done].
  destruct (decodeBase64 (signature t)); simpl; [|done].
  destruct (decodeBase64 (publicKey t)); simpl; [|done].
  destruct (sign_detached_verify _ _ _) as [[]|]; simpl; [| |done].
  - repeat case_match; intros [= <-]; eauto;
      right; eexists; (split; [|reflexivity]); set_solver.
  - intros [= <-]. right; eexists; (split; [|reflexivity]); set_solver.
Qed.

Lemma verify_verdict state now token :
  verifyPaymentToken state now token = accept
  \/ exists r, r ∈ reasons /\ verifyPaymentToken state now token = reject r.
Proof.
  unfold verifyPaymentToken.
  destruct (verify_checks state now token) as [v|e] eqn:E; simpl.
  - eapply verify_checks_verdict; eauto.
  - right. eexists; split; [|reflexivity]. unfold reasons; set_solver.
Qed.

(** What [verify_checks] does once the signature has verified. *)
Lemma verify_checks_signed state now t :
  signature_verifies t ->
  verify_checks state now (Some t) =
  Return
    (if js_gt (amount (data t)) (Some 500) then reject "Amount exceeds limit"
     else if js_le (counter (data t))
                   (js_or (lastCounter state !! js_key (from (data t))) (-1))
     then reject "Duplicate transaction"
     else if js_gt (js_sub (Some now) (timestamp (data t))) (Some 60000)
     then reject "Token expired"
     else accept).
Proof.
  unfold signature_verifies, verify_checks.
  destruct (decodeUTF8 _); simpl; [|done].
  destruct (decodeBase64 (signature t)); simpl; [|done].
  destruct (decodeBase64 (publicKey t)); simpl; [|done].
  intros ->. simpl. by repeat case_match.
Qed.

(** C10. [verifyPaymentToken] returns a verdict on every input; whenever
    the token is [null] or one of the library calls made on it throws (a
    missing or malformed [signature] or [publicKey] among them), the
    verdict is [valid: false] with the reason 'Verification failed'; and
    every verdict with [valid: false] carries a reason that is not the
    empty string. *)
Theorem verify_never_throws (state : State) (now : Z) (token : option Token) :
  let v := verifyPaymentToken state now token in
  (forall e, verify_checks state now token = Throw e ->
     v = reject "Verification failed")
  /\ (token = None -> v = reject "Verification failed")
  /\ (forall t, token = Some t ->
        (exists e, decodeUTF8 (JSON_stringify (data t)) = Throw e)
        \/ (exists e, decodeBase64 (signature t) = Throw e)
        \/ (exists e, decodeBase64 (publicKey t) = Throw e)
        \/ (exists m s k e,
              decodeUTF8 (JSON_stringify (data t)) = Return m
              /\ decodeBase64 (signature t) = Return s
              /\ decodeBase64 (publicKey t) = Return k
              /\ sign_detached_verify m s k = Throw e) ->
        v = reject "Verification failed")
  /\ (valid v = false ->
        exists r, error v = Some r /\ r <> EmptyString /\ r ∈ reasons)
  /\ (valid v = true -> v = accept).
Proof.
  intros v. subst v. split_and!.
  - intros e He. unfold verifyPaymentToken. by rewrite He.
  - intros ->. reflexivity.
  - intros t -> Hthrow. unfold verifyPaymentToken, verify_checks.
    destruct Hthrow as [[e He]|[[e He]|[[e He]|(m & s & k & e & Hm & Hs & Hk & He)]]].
    + by rewrite He.
    + rewrite He. by destruct (decodeUTF8 _).
    + rewrite He. destruct (decodeUTF8 _); [|done].
      by destruct (decodeBase64 (signature t)).
    + rewrite Hm, Hs, Hk. simpl. by rewrite He.
  - intros Hv. destruct (verify_verdict state now token) as [E|(r & Hr & E)];
      rewrite E in *; [done|].
    exists r. split_and!; [done| |done].
    clear E Hv. revert r Hr. apply Forall_forall. unfold reasons.
    by repeat constructor.
  - intros Hv. destruct (verify_verdict state now token) as [E|(r & Hr & E)];
      rewrite E in *; done.
Qed.

(** C6, as amended. After the signature check the policy checks run in
    the order amount cap, replay counter, freshness, and the first that
    fails decides the reason: a validly signed token over the cap is
    rejected with 'Amount exceeds limit' whatever its counter and age; one
    within the cap whose counter is not above the recorded one is rejected
    with 'Duplicate transaction' whatever its age; one that passes both
    and is older than 60000 ms is rejected with 'Token expired'; one that
    passes all three is accepted. A token whose signature does not verify
    is rejected with 'Invalid signature' before any of them. *)
Theorem policy_check_order (state : State) (now : Z) (t : Token) :
  signature_verifies t ->
  let v := verifyPaymentToken state now (Some t) in
  let over_cap := js_gt (amount (data t)) (Some 500) in
  let replayed :=
    js_le (counter (data t))
          (js_or (lastCounter state !! js_key (from (data t))) (-1)) in
  let stale := js_gt (js_sub (Some now) (timestamp (data t))) (Some 60000) in
  (over_cap = true -> v = reject "Amount exceeds limit")
  /\ (over_cap = false -> replayed = true -> v = reject "Duplicate transaction")
  /\ (over_cap = false -> replayed = false -> stale = true ->
        v = reject "Token expired")
  /\ (over_cap = false -> replayed = false -> stale = false -> v = accept).
Proof.
  intros Hs v over_cap replayed stale. subst v over_cap replayed stale.
  unfold verifyPaymentToken. rewrite (verify_checks_signed _ _ _ Hs). simpl.
  split_and!; intros; repeat match goal with H : _ = _ |- _ => rewrite H end;
    reflexivity.
Qed.

(** A signature that does not verify is reported before any policy
    check. *)
Lemma invalid_signature_first state now t m s k :
  decodeUTF8 (JSON_stringify (data t)) = Return m ->
  decodeBase64 (signature t) = Return s ->
  decodeBase64 (publicKey t) = Return k ->
  sign_detached_verify m s k = Return false ->
  verifyPaymentToken state now (Some t) = reject "Invalid signature".
Proof.
  intros Hm Hs Hk Hv. unfold verifyPaymentToken, verify_checks.
  rewrite Hm, Hs, Hk. simpl. by rewrite Hv.
Qed.

(** The replay check does its work whenever the counter recorded for the
    payer is not zero: a token whose counter is not above it is rejected,
    as a duplicate when it is validly signed and within the cap. *)
Lemma replay_rejected_nonzero state now t c last :
  lastCounter state !! js_key (from (data t)) = Some (Some last) ->
  last <> 0 ->
  counter (data t) = Some c ->
  c <= last ->
  valid (verifyPaymentToken state now (Some t)) = false
  /\ (signature_verifies t -> js_gt (amount (data t)) (Some 500) = false ->
        verifyPaymentToken state now (Some t) = reject "Duplicate transaction").
Proof.
  intros Hl Hz Hc Hle.
  assert (R : js_le (counter (data t))
                (js_or (lastCounter state !! js_key (from (data t))) (-1)) = true).
  { rewrite Hl, Hc. simpl. destruct (last =? 0) eqn:E.
    - apply Z.eqb_eq in E. lia.
    - simpl. by apply Z.leb_le. }
  split.
  - unfold verifyPaymentToken.
    destruct (verify_checks state now (Some t)) as [v|e] eqn:E; [|done].
    simpl. unfold verify_checks in E.
    destruct (decodeUTF8 _); simpl in E; [|done].
    destruct (decodeBase64 (signature t)); simpl in E; [|done].
    destruct (decodeBase64 (publicKey t)); simpl in E; [|done].
    destruct (sign_detached_verify _ _ _) as [[]|]; simpl in E; [| |done].
    + rewrite R in E. by repeat case_match; injection E as <-.
    + by injection E as <-.
  - intros Hs Ha. unfold verifyPaymentToken.
    rewrite (verify_checks_signed _ _ _ Hs). simpl. by rewrite Ha, R.
Qed.

End General.

Import Checksum Demo.

Lemma verify_never_throws_witness :
  verifyPaymentToken initialState 2000 (Some unsigned_token)
  = reject "Verification failed"
  /\ verifyPaymentToken initialState 2000 None = reject "Verification failed".
Proof.
  destruct (verify_never_throws initialState 2000 (Some unsigned_token))
    as (_ & _ & H3 & _).
  destruct (verify_never_throws initialState 2000 None) as (_ & H2 & _).
  split.
  - apply (H3 unsigned_token eq_refl). right. left.
    exists "invalid encoding". reflexivity.
  - apply H2. reflexivity.
Defined.

(** C6, as stated, fails: a validly signed token that is both older than
    the window and over the cap is rejected for its amount, not for its
    age. *)
Lemma stale_over_cap_reports_amount :
  signature_verifies stale_over_cap
  /\ js_gt (js_sub (Some 100000) (timestamp (data stale_over_cap))) (Some 60000) = true
  /\ js_gt (amount (data stale_over_cap)) (Some 500) = true
  /\ verifyPaymentToken initialState 100000 (Some stale_over_cap)
     = reject "Amount exceeds limit"
  /\ verifyPaymentToken initialState 100000 (Some stale_over_cap)
     <> reject "Token expired".
Proof. split_and!; [reflexivity..|]. vm_compute. discriminate. Qed.

Lemma policy_check_order_witness :
  verifyPaymentToken initialState 100000 (Some stale_over_cap)
  = reject "Amount exceeds limit"
  /\ verifyPaymentToken initialState 2000 (Some first_token) = accept.
Proof.
  assert (S1 : signature_verifies stale_over_cap) by reflexivity.
  assert (S2 : signature_verifies first_token) by reflexivity.
  destruct (policy_check_order initialState 100000 stale_over_cap S1)
    as (H1 & _).
  destruct (policy_check_order initialState 2000 first_token S2)
    as (_ & _ & _ & H4).
  split.
  - apply H1. reflexivity.
  - apply H4; reflexivity.
Defined.

(** C4. [verifyPaymentToken] reads the state, the clock and the token, and
    none of them holds a session: a validly signed token that names the
    session nonce N1 is accepted while the payee shows a code minted for
    another nonce. *)
Theorem session_nonce_not_checked :
  let current_nonce := "N2" in
  rest (data bound_to_N1) = [("sessionNonce", "N1")]
  /\ "N1" <> current_nonce
  /\ signature_verifies bound_to_N1
  /\ verifyPaymentToken initialState 2000 (Some bound_to_N1) = accept.
Proof. split_and!; [reflexivity|discriminate|reflexivity|reflexivity]. Qed.

End MerchantFacts.

(** ** Payer-side signing *)

Module WalletFacts.
Import Token Wallet.

Section General.
Context `{Library}.

Lemma signPaymentToken_token state a tok acts :
  signPaymentToken state a = Return (Some tok, acts) ->
  Token.counter (data tok) = Some (counter state)
  /\ acts = [INCREMENT_COUNTER].
Proof.
  unfold signPaymentToken. destruct (keyPair state); [|done].
  destruct (decodeUTF8 _); simpl; [|done].
  destruct (decodeBase64 _); simpl; [|done].
  destruct (sign_detached _ _); simpl; [|done].
  by intros [= <- <-].
Qed.

Lemma signPaymentToken_null state a acts :
  signPaymentToken state a = Return (None, acts) -> acts = [].
Proof.
  unfold signPaymentToken. destruct (keyPair state); [|by intros [= <-]].
  destruct (decodeUTF8 _); simpl; [|done].
  destruct (decodeBase64 _); simpl; [|done].
  by destruct (sign_detached _ _).
Qed.

Lemma sign_once_some store a tok store' :
  sign_once store a = (Some tok, store') ->
  Token.counter (data tok) = Some (counter store)
  /\ store' = appReducer store INCREMENT_COUNTER.
Proof.
  unfold sign_once.
  destruct (signPaymentToken store a) as [[[t|] acts]|e] eqn:E; [| |done].
  - intros [= <- <-]. apply signPaymentToken_token in E as [E ->]. done.
  - intros [= ].
Qed.

Lemma sign_once_none store a store' :
  sign_once store a = (None, store') -> store' = store.
Proof.
  unfold sign_once.
  destruct (signPaymentToken store a) as [[[t|] acts]|e] eqn:E; [done| |].
  - intros [= <-]. by apply signPaymentToken_null in E as ->.
  - by intros [= <-].
Qed.

(** The counters of a run of sign operations are consecutive, from the
    stored counter on. *)
Lemma sign_all_counters l : forall store,
  counters (sign_all store l)
  = map (fun i => Some (counter store + Z.of_nat i))
        (seq 0 (length (sign_all store l))).
Proof.
  induction l as [|a l IH]; intros store; [done|].
  simpl. destruct (sign_once store a) as [[t|] store'] eqn:E.
  - apply sign_once_some in E as [Hc ->]. simpl.
    rewrite Hc, IH. f_equal; [f_equal; lia|].
    rewrite <- seq_shift, map_map. apply map_ext. intros i. simpl.
    f_equal. lia.
  - apply sign_once_none in E as ->. apply IH.
Qed.

(** Sign operations that see one another's dispatch. A sign operation
    puts the stored counter itself into the token and leaves the stored
    counter one higher, within the operation and hence before the token is
    handed on for transmission and whatever becomes of it; so the tokens
    returned by a sequence of sign operations, each run on the state the
    previous one left, carry strictly increasing and pairwise different
    counters. The payment screen does not always sign in that way, see the
    facts on paying below. *)
Theorem sign_counters_increase (store : State) (l : list SignArgs) :
  (forall a tok store',
     sign_once store a = (Some tok, store') ->
     Token.counter (data tok) = Some (counter store)
     /\ counter store' = counter store + 1)
  /\ (forall i j ci cj, (i < j)%nat ->
        counters (sign_all store l) !! i = Some (Some ci) ->
        counters (sign_all store l) !! j = Some (Some cj) ->
        ci < cj)
  /\ NoDup (counters (sign_all store l)).
Proof.
  split_and!.
  - intros a tok store' E. apply sign_once_some in E as [Hc ->]. done.
  - intros i j ci cj Hij. rewrite sign_all_counters.
    rewrite !list_lookup_fmap. intros Hi Hj.
    destruct (seq _ _ !! i) as [x|] eqn:Ex; [|done].
    destruct (seq _ _ !! j) as [y|] eqn:Ey; [|done].
    apply lookup_seq in Ex as [-> _]. apply lookup_seq in Ey as [-> _].
    simpl in *. injection Hi as <-. injection Hj as <-. lia.
  - rewrite sign_all_counters. apply NoDup_fmap_2.
    + intros x y [=]. lia.
    + apply NoDup_seq.
Qed.

(** Two calls made against one and the same state return the same
    counter. *)
Lemma one_render_same_counter state a1 a2 t1 t2 :
  sign_twice_in_one_render state a1 a2 = [t1; t2] ->
  Token.counter (data t1) = Token.counter (data t2).
Proof.
  unfold sign_twice_in_one_render.
  destruct (signPaymentToken state a1) as [[[u1|] k1]|] eqn:E1;
    destruct (signPaymentToken state a2) as [[[u2|] k2]|] eqn:E2;
    try done.
  intros [= <- <-].
  apply signPaymentToken_token in E1 as [-> _].
  apply signPaymentToken_token in E2 as [-> _]. done.
Qed.

End General.

Import Checksum Demo.

Lemma sign_counters_increase_witness :
  (exists tok store',
     sign_once demo_wallet (demo_args 1000) = (Some tok, store')
     /\ Token.counter (data tok) = Some 0 /\ counter store' = 1)
  /\ counters (sign_all demo_wallet [demo_args 1000; demo_args 2000; demo_args 3000])
     = [Some 0; Some 1; Some 2].
Proof.
  destruct (sign_counters_increase demo_wallet []) as (H1 & _).
  split; [|reflexivity].
  destruct (sign_once demo_wallet (demo_args 1000)) as [[tok|] store'] eqn:E;
    [|discriminate E].
  exists tok, store'. destruct (H1 _ _ _ E) as [Hc Hs].
  split_and!; [reflexivity|exact Hc|exact Hs].
Defined.

(** The token carries the stored counter, not that counter plus one (the
    first token of a wallet carries 0); and two sign operations made from
    one render of the payment screen return the same counter. *)
Lemma counter_not_last_plus_one :
  (exists tok store',
     sign_once demo_wallet (demo_args 1000) = (Some tok, store')
     /\ Token.counter (data tok) = Some (counter demo_wallet)
     /\ Token.counter (data tok) <> Some (counter demo_wallet + 1))
  /\ counters (sign_twice_in_one_render demo_wallet (demo_args 1000) (demo_args 2000))
     = [Some 0; Some 0].
Proof.
  split; [|reflexivity].
  eexists _, _. split_and!; [reflexivity|reflexivity|discriminate].
Qed.

End WalletFacts.

(** ** Reconciliation *)

Module SyncFacts.
Import Backend.

(** *** Counting *)

#[local] Arguments count : simpl never.
#[local] Arguments responses : simpl never.

Lemma count_nil {A} (p : A -> bool) : count p [] = 0%nat.
Proof. reflexivity. Qed.

Lemma count_cons {A} (p : A -> bool) x l :
  count p (x :: l) = ((if p x then 1 else 0) + count p l)%nat.
Proof. unfold count. simpl. by destruct (p x). Qed.

Lemma count_app {A} (p : A -> bool) l1 l2 :
  count p (l1 ++ l2) = (count p l1 + count p l2)%nat.
Proof. unfold count. by rewrite List.filter_app, length_app. Qed.

Lemma count_delete {A} (p : A -> bool) l : forall i x,
  l !! i = Some x ->
  count p l = ((if p x then 1 else 0) + count p (delete i l))%nat.
Proof.
  induction l as [|y l IH]; intros [|i] x Hx; simplify_eq/=.
  - by rewrite count_cons.
  - rewrite !count_cons, (IH _ _ Hx). lia.
Qed.

Lemma count_zero_not_in {A} (p : A -> bool) l :
  (forall x, x ∈ l -> p x = false) -> count p l = 0%nat.
Proof.
  induction l as [|y l IH]; intros Hl; [done|].
  rewrite count_cons, Hl, IH; [done| |left]. intros x Hx. apply Hl. by right.
Qed.

Lemma count_selects p rid ts :
  (forall t, p (Select rid t) = false) ->
  count p (map (Select rid) ts) = 0%nat.
Proof.
  intros Hp. apply count_zero_not_in. intros x Hx.
  apply list_elem_of_fmap in Hx as (t & -> & _). apply Hp.
Qed.

(** *** What [sendResponse] and [finish] leave alone *)

Lemma sendResponse_db s rid : db (sendResponse s rid) = db s.
Proof. unfold sendResponse. by repeat case_match. Qed.

Lemma sendResponse_pool s rid : pool (sendResponse s rid) = pool s.
Proof. unfold sendResponse. by repeat case_match. Qed.

Lemma finish_db s rid f : db (finish s rid f) = db s.
Proof. unfold finish. case_match; [|done]. by rewrite sendResponse_db. Qed.

Lemma finish_pool s rid f : pool (finish s rid f) = pool s.
Proof. unfold finish. case_match; [|done]. by rewrite sendResponse_pool. Qed.

Lemma sendResponse_count p s rid :
  blind p -> count p (log (sendResponse s rid)) = count p (log s).
Proof.
  intros Hp. unfold sendResponse. repeat case_match; try done.
  simpl. by rewrite count_cons, Hp.
Qed.

Lemma finish_count p s rid f :
  blind p -> count p (log (finish s rid f)) = count p (log s).
Proof.
  intros Hp. unfold finish. case_match; [|done].
  by rewrite sendResponse_count.
Qed.

Lemma blind_inserted id : blind (is_inserted id).
Proof. done. Qed.
Lemma blind_debited id : blind (is_debited id).
Proof. done. Qed.
Lemma blind_credited id : blind (is_credited id).
Proof. done. Qed.

#[local] Hint Resolve blind_inserted blind_debited blind_credited : core.

(** *** One token id *)

Ltac norm :=
  simpl;
  repeat (first
    [ rewrite finish_db | rewrite finish_pool
    | rewrite finish_count by auto
    | rewrite count_cons | rewrite count_app | rewrite count_nil
    | rewrite count_selects by done ]; simpl).

Lemma id_inv_init d0 id : id_inv d0 (init d0) id.
Proof. unfold id_inv. simpl. norm. split_and!; try done; lia. Qed.

Lemma id_inv_exec d0 s a id : id_inv d0 s id -> id_inv d0 (exec s a) id.
Proof.
  intros (Hdom & Hnone & Hold & Hle & Hdeb & Hcre).
  destruct a as [body|i err]; simpl.
  - unfold submit. destruct body as [[|t ts]|]; unfold id_inv; simpl; norm;
      split_and!; try done; lia.
  - destruct (pool s !! i) as [op|] eqn:Hi; [|by unfold id_inv].
    pose proof (count_delete (is_debit_of id) _ _ _ Hi) as Dd.
    pose proof (count_delete (is_credit_of id) _ _ _ Hi) as Dc.
    destruct op as [rid t|rid t|t|t]; simpl in *.
    + (* SELECT *)
      repeat case_match; unfold id_inv; norm; split_and!; try done; lia.
    + (* INSERT *)
      destruct (err || bool_decide (is_Some (transactions (db s) !! txnId t)))
        eqn:E.
      { unfold id_inv; norm; split_and!; try done; lia. }
      apply orb_false_iff in E as [_ E]. apply bool_decide_eq_false in E.
      apply eq_None_not_Some in E.
      unfold id_inv; norm.
      destruct (decide (txnId t = id)) as [Heq|Hne].
      * rewrite Heq in *. rewrite !bool_decide_eq_true_2 by done.
        specialize (Hnone E).
        split_and!; try lia.
        -- intros k Hk. destruct (decide (id = k)) as [->|?].
           ++ rewrite lookup_insert_eq. eauto.
           ++ rewrite lookup_insert_ne by done. eauto.
        -- by rewrite lookup_insert_eq.
        -- intros Hk. apply Hdom in Hk. rewrite E in Hk. by destruct Hk.
      * rewrite !bool_decide_eq_false_2 by done.
        split_and!; try lia.
        -- intros k Hk. destruct (decide (txnId t = k)) as [->|?].
           ++ rewrite lookup_insert_eq. eauto.
           ++ rewrite lookup_insert_ne by done. eauto.
        -- rewrite lookup_insert_ne by done. simpl. exact Hnone.
        -- simpl. exact Hold.
    + (* UPDATE users *)
      destruct err; unfold id_inv; norm; split_and!; try done; try lia.
      all: destruct (bool_decide (txnId t = id)); lia.
    + (* UPDATE merchants *)
      destruct err; unfold id_inv; norm; split_and!; try done; try lia.
      all: destruct (bool_decide (txnId t = id)); lia.
Qed.

Lemma id_inv_exact_exec s a id :
  no_error a = true -> id_inv_exact s id -> id_inv_exact (exec s a) id.
Proof.
  intros Ha (Hdeb & Hcre).
  destruct a as [body|i err]; simpl.
  - unfold submit. destruct body as [[|t ts]|]; unfold id_inv_exact; norm; lia.
  - simpl in Ha. apply negb_true_iff in Ha as ->.
    destruct (pool s !! i) as [op|] eqn:Hi; [|by unfold id_inv_exact].
    pose proof (count_delete (is_debit_of id) _ _ _ Hi) as Dd.
    pose proof (count_delete (is_credit_of id) _ _ _ Hi) as Dc.
    destruct op as [rid t|rid t|t|t]; simpl in *.
    + repeat case_match; unfold id_inv_exact; norm; lia.
    + case_match; unfold id_inv_exact; norm;
        destruct (bool_decide (txnId t = id)); lia.
    + unfold id_inv_exact; norm. destruct (bool_decide (txnId t = id)); lia.
    + unfold id_inv_exact; norm. destruct (bool_decide (txnId t = id)); lia.
Qed.

Lemma id_inv_run d0 id sched : forall s,
  id_inv d0 s id -> id_inv d0 (run s sched) id.
Proof.
  induction sched as [|a sched IH]; intros s Hs; [done|].
  apply IH. by apply id_inv_exec.
Qed.

Lemma id_inv_exact_run id sched : forall s,
  forallb no_error sched = true ->
  id_inv_exact s id -> id_inv_exact (run s sched) id.
Proof.
  induction sched as [|a sched IH]; intros s Hs Hi; [done|].
  simpl in Hs. apply andb_true_iff in Hs as [Ha Hs].
  apply IH; [done|]. by apply id_inv_exact_exec.
Qed.

(** *** One invocation of the handler *)

Lemma finish_length s rid f : length (reqs (finish s rid f)) = length (reqs s).
Proof.
  unfold finish, sendResponse. repeat case_match; simpl;
    by rewrite ?length_insert.
Qed.

Lemma finish_reqs_ne s rid0 f rid :
  rid <> rid0 -> reqs (finish s rid0 f) !! rid = reqs s !! rid.
Proof.
  intros Hne. unfold finish, sendResponse. repeat case_match; simpl;
    by rewrite ?list_lookup_insert_ne by done.
Qed.

Lemma finish_responses_ne s rid0 f rid :
  rid <> rid0 -> responses rid (log (finish s rid0 f)) = responses rid (log s).
Proof.
  intros Hne. unfold finish, sendResponse. repeat case_match; simpl; try done.
  unfold responses. simpl. by rewrite bool_decide_eq_false_2.
Qed.

(** The outcome of [finish] for the invocation itself: the counters are
    those of [f r]; the response goes out exactly when they add up to the
    length of the batch and none has gone out. *)
Lemma finish_at s rid f r :
  reqs s !! rid = Some r ->
  let r1 := f r in
  if negb (responseSent r1) && (processed r1 + failed r1 =? len r1)%nat
  then reqs (finish s rid f) !! rid = Some (mark_sent r1)
       /\ log (finish s rid f) = Responded rid (reply_of r1) :: log s
  else reqs (finish s rid f) !! rid = Some r1
       /\ log (finish s rid f) = log s.
Proof.
  intros Hr r1. subst r1. unfold finish. rewrite Hr.
  apply lookup_lt_Some in Hr as Hlt.
  unfold sendResponse. simpl. rewrite list_lookup_insert_eq by done.
  case_match; simpl.
  - rewrite list_insert_insert_eq, list_lookup_insert_eq by done. done.
  - by rewrite list_lookup_insert_eq.
Qed.

(** A SELECT that finds the id recorded: the element is answered
    'duplicate' and the store is left as it was. *)
Lemma select_existing s i rid t r :
  pool s !! i = Some (Select rid t) ->
  is_Some (transactions (db s) !! txnId t) ->
  reqs s !! rid = Some r ->
  let s' := exec s (Complete i false) in
  db s' = db s
  /\ pool s' = delete i (pool s)
  /\ (exists r', reqs s' !! rid = Some r'
                /\ results r' = results r ++ [(txnId t, Duplicate)]
                /\ processed r' = processed r /\ failed r' = S (failed r))
  /\ (forall p, blind p -> count p (log s') = count p (log s)).
Proof.
  intros Hi [row Hrow] Hr s'. subst s'. simpl. rewrite Hi. simpl.
  rewrite Hrow. split_and!.
  - by rewrite finish_db.
  - by rewrite finish_pool.
  - match goal with |- context [finish ?s0 rid ?f] =>
      pose proof (finish_at s0 rid f r Hr) as Hf end.
    simpl in Hf. case_match; destruct Hf as [-> _]; eexists; split_and!; done.
  - intros p Hp. by rewrite finish_count.
Qed.

Lemma is_element_of_rid rid o :
  is_element_of rid o = true <-> op_rid o = Some rid.
Proof.
  destruct o; simpl; try done;
    rewrite bool_decide_eq_true; split; congruence.
Qed.

Lemma elem_of_delete_list {A} (l : list A) : forall i x,
  x ∈ delete i l -> x ∈ l.
Proof.
  induction l as [|y l IH]; intros [|i] x; simpl; try done.
  - by right.
  - intros [->|Hx]%elem_of_cons; [left|right]; eauto.
Qed.

Lemma responses_cons rid e l :
  responses rid (e :: l)
  = match response_of rid e with
    | Some x => x :: responses rid l
    | None => responses rid l
    end.
Proof. reflexivity. Qed.

Lemma req_inv_ext s s' rid r :
  count (is_element_of rid) (pool s') = count (is_element_of rid) (pool s) ->
  responses rid (log s') = responses rid (log s) ->
  req_inv s rid r -> req_inv s' rid r.
Proof. unfold req_inv. intros -> ->. done. Qed.

(** An invocation with a statement of its own in flight has not
    answered. *)
Lemma req_inv_pending s rid r :
  req_inv s rid r ->
  (0 < count (is_element_of rid) (pool s))%nat ->
  responseSent r = false /\ responses rid (log s) = [].
Proof.
  intros (Hc & _ & Hs & Hr) Hpos.
  destruct (responseSent r); [|done].
  destruct Hs as [Hs _]. specialize (Hs eq_refl). lia.
Qed.

Lemma finish_sys_inv s rid0 f r0 :
  (forall o rid, o ∈ pool s -> op_rid o = Some rid ->
                 (rid < length (reqs s))%nat) ->
  (forall rid, (length (reqs s) <= rid)%nat -> responses rid (log s) = []) ->
  (forall rid r, rid <> rid0 -> reqs s !! rid = Some r -> req_inv s rid r) ->
  reqs s !! rid0 = Some r0 ->
  (processed (f r0) + failed (f r0) + count (is_element_of rid0) (pool s)
   = len (f r0))%nat ->
  length (results (f r0)) = (processed (f r0) + failed (f r0))%nat ->
  responseSent (f r0) = false ->
  responses rid0 (log s) = [] ->
  sys_inv (finish s rid0 f).
Proof.
  intros HA HB HC Hr0 Hcnt Hres Hsent Hnone.
  apply lookup_lt_Some in Hr0 as Hlt.
  split_and!.
  - rewrite finish_pool, finish_length. exact HA.
  - rewrite finish_length. intros rid Hge.
    rewrite finish_responses_ne by lia. by apply HB.
  - intros rid r Hr. destruct (decide (rid = rid0)) as [->|Hne].
    + pose proof (finish_at s rid0 f r0 Hr0) as Hf. simpl in Hf.
      rewrite Hsent in Hf. simpl in Hf.
      destruct (processed (f r0) + failed (f r0) =? len (f r0))%nat eqn:E;
        destruct Hf as [Hreq Hlog]; rewrite Hreq in Hr; injection Hr as <-;
        unfold req_inv; rewrite finish_pool, Hlog.
      * apply Nat.eqb_eq in E. simpl. split_and!; try done.
        rewrite responses_cons. simpl. rewrite bool_decide_eq_true_2 by done.
        by rewrite Hnone.
      * apply Nat.eqb_neq in E. rewrite Hsent. split_and!; try done.
    + rewrite finish_reqs_ne in Hr by done.
      eapply req_inv_ext; [| |by apply HC].
      * by rewrite finish_pool.
      * by rewrite finish_responses_ne.
Qed.

Lemma sys_inv_init d : sys_inv (init d).
Proof. split_and!; simpl; try done. intros o rid Ho. by apply elem_of_nil in Ho. Qed.

Lemma sys_inv_submit s body : sys_inv s -> sys_inv (submit s body).
Proof.
  intros (HA & HB & HC).
  assert (Hfresh : forall rid, (length (reqs s) <= rid)%nat ->
                     count (is_element_of rid) (pool s) = 0%nat).
  { intros rid Hge. apply count_zero_not_in. intros o Ho.
    destruct (is_element_of rid o) eqn:E; [|done].
    apply is_element_of_rid in E. specialize (HA _ _ Ho E). lia. }
  destruct body as [ts|]; [|by split_and!].
  assert (Hold : forall ts' l' rid r,
            reqs s !! rid = Some r ->
            req_inv {| db := db s; reqs := l';
                       pool := pool s ++ map (Select (length (reqs s))) ts';
                       log := log s |} rid r).
  { intros ts' l' rid r Hr. apply lookup_lt_Some in Hr as Hlt.
    eapply req_inv_ext; [| |by apply HC]; simpl; [|done].
    rewrite count_app, count_selects; [lia|].
    intros t. simpl. apply bool_decide_eq_false_2. lia. }
  unfold submit. destruct ts as [|t ts].
  - (* the empty batch *)
    split_and!; simpl.
    + intros o rid Ho Hrid. rewrite length_app. simpl.
      specialize (HA _ _ Ho Hrid). lia.
    + intros rid. rewrite length_app. simpl. intros Hge.
      rewrite responses_cons. simpl.
      rewrite bool_decide_eq_false_2 by lia. apply HB. lia.
    + intros rid r Hr. apply lookup_app_Some in Hr as [Hr|[Hge Hr]].
      * apply lookup_lt_Some in Hr as Hlt.
        eapply req_inv_ext; [| |by apply HC]; simpl; [done|].
        rewrite responses_cons. simpl. by rewrite bool_decide_eq_false_2 by lia.
      * apply list_lookup_singleton_Some in Hr as [Hz <-].
        assert (rid = length (reqs s)) as -> by lia.
        unfold req_inv. simpl. rewrite Hfresh by done.
        split_and!; try done.
        rewrite responses_cons. simpl. rewrite bool_decide_eq_true_2 by done.
        by rewrite HB.
  - (* one SELECT per element *)
    split_and!; simpl.
    + intros o rid Ho Hrid. rewrite length_app. simpl.
      apply elem_of_app in Ho as [Ho|Ho].
      * specialize (HA _ _ Ho Hrid). lia.
      * change (Select (length (reqs s)) t :: map (Select (length (reqs s))) ts)
          with (map (Select (length (reqs s))) (t :: ts)) in Ho.
        apply list_elem_of_fmap in Ho as (t' & -> & _). simpl in Hrid.
        injection Hrid as <-. lia.
    + intros rid. rewrite length_app. simpl. intros Hge. apply HB. lia.
    + intros rid r Hr. apply lookup_app_Some in Hr as [Hr|[Hge Hr]].
      * apply (Hold (t :: ts)). done.
      * apply list_lookup_singleton_Some in Hr as [Hz <-].
        assert (rid = length (reqs s)) as -> by lia.
        unfold req_inv. simpl.
        change (Select (length (reqs s)) t :: map (Select (length (reqs s))) ts)
          with (map (Select (length (reqs s))) (t :: ts)).
        rewrite count_app, Hfresh by done.
        split_and!; try done.
        -- unfold count. rewrite List.forallb_filter_id, length_map; [done|].
           apply forallb_forall. intros o Ho. apply in_map_iff in Ho as (t' & <- & _).
           simpl. by apply bool_decide_eq_true_2.
        -- by apply HB.
Qed.

(** The premises of [finish_sys_inv] once a statement of invocation [rid0]
    has been taken out of the pool and [extra] statements of no invocation
    have been issued. *)
Lemma sys_inv_taken s i o rid0 d l extra f :
  sys_inv s ->
  pool s !! i = Some o ->
  op_rid o = Some rid0 ->
  (forall x, x ∈ extra -> op_rid x = None) ->
  (forall rid, responses rid l = responses rid (log s)) ->
  (forall r, len (f r) = len r /\ responseSent (f r) = responseSent r
             /\ (processed (f r) + failed (f r) = S (processed r + failed r))%nat
             /\ length (results (f r)) = S (length (results r))) ->
  sys_inv (finish {| db := d; reqs := reqs s;
                     pool := delete i (pool s) ++ extra; log := l |} rid0 f).
Proof.
  intros (HA & HB & HC) Hi Ho Hextra Hl Hf.
  assert (Hin : o ∈ pool s) by (eapply list_elem_of_lookup_2; eauto).
  pose proof (HA _ _ Hin Ho) as Hlt.
  destruct (lookup_lt_is_Some_2 _ _ Hlt) as [r0 Hr0].
  assert (Hextra0 : forall rid, count (is_element_of rid) extra = 0%nat).
  { intros rid. apply count_zero_not_in. intros x Hx.
    destruct (is_element_of rid x) eqn:E; [|done].
    apply is_element_of_rid in E. by rewrite (Hextra _ Hx) in E. }
  pose proof (HC _ _ Hr0) as Hinv0.
  pose proof (count_delete (is_element_of rid0) _ _ _ Hi) as Hdel.
  assert (is_element_of rid0 o = true) as Hel by by apply is_element_of_rid.
  rewrite Hel in Hdel.
  destruct (req_inv_pending _ _ _ Hinv0) as [Hsent Hnone]; [lia|].
  destruct Hinv0 as (Hc & Hres & _ & _).
  destruct (Hf r0) as (Hlen & Hs & Hpf & Hrs).
  eapply finish_sys_inv with (r0 := r0); simpl; try done.
  - intros x rid [Hx|Hx]%elem_of_app Hrid.
    + apply elem_of_delete_list in Hx. eauto.
    + by rewrite (Hextra _ Hx) in Hrid.
  - intros rid Hge. rewrite Hl. by apply HB.
  - intros rid r Hne Hr. eapply req_inv_ext; [| |by apply HC]; simpl; [|done].
    rewrite count_app, Hextra0.
    pose proof (count_delete (is_element_of rid) _ _ _ Hi) as Hd.
    destruct (is_element_of rid o) eqn:E; [|lia].
    apply is_element_of_rid in E. congruence.
  - rewrite count_app, Hextra0. lia.
  - lia.
  - congruence.
  - by rewrite Hl.
Qed.

Lemma count_failed_shape id st r :
  len (count_failed r id st) = len r
  /\ responseSent (count_failed r id st) = responseSent r
  /\ (processed (count_failed r id st) + failed (count_failed r id st)
      = S (processed r + failed r))%nat
  /\ length (results (count_failed r id st)) = S (length (results r)).
Proof. simpl. rewrite length_app. simpl. split_and!; try done; lia. Qed.

Lemma count_processed_shape id st r :
  len (count_processed r id st) = len r
  /\ responseSent (count_processed r id st) = responseSent r
  /\ (processed (count_processed r id st) + failed (count_processed r id st)
      = S (processed r + failed r))%nat
  /\ length (results (count_processed r id st)) = S (length (results r)).
Proof. simpl. rewrite length_app. simpl. split_and!; try done; lia. Qed.

(** A state that differs from [s] by one statement of no invocation taken
    out of the pool and by events that are no responses. *)
Lemma sys_inv_update s i o d l :
  sys_inv s ->
  pool s !! i = Some o ->
  op_rid o = None ->
  (forall rid, responses rid l = responses rid (log s)) ->
  sys_inv {| db := d; reqs := reqs s; pool := delete i (pool s); log := l |}.
Proof.
  intros (HA & HB & HC) Hi Ho Hl. split_and!; simpl.
  - intros x rid Hx. apply elem_of_delete_list in Hx. eauto.
  - intros rid Hge. rewrite Hl. by apply HB.
  - intros rid r Hr. eapply req_inv_ext; [| |by apply HC]; simpl; [|done].
    pose proof (count_delete (is_element_of rid) _ _ _ Hi) as Hd.
    destruct (is_element_of rid o) eqn:E; [|lia].
    apply is_element_of_rid in E. congruence.
Qed.

Lemma sys_inv_exec s a : sys_inv s -> sys_inv (exec s a).
Proof.
  intros Hs. destruct a as [body|i err]; simpl; [by apply sys_inv_submit|].
  destruct (pool s !! i) as [o|] eqn:Hi; [|done].
  destruct o as [rid t|rid t|t|t]; simpl.
  - (* SELECT *)
    set (f1 := fun r => count_failed r (txnId t) Duplicate).
    set (f2 := fun r => count_failed r (txnId t) AmountExceeded).
    pose proof (sys_inv_taken s i _ rid (db s) (log s) [] f1 Hs Hi eq_refl) as H1.
    pose proof (sys_inv_taken s i _ rid (db s) (log s) [] f2 Hs Hi eq_refl) as H2.
    rewrite app_nil_r in H1, H2.
    assert (Hissue : sys_inv (issue {| db := db s; reqs := reqs s;
                                       pool := delete i (pool s);
                                       log := log s |} [Insert rid t])).
    { (* the INSERT is issued for the same invocation *)
      destruct Hs as (HA & HB & HC).
      assert (Hin : Select rid t ∈ pool s) by (eapply list_elem_of_lookup_2; eauto).
      split_and!; simpl.
      * intros x rid' [Hx|Hx]%elem_of_app Hrid.
        -- apply elem_of_delete_list in Hx. eauto.
        -- apply list_elem_of_singleton in Hx as ->. simpl in Hrid.
           injection Hrid as <-. by apply (HA _ _ Hin).
      * done.
      * intros rid' r Hr. eapply req_inv_ext; [| |by apply HC]; simpl; [|done].
        rewrite count_app, count_cons, count_nil.
        rewrite (count_delete (is_element_of rid') _ _ _ Hi). simpl. lia. }
    assert (G1 : sys_inv (finish {| db := db s; reqs := reqs s;
                                    pool := delete i (pool s);
                                    log := log s |} rid f1)).
    { apply H1; [by intros x Hx%elem_of_nil|done|].
      intros r. apply count_failed_shape. }
    assert (G2 : sys_inv (finish {| db := db s; reqs := reqs s;
                                    pool := delete i (pool s);
                                    log := log s |} rid f2)).
    { apply H2; [by intros x Hx%elem_of_nil|done|].
      intros r. apply count_failed_shape. }
    repeat case_match; done.
  - (* INSERT *)
    case_match.
    + pose proof (sys_inv_taken s i _ rid (db s) (log s) []
                    (fun r => count_failed r (txnId t) Error) Hs Hi eq_refl) as H1.
      rewrite app_nil_r in H1.
      apply H1; [by intros x Hx%elem_of_nil|done|].
      intros r. apply count_failed_shape.
    + apply (sys_inv_taken s i (Insert rid t) rid); try done.
      * intros x Hx. apply elem_of_cons in Hx as [->|Hx]; [done|].
        by apply list_elem_of_singleton in Hx as ->.
      * intros r. apply count_processed_shape.
  - (* UPDATE users *)
    destruct err; unfold emit, set_db; simpl;
      by apply (sys_inv_update s i (UpdateUser t)).
  - (* UPDATE merchants *)
    destruct err; unfold emit, set_db; simpl;
      by apply (sys_inv_update s i (UpdateMerchant t)).
Qed.

Lemma sys_inv_run sched : forall s, sys_inv s -> sys_inv (run s sched).
Proof.
  induction sched as [|a sched IH]; intros s Hs; [done|].
  apply IH. by apply sys_inv_exec.
Qed.




(** *** Statements in flight drain *)





(** *** Main results *)

(** C1. Whatever batches are submitted and in whatever order the
    statements complete, for every token id: the record of that id is
    inserted at most once, and never when the store already held it; the
    debit and the credit of that id are executed at most once each and only
    for an inserted record, and exactly once each for an inserted record
    once no statement is in flight and none has failed on the storage; and
    an element whose id the SELECT finds recorded is answered 'duplicate'
    and leaves the store, balances included, as it was. *)
Theorem reconciliation_idempotent (d0 : Db) (sched : list Action) (id : string) :
  let s := run (init d0) sched in
  (count (is_inserted id) (log s) <= 1)%nat
  /\ (count (is_debited id) (log s) <= count (is_inserted id) (log s))%nat
  /\ (count (is_credited id) (log s) <= count (is_inserted id) (log s))%nat
  /\ (forallb no_error sched = true -> quiescent s ->
        count (is_debited id) (log s) = count (is_inserted id) (log s)
        /\ count (is_credited id) (log s) = count (is_inserted id) (log s))
  /\ (is_Some (transactions d0 !! id) ->
        count (is_inserted id) (log s) = 0%nat
        /\ count (is_debited id) (log s) = 0%nat
        /\ count (is_credited id) (log s) = 0%nat)
  /\ (forall i rid t r,
        txnId t = id ->
        pool s !! i = Some (Select rid t) ->
        is_Some (transactions (db s) !! id) ->
        reqs s !! rid = Some r ->
        let s' := exec s (Complete i false) in
        db s' = db s
        /\ (exists r', reqs s' !! rid = Some r'
                      /\ results r' = results r ++ [(id, Duplicate)])
        /\ count (is_inserted id) (log s') = count (is_inserted id) (log s)
        /\ count (is_debited id) (log s') = count (is_debited id) (log s)
        /\ count (is_credited id) (log s') = count (is_credited id) (log s)).
Proof.
  intros s.
  pose proof (id_inv_run d0 id sched _ (id_inv_init d0 id))
    as (Hdom & Hnone & Hold & Hle & Hdeb & Hcre).
  fold s in Hdom, Hnone, Hold, Hle, Hdeb, Hcre.
  split_and!; try lia.
  - intros Hne Hq.
    assert (E0 : id_inv_exact (init d0) id) by (by unfold id_inv_exact; norm).
    pose proof (id_inv_exact_run id sched _ Hne E0) as [E1 E2].
    fold s in E1, E2. rewrite Hq in E1, E2. rewrite count_nil in E1, E2. lia.
  - intros Hin. specialize (Hold Hin). lia.
  - intros i rid t r <- Hi Hex Hr s'.
    destruct (select_existing s i rid t r Hi Hex Hr) as (Hdb & _ & Hres & Hcnt).
    fold s' in Hdb, Hres, Hcnt.
    destruct Hres as (r' & Hr' & Hres & _).
    split_and!; eauto.
Qed.

Import Demo.

Lemma reconciliation_idempotent_witness :
  let s := run (init demo_db) twice in
  count (is_inserted "T1") (log s) = 1%nat
  /\ count (is_debited "T1") (log s) = count (is_inserted "T1") (log s)
  /\ count (is_credited "T1") (log s) = count (is_inserted "T1") (log s)
  /\ responses 0 (log s) = [SyncReply 1 0 [("T1", Success)]]
  /\ responses 1 (log s) = [SyncReply 0 1 [("T1", Duplicate)]]
  /\ offline_balance <$> users (db s) !! "9800000001" = Some 1700
  /\ merchants (db s) !! "M1" = Some 100.
Proof.
  intros s.
  destruct (reconciliation_idempotent demo_db twice "T1")
    as (_ & _ & _ & Hexact & _).
  destruct (Hexact eq_refl eq_refl) as [Hd Hc].
  split_and!; [reflexivity|exact Hd|exact Hc|reflexivity..].
Defined.



(** Why the schedules are those the process lives through: with the
    UPDATEs of T1 in flight and the request holding T2 not answered yet, a
    failure of the UPDATE of [users] is a step the process exits on, and
    the second request has no response then. *)
Lemma exit_leaves_request_unanswered :
  let s := run (init demo_db) Examples.updates_in_flight in
  pool s = [UpdateUser (demo_txn "T1" 5 "c2ln");
            UpdateMerchant (demo_txn "T1" 5 "c2ln");
            Select 1 (demo_txn "T2" 6 "c2ln")]
  /\ exits s (Complete 0 true) = true
  /\ survives (init demo_db) (Examples.updates_in_flight ++ [Complete 0 true])
     = false
  /\ responses 1 (log s) = [].
Proof. split_and!; reflexivity. Qed.

(** C2. The handler never looks at [signature] nor at the [public_key]
    registered for the payer: an element whose id is not recorded and whose
    amount is within the cap is completed whatever its signature is, the
    record inserted, the payer debited and the payee credited. *)
Theorem unverified_signature_completed (sig : string) :
  let s := run (init demo_db) (Submit (Some [demo_txn "T1" 5 sig]) :: in_order) in
  responses 0 (log s) = [SyncReply 1 0 [("T1", Success)]]
  /\ transactions (db s) !! "T1" = Some (row_of (demo_txn "T1" 5 sig))
  /\ offline_balance <$> users (db s) !! "9800000001" = Some 1700
  /\ merchants (db s) !! "M1" = Some 100.
Proof. split_and!; reflexivity. Qed.

(** C5. The record, the debit and the credit are three statements, each on
    its own, and no counter is kept for the payer: when the UPDATE of
    [users] fails after the INSERT has succeeded, the record stays, the
    payee is credited, the payer is not debited, and the element is
    reported as a success; and once the INSERT has completed the record is
    there and the success is answered while both UPDATEs are still in
    flight. *)
Theorem partial_state_after_failed_debit :
  (let s := run (init demo_db) debit_fails in
   quiescent s
   /\ responses 0 (log s) = [SyncReply 1 0 [("T1", Success)]]
   /\ status <$> transactions (db s) !! "T1" = Some "completed"
   /\ offline_balance <$> users (db s) !! "9800000001" = Some 1800
   /\ merchants (db s) !! "M1" = Some 100)
  /\ (let s := run (init demo_db) insert_done in
      pool s = [UpdateUser (demo_txn "T1" 5 "c2ln");
                UpdateMerchant (demo_txn "T1" 5 "c2ln")]
      /\ responses 0 (log s) = [SyncReply 1 0 [("T1", Success)]]
      /\ status <$> transactions (db s) !! "T1" = Some "completed"
      /\ offline_balance <$> users (db s) !! "9800000001" = Some 1800
      /\ merchants (db s) !! "M1" = Some 0).
Proof. split; split_and!; reflexivity. Qed.

(** The same id twice in one batch: neither SELECT finds it, the second
    INSERT fails on the primary key, and that element is answered 'error';
    the balances change once. *)
Lemma same_batch_twice_error :
  let s := run (init demo_db) same_batch_twice in
  quiescent s
  /\ responses 0 (log s) = [SyncReply 1 1 [("T1", Success); ("T1", Error)]]
  /\ offline_balance <$> users (db s) !! "9800000001" = Some 1700
  /\ merchants (db s) !! "M1" = Some 100.
Proof. split_and!; reflexivity. Qed.

End SyncFacts.

(** ** Replayed counters *)

Module ReplayFacts.
Import Token Checksum Demo.

(** C3. Neither acceptance point keeps the counters of a payer strictly
    increasing. On the payee side a recorded counter of 0 reads as no
    counter at all, so the first token of a wallet is accepted again after
    it has been recorded. On the server no counter is compared: a token
    with counter 4 is completed after one with counter 5 of the same
    payer. *)
Theorem replayed_counter_accepted :
  (let st := Merchant.record_counter Merchant.initialState first_token in
   Merchant.lastCounter st !! "9800000001" = Some (Some 0)
   /\ counter (data first_token) = Some 0
   /\ Merchant.signature_verifies first_token
   /\ Merchant.verifyPaymentToken st 2000 (Some first_token) = Merchant.accept)
  /\ (let s := Backend.run (Backend.init demo_db) counter_5_then_4 in
      Backend.responses 0 (Backend.log s)
      = [Backend.SyncReply 1 0 [("T5", Backend.Success)]]
      /\ Backend.responses 1 (Backend.log s)
         = [Backend.SyncReply 1 0 [("T4", Backend.Success)]]
      /\ Backend.counter <$> Backend.transactions (Backend.db s) !! "T5" = Some 5
      /\ Backend.counter <$> Backend.transactions (Backend.db s) !! "T4" = Some 4
      /\ Backend.merchants (Backend.db s) !! "M1" = Some 200).
Proof. split; split_and!; reflexivity. Qed.

End ReplayFacts.

(** ** The ledger under reconciliation *)

Module LedgerFacts.
Import Backend Ledger SyncFacts.

#[local] Arguments count : simpl never.
#[local] Arguments sumZ : simpl never.

Lemma sumZ_nil {A} (f : A -> Z) : sumZ f [] = 0.
Proof. reflexivity. Qed.

Lemma sumZ_cons {A} (f : A -> Z) x l : sumZ f (x :: l) = f x + sumZ f l.
Proof. reflexivity. Qed.

Ltac sys_simpl :=
  simpl; rewrite ?finish_db, ?finish_pool; simpl.

Lemma records_inv_exec d0 s a : records_inv d0 s -> records_inv d0 (exec s a).
Proof.
  intros (Hkeep & Hnew & Hcap).
  destruct a as [body|i err]; simpl.
  - unfold submit. destruct body as [[|t ts]|]; split_and!; simpl; try done.
    intros rid t' [Hin|Hin]%elem_of_app; [eauto|].
    change (Select (length (reqs s)) t :: map (Select (length (reqs s))) ts)
      with (map (Select (length (reqs s))) (t :: ts)) in Hin.
    by apply list_elem_of_fmap in Hin as (? & ? & _).
  - destruct (pool s !! i) as [o|] eqn:Hi; [|done].
    assert (Hsub : forall x, x ∈ delete i (pool s) -> x ∈ pool s)
      by (intros x; apply elem_of_delete_list).
    assert (Ho : o ∈ pool s) by (eapply list_elem_of_lookup_2; eauto).
    destruct o as [rid t|rid t|t|t]; simpl.
    + destruct (if err then None else transactions (db s) !! txnId t);
        [|destruct (t_amount t >? 500) eqn:E];
        split_and!; sys_simpl; eauto.
      intros rid' t' [Hin|Hin]%elem_of_app; [eauto|].
      apply list_elem_of_singleton in Hin. injection Hin as -> ->.
      rewrite Z.gtb_ltb in E. apply Z.ltb_ge in E. done.
    + destruct (err || bool_decide (is_Some (transactions (db s) !! txnId t)))
        eqn:E; [split_and!; sys_simpl; eauto|].
      apply orb_false_iff in E as [_ E]. apply bool_decide_eq_false in E.
      apply eq_None_not_Some in E.
      split_and!; sys_simpl.
      * intros id row Hrow. rewrite lookup_insert_ne; [eauto|].
        intros <-. apply Hkeep in Hrow. congruence.
      * intros id row. destruct (decide (txnId t = id)) as [<-|Hne].
        -- rewrite lookup_insert_eq. intros [= <-]. right. simpl.
           split; [|done]. by apply (Hcap rid).
        -- rewrite lookup_insert_ne by done. eauto.
      * intros rid' t' [Hin|Hin]%elem_of_app; [eauto|].
        apply elem_of_cons in Hin as [Hin|Hin]; [done|].
        by apply list_elem_of_singleton in Hin.
    + destruct err; split_and!; simpl; eauto.
    + destruct err; split_and!; simpl; eauto.
Qed.

Lemma records_inv_run d0 sched : forall s,
  records_inv d0 s -> records_inv d0 (run s sched).
Proof.
  induction sched as [|a sched IH]; intros s Hs; [done|].
  apply IH. by apply records_inv_exec.
Qed.

Lemma accounts_inv_exec d0 s a : accounts_inv d0 s -> accounts_inv d0 (exec s a).
Proof.
  intros (Hu & Hm).
  destruct a as [body|i err]; simpl.
  - unfold submit. by destruct body as [[|t ts]|].
  - destruct (pool s !! i) as [o|] eqn:Hi; [|done].
    destruct o as [rid t|rid t|t|t]; simpl.
    + repeat case_match; split; sys_simpl; done.
    + case_match; split; sys_simpl; done.
    + destruct err; [done|]. split; simpl; [|done].
      intros phone. specialize (Hu phone).
      destruct (decide (fromPhone t = phone)) as [<-|Hne].
      * rewrite lookup_alter_eq.
        destruct (users d0 !! fromPhone t) as [u0|].
        -- destruct Hu as (u & -> & Hb & Hk). simpl. eauto.
        -- by rewrite Hu.
      * by rewrite lookup_alter_ne.
    + destruct err; [done|]. split; simpl; [done|].
      intros mid. by rewrite lookup_alter_is_Some.
Qed.

Lemma accounts_inv_run d0 sched : forall s,
  accounts_inv d0 s -> accounts_inv d0 (run s sched).
Proof.
  induction sched as [|a sched IH]; intros s Hs; [done|].
  apply IH. by apply accounts_inv_exec.
Qed.

(** X1. Reconciliation never rewrites or removes a record: every record
    of the start is there unchanged after any run, and every record the
    run has added is within the cap of 500 and has status completed. *)
Theorem records_kept_and_capped (d0 : Db) (sched : list Action) :
  let s := run (init d0) sched in
  (forall id row, transactions d0 !! id = Some row ->
                  transactions (db s) !! id = Some row)
  /\ (forall id row, transactions (db s) !! id = Some row ->
        transactions d0 !! id = None ->
        amount row <= 500 /\ status row = "completed").
Proof.
  intros s.
  assert (H0 : records_inv d0 (init d0)).
  { split_and!; simpl; eauto. intros rid t Hin. by apply elem_of_nil in Hin. }
  destruct (records_inv_run d0 sched _ H0) as (Hkeep & Hnew & _).
  split; [exact Hkeep|].
  intros id row Hrow Hnone. destruct (Hnew _ _ Hrow) as [Hold|?]; [|done].
  congruence.
Qed.

(** X2. Reconciliation opens and closes no account and moves nothing but
    the offline balance of a user and the balance of a merchant: after any
    run, storage errors included, the users are those of the start with
    their main balance and public key as they were, and the merchants are
    those of the start. *)
Theorem accounts_untouched (d0 : Db) (sched : list Action) :
  let s := run (init d0) sched in
  (forall phone, users d0 !! phone = None -> users (db s) !! phone = None)
  /\ (forall phone u0, users d0 !! phone = Some u0 ->
        exists u, users (db s) !! phone = Some u
                  /\ balance u = balance u0 /\ public_key u = public_key u0)
  /\ (forall mid, is_Some (merchants (db s) !! mid)
                  <-> is_Some (merchants d0 !! mid)).
Proof.
  intros s.
  assert (H0 : accounts_inv d0 (init d0)).
  { split; simpl; [|done]. intros phone. destruct (users d0 !! phone); eauto. }
  destruct (accounts_inv_run d0 sched _ H0) as (Hu & Hm).
  split_and!; [| |exact Hm].
  - intros phone Hn. specialize (Hu phone). by rewrite Hn in Hu.
  - intros phone u0 Hs. specialize (Hu phone). by rewrite Hs in Hu.
Qed.

(** *** Balances against records *)

Lemma paid_by_insert phone m id r :
  m !! id = None ->
  paid_by phone (<[id := r]> m)
  = (if bool_decide (from_phone r = phone) then amount r else 0) + paid_by phone m.
Proof.
  intros Hn. unfold paid_by. rewrite map_fold_insert_L; [|intros|done].
  - case_bool_decide; lia.
  - repeat case_bool_decide; lia.
Qed.

Lemma paid_to_insert mid m id r :
  m !! id = None ->
  paid_to mid (<[id := r]> m)
  = (if bool_decide (to_merchant r = mid) then amount r else 0) + paid_to mid m.
Proof.
  intros Hn. unfold paid_to. rewrite map_fold_insert_L; [|intros|done].
  - case_bool_decide; lia.
  - repeat case_bool_decide; lia.
Qed.

Lemma sumZ_app {A} (f : A -> Z) l1 l2 :
  sumZ f (l1 ++ l2) = sumZ f l1 + sumZ f l2.
Proof.
  induction l1 as [|x l1 IH]; [by rewrite sumZ_nil|].
  simpl. rewrite !sumZ_cons, IH. lia.
Qed.

Lemma sumZ_delete {A} (f : A -> Z) l : forall i x,
  l !! i = Some x -> sumZ f l = f x + sumZ f (delete i l).
Proof.
  induction l as [|y l IH]; intros [|i] x Hx; simplify_eq/=; [done|].
  rewrite !sumZ_cons, (IH _ _ Hx). lia.
Qed.

Lemma sumZ_selects f rid ts :
  (forall t, f (Select rid t) = 0) -> sumZ f (map (Select rid) ts) = 0.
Proof.
  intros Hf. induction ts as [|t ts IH]; simpl; [done|].
  by rewrite sumZ_cons, Hf, IH.
Qed.

Lemma ledger_inv_exec d0 s a :
  no_error a = true -> ledger_inv d0 s -> ledger_inv d0 (exec s a).
Proof.
  intros Ha (Hu & Hm).
  destruct a as [body|i err]; simpl.
  - unfold submit. destruct body as [[|t ts]|]; try done.
    split; simpl; intros k x0 x H0 H1; rewrite sumZ_app;
      change (Select (length (reqs s)) t :: map (Select (length (reqs s))) ts)
        with (map (Select (length (reqs s))) (t :: ts));
      rewrite sumZ_selects by done; rewrite Z.add_0_r; eauto.
  - simpl in Ha. apply negb_true_iff in Ha as ->.
    destruct (pool s !! i) as [o|] eqn:Hi; [|done].
    pose proof (fun k => sumZ_delete (debit_due k) _ _ _ Hi) as Dd.
    pose proof (fun k => sumZ_delete (credit_due k) _ _ _ Hi) as Dc.
    destruct o as [rid t|rid t|t|t]; simpl in *.
    + split; intros k x0 x H0 H1;
        [specialize (Hu k x0 x); rewrite Dd in Hu
        |specialize (Hm k x0 x); rewrite Dc in Hm];
        repeat case_match; sys_simpl; sys_simpl;
        rewrite ?finish_db in H1; simpl in H1;
        rewrite ?sumZ_app; simpl; rewrite ?Z.add_0_r; eauto.
    + destruct (bool_decide (is_Some (transactions (db s) !! txnId t))) eqn:E.
      { split; intros k x0 x H0 H1;
          [specialize (Hu k x0 x); rewrite Dd in Hu
          |specialize (Hm k x0 x); rewrite Dc in Hm];
          sys_simpl; rewrite ?finish_db in H1; simpl in H1; eauto. }
      apply bool_decide_eq_false in E. apply eq_None_not_Some in E.
      split; intros k x0 x H0 H1; rewrite finish_db in H1; simpl in H1;
        sys_simpl; rewrite !sumZ_app; simpl.
      * rewrite (paid_by_insert _ _ _ _ E). simpl.
        specialize (Hu k x0 x H0 H1). rewrite Dd in Hu. simpl in Hu.
        rewrite !sumZ_cons, sumZ_nil. simpl.
        case_bool_decide; lia.
      * rewrite (paid_to_insert _ _ _ _ E). simpl.
        specialize (Hm k x0 x H0 H1). rewrite Dc in Hm. simpl in Hm.
        rewrite !sumZ_cons, sumZ_nil. simpl.
        case_bool_decide; lia.
    + split; simpl; intros k x0 x H0 H1.
      * destruct (decide (fromPhone t = k)) as [<-|Hne].
        -- rewrite lookup_alter_eq in H1.
           destruct (users (db s) !! fromPhone t) as [u|] eqn:Eu; [|done].
           simpl in H1. injection H1 as <-. simpl.
           specialize (Hu _ _ _ H0 Eu). rewrite Dd in Hu. simpl in Hu.
           rewrite bool_decide_eq_true_2 in Hu by done. lia.
        -- rewrite lookup_alter_ne in H1 by done.
           specialize (Hu _ _ _ H0 H1). rewrite Dd in Hu. simpl in Hu.
           rewrite bool_decide_eq_false_2 in Hu by done. lia.
      * specialize (Hm _ _ _ H0 H1). rewrite Dc in Hm. simpl in Hm. lia.
    + split; simpl; intros k x0 x H0 H1.
      * specialize (Hu _ _ _ H0 H1). rewrite Dd in Hu. simpl in Hu. lia.
      * destruct (decide (toMerchant t = k)) as [<-|Hne].
        -- rewrite lookup_alter_eq in H1.
           destruct (merchants (db s) !! toMerchant t) as [b|] eqn:Eb; [|done].
           simpl in H1. injection H1 as <-.
           specialize (Hm _ _ _ H0 Eb). rewrite Dc in Hm. simpl in Hm.
           rewrite bool_decide_eq_true_2 in Hm by done. lia.
        -- rewrite lookup_alter_ne in H1 by done.
           specialize (Hm _ _ _ H0 H1). rewrite Dc in Hm. simpl in Hm.
           rewrite bool_decide_eq_false_2 in Hm by done. lia.
Qed.

Lemma ledger_inv_run d0 sched : forall s,
  forallb no_error sched = true ->
  ledger_inv d0 s -> ledger_inv d0 (run s sched).
Proof.
  induction sched as [|a sched IH]; intros s Hs Hi; [done|].
  simpl in Hs. apply andb_true_iff in Hs as [Ha Hs].
  apply IH; [done|]. by apply ledger_inv_exec.
Qed.

(** *** The balances stay in range *)

Lemma sumZ_nonneg {A} (f : A -> Z) l : (forall x, 0 <= f x) -> 0 <= sumZ f l.
Proof.
  intros Hf. induction l as [|x l IH]; [by rewrite sumZ_nil|].
  rewrite sumZ_cons. specialize (Hf x). lia.
Qed.

Lemma user_due_nonneg o : 0 <= user_due o.
Proof. destruct o; simpl; lia. Qed.

Lemma merchant_due_nonneg o : 0 <= merchant_due o.
Proof. destruct o; simpl; lia. Qed.

Lemma submitted_nonneg a : 0 <= submitted a.
Proof.
  destruct a as [[ts|]|]; simpl; try lia.
  apply sumZ_nonneg. intros t. lia.
Qed.

Lemma sumZ_selects_due f rid ts :
  (forall t, f (Select rid t) = Z.abs (t_amount t)) ->
  sumZ f (map (Select rid) ts) = amounts ts.
Proof.
  intros Hf. unfold amounts. induction ts as [|t ts IH]; [done|].
  simpl. by rewrite !sumZ_cons, Hf, IH.
Qed.

Lemma range_inv_exec d0 v s a :
  range_inv d0 v s -> range_inv d0 (v + submitted a) (exec s a).
Proof.
  intros (Hu & Hm).
  destruct a as [body|i err]; simpl.
  - unfold submit. destruct body as [[|t ts]|]; simpl.
    + split; intros k x0 x H0 H1; [specialize (Hu k x0 x H0 H1)
                                  |specialize (Hm k x0 x H0 H1)];
        cbn [pool db] in *; unfold amounts; rewrite sumZ_nil; lia.
    + split; intros k x0 x H0 H1; cbn [pool db] in *; rewrite sumZ_app;
        change (Select (length (reqs s)) t :: map (Select (length (reqs s))) ts)
          with (map (Select (length (reqs s))) (t :: ts));
        rewrite sumZ_selects_due by done;
        [specialize (Hu k x0 x H0 H1)|specialize (Hm k x0 x H0 H1)]; lia.
    + split; intros k x0 x H0 H1; [specialize (Hu k x0 x H0 H1)
                                  |specialize (Hm k x0 x H0 H1)];
        cbn [pool db emit] in *; lia.
  - rewrite Z.add_0_r.
    destruct (pool s !! i) as [o|] eqn:Hi; [|done].
    pose proof (sumZ_delete user_due _ _ _ Hi) as Dd.
    pose proof (sumZ_delete merchant_due _ _ _ Hi) as Dc.
    pose proof (user_due_nonneg o) as Nd.
    pose proof (merchant_due_nonneg o) as Nc.
    destruct o as [rid t|rid t|t|t]; simpl in *.
    + split; intros k x0 x H0 H1.
      * specialize (Hu k x0 x).
        repeat case_match; sys_simpl; sys_simpl;
          rewrite ?finish_db in H1; simpl in H1;
          rewrite ?sumZ_app, ?sumZ_cons, ?sumZ_nil; simpl;
          specialize (Hu H0 H1); lia.
      * specialize (Hm k x0 x).
        repeat case_match; sys_simpl; sys_simpl;
          rewrite ?finish_db in H1; simpl in H1;
          rewrite ?sumZ_app, ?sumZ_cons, ?sumZ_nil; simpl;
          specialize (Hm H0 H1); lia.
    + destruct (err || bool_decide (is_Some (transactions (db s) !! txnId t))).
      { split; intros k x0 x H0 H1;
          [specialize (Hu k x0 x)|specialize (Hm k x0 x)];
          sys_simpl; rewrite ?finish_db in H1; simpl in H1;
          [specialize (Hu H0 H1)|specialize (Hm H0 H1)]; lia. }
      split; intros k x0 x H0 H1; rewrite finish_db in H1; simpl in H1;
        sys_simpl; rewrite !sumZ_app, !sumZ_cons, sumZ_nil; simpl;
        [specialize (Hu k x0 x H0 H1)|specialize (Hm k x0 x H0 H1)]; lia.
    + destruct err; simpl.
      { split; intros k x0 x H0 H1;
          [specialize (Hu k x0 x H0 H1)|specialize (Hm k x0 x H0 H1)];
          cbn [pool db] in *; lia. }
      split; simpl; intros k x0 x H0 H1.
      * destruct (decide (fromPhone t = k)) as [<-|Hne].
        -- rewrite lookup_alter_eq in H1.
           destruct (users (db s) !! fromPhone t) as [u|] eqn:Eu; [|done].
           simpl in H1. injection H1 as <-. simpl.
           specialize (Hu _ _ _ H0 Eu). lia.
        -- rewrite lookup_alter_ne in H1 by done.
           specialize (Hu _ _ _ H0 H1). lia.
      * specialize (Hm _ _ _ H0 H1). lia.
    + destruct err; simpl.
      { split; intros k x0 x H0 H1;
          [specialize (Hu k x0 x H0 H1)|specialize (Hm k x0 x H0 H1)];
          cbn [pool db] in *; lia. }
      split; simpl; intros k x0 x H0 H1.
      * specialize (Hu _ _ _ H0 H1). lia.
      * destruct (decide (toMerchant t = k)) as [<-|Hne].
        -- rewrite lookup_alter_eq in H1.
           destruct (merchants (db s) !! toMerchant t) as [b|] eqn:Eb; [|done].
           simpl in H1. injection H1 as <-.
           specialize (Hm _ _ _ H0 Eb). lia.
        -- rewrite lookup_alter_ne in H1 by done.
           specialize (Hm _ _ _ H0 H1). lia.
Qed.

Lemma range_inv_run d0 sched : forall v s,
  range_inv d0 v s -> range_inv d0 (v + volume sched) (run s sched).
Proof.
  unfold volume. induction sched as [|a sched IH]; intros v s Hi.
  - rewrite sumZ_nil, Z.add_0_r. done.
  - simpl. rewrite sumZ_cons, Z.add_assoc. apply IH. by apply range_inv_exec.
Qed.

Lemma range_inv_init d0 : range_inv d0 0 (init d0).
Proof.
  split; simpl; intros k x0 x H0 H1; assert (x = x0) as -> by congruence;
    rewrite sumZ_nil; lia.
Qed.

(** On a store and a schedule in range, every offline balance and every
    balance of a merchant the run stores is in range, whatever fails on
    the storage. *)
Lemma balances_stay_in_range (d0 : Db) (sched : list Action) :
  in_range d0 sched ->
  let s := run (init d0) sched in
  (forall phone u0 u, users d0 !! phone = Some u0 ->
     users (db s) !! phone = Some u -> safe (offline_balance u))
  /\ (forall mid b0 b, merchants d0 !! mid = Some b0 ->
        merchants (db s) !! mid = Some b -> safe b).
Proof.
  intros (Hv & Hu0 & Hm0) s.
  destruct (range_inv_run d0 sched 0 _ (range_inv_init d0)) as [Hu Hm].
  fold s in Hu, Hm. rewrite Z.add_0_l in Hu, Hm.
  split.
  - intros phone u0 u H0 H1. specialize (Hu _ _ _ H0 H1).
    specialize (Hu0 _ _ H0). simpl in Hu0.
    pose proof (sumZ_nonneg user_due (pool s) user_due_nonneg).
    unfold safe. lia.
  - intros mid b0 b H0 H1. specialize (Hm _ _ _ H0 H1).
    specialize (Hm0 _ _ H0). simpl in Hm0.
    pose proof (sumZ_nonneg merchant_due (pool s) merchant_due_nonneg).
    unfold safe. lia.
Qed.

(** X3. For whole amounts, on a store and a schedule in range (no balance
    can reach 2^53 in magnitude by the amounts submitted, so that every
    UPDATE computes exactly): once no statement is in flight and none has
    failed on the storage, the balances agree with the records. Every
    registered payer's offline balance is what it was less the amounts of
    the records added for that payer, and every registered merchant's
    balance is what it was plus the amounts of the records added for that
    merchant; and these balances are in range. *)
Theorem balances_follow_records (d0 : Db) (sched : list Action) :
  in_range d0 sched ->
  forallb no_error sched = true ->
  let s := run (init d0) sched in
  quiescent s ->
  (forall phone u0, users d0 !! phone = Some u0 ->
     exists u, users (db s) !! phone = Some u
       /\ offline_balance u
          = offline_balance u0
            - (paid_by phone (transactions (db s))
               - paid_by phone (transactions d0))
       /\ safe (offline_balance u))
  /\ (forall mid b0, merchants d0 !! mid = Some b0 ->
        exists b, merchants (db s) !! mid = Some b
          /\ b = b0 + (paid_to mid (transactions (db s))
                       - paid_to mid (transactions d0))
          /\ safe b).
Proof.
  intros Hrange Hne s Hq.
  destruct (balances_stay_in_range d0 sched Hrange) as [Su Sm].
  fold s in Su, Sm.
  assert (H0 : ledger_inv d0 (init d0)).
  { split; simpl; intros k x0 x H0 H1; assert (x = x0) as -> by congruence;
      rewrite sumZ_nil; lia. }
  destruct (ledger_inv_run d0 sched _ Hne H0) as (Hu & Hm).
  fold s in Hu, Hm. rewrite Hq in Hu, Hm.
  assert (A0 : accounts_inv d0 (init d0)).
  { split; simpl; [|done]. intros phone. destruct (users d0 !! phone); eauto. }
  destruct (accounts_inv_run d0 sched _ A0) as (Hacc & Hmer).
  fold s in Hacc, Hmer.
  split.
  - intros phone u0 H1. specialize (Hacc phone). rewrite H1 in Hacc.
    destruct Hacc as (u & Hu1 & _).
    exists u. split_and!; [done| |by eapply Su]. specialize (Hu _ _ _ H1 Hu1).
    rewrite sumZ_nil in Hu. lia.
  - intros mid b0 H1. destruct (proj2 (Hmer mid)) as [b Hb]; [eauto|].
    exists b. split_and!; [done| |by eapply Sm]. specialize (Hm _ _ _ H1 Hb).
    rewrite sumZ_nil in Hm. lia.
Qed.

(** *** One outcome per element *)

#[local] Arguments ids_in_flight : simpl never.

Lemma ids_in_flight_nil rid : ids_in_flight rid [] = [].
Proof. reflexivity. Qed.

Lemma ids_in_flight_cons rid o l :
  ids_in_flight rid (o :: l)
  = match id_in_flight rid o with
    | Some x => x :: ids_in_flight rid l
    | None => ids_in_flight rid l
    end.
Proof. reflexivity. Qed.

Lemma ids_in_flight_app rid l1 l2 :
  ids_in_flight rid (l1 ++ l2) = ids_in_flight rid l1 ++ ids_in_flight rid l2.
Proof. apply omap_app. Qed.

Lemma ids_in_flight_delete rid l : forall i o,
  l !! i = Some o ->
  ids_in_flight rid l
  ≡ₚ match id_in_flight rid o with Some x => [x] | None => [] end
     ++ ids_in_flight rid (delete i l).
Proof.
  induction l as [|y l IH]; intros [|i] o Ho; simplify_eq/=.
  - rewrite ids_in_flight_cons. by destruct (id_in_flight rid o).
  - rewrite !ids_in_flight_cons. specialize (IH _ _ Ho).
    destruct (id_in_flight rid y), (id_in_flight rid o); simpl in *;
      rewrite IH; try done.
    apply Permutation_swap.
Qed.

Lemma ids_in_flight_other rid l :
  (forall o, o ∈ l -> id_in_flight rid o = None) -> ids_in_flight rid l = [].
Proof.
  induction l as [|y l IH]; intros Hl; [done|].
  rewrite ids_in_flight_cons, Hl by left. apply IH. intros o Ho. apply Hl. by right.
Qed.

Lemma ids_in_flight_selects rid ts :
  ids_in_flight rid (map (Select rid) ts) = map txnId ts.
Proof.
  induction ts as [|t ts IH]; simpl; [done|].
  rewrite ids_in_flight_cons. simpl.
  rewrite bool_decide_eq_true_2 by done. by rewrite IH.
Qed.

Lemma count_snoc {A} (p : A -> bool) l x :
  count p (l ++ [x]) = (count p l + if p x then 1 else 0)%nat.
Proof. rewrite count_app, count_cons, count_nil. lia. Qed.

(** What [finish] does to the invocation it is called for. *)
Lemma finish_results s rid f r :
  reqs s !! rid = Some r ->
  exists r', reqs (finish s rid f) !! rid = Some r'
    /\ results r' = results (f r) /\ processed r' = processed (f r)
    /\ failed r' = failed (f r).
Proof.
  intros Hr. pose proof (finish_at s rid f r Hr) as H. simpl in H.
  case_match; destruct H as [-> _]; eauto.
Qed.

Lemma outcomes_inv_finish rid ts s s0 rid0 id st f :
  (f = (fun r => count_failed r id st) /\ st <> Success
   \/ f = (fun r => count_processed r id st) /\ st = Success) ->
  reqs s0 = reqs s ->
  (rid0 <> rid -> ids_in_flight rid (pool s0) ≡ₚ ids_in_flight rid (pool s)) ->
  (rid0 = rid -> ids_in_flight rid (pool s) ≡ₚ id :: ids_in_flight rid (pool s0)) ->
  outcomes_inv rid ts s -> outcomes_inv rid ts (finish s0 rid0 f).
Proof.
  intros Hf Hreqs Hne Heq (r & Hr & Hperm & Hp & Hfl).
  rewrite <- Hreqs in Hr.
  destruct (decide (rid0 = rid)) as [->|Hd].
  - destruct (finish_results s0 rid f r Hr) as (r' & Hr' & Hres & Hpr & Hfa).
    exists r'. rewrite finish_pool. split; [done|].
    rewrite Hres, Hpr, Hfa.
    destruct Hf as [[-> Hst]|[-> ->]]; simpl; rewrite !count_snoc; simpl.
    + split_and!.
      * rewrite map_app, <- app_assoc. simpl. rewrite <- Hperm, (Heq eq_refl).
        done.
      * unfold is_success at 2. simpl. destruct st; simpl; try lia; done.
      * unfold is_success at 2. simpl. destruct st; simpl; try lia; done.
    + split_and!.
      * rewrite map_app, <- app_assoc. simpl. rewrite <- Hperm, (Heq eq_refl).
        done.
      * lia.
      * lia.
  - exists r. rewrite finish_pool, finish_reqs_ne by done.
    split_and!; try done. by rewrite (Hne Hd).
Qed.

Lemma outcomes_inv_exec rid ts s a :
  outcomes_inv rid ts s -> outcomes_inv rid ts (exec s a).
Proof.
  intros Hinv. destruct a as [body|i err]; simpl.
  - destruct Hinv as (r & Hr & Hperm & Hp & Hf).
    apply lookup_lt_Some in Hr as Hlt.
    unfold submit. destruct body as [[|t ts']|]; simpl.
    + exists r. simpl. by rewrite lookup_app_l.
    + exists r. simpl. rewrite lookup_app_l by done. split_and!; try done.
      rewrite ids_in_flight_app.
      rewrite (ids_in_flight_other rid (_ :: _)); [by rewrite app_nil_r|].
      intros o Ho.
      change (Select (length (reqs s)) t :: map (Select (length (reqs s))) ts')
        with (map (Select (length (reqs s))) (t :: ts')) in Ho.
      apply list_elem_of_fmap in Ho as (t' & -> & _). simpl.
      rewrite bool_decide_eq_false_2; [done|lia].
    + by exists r.
  - destruct (pool s !! i) as [o|] eqn:Hi; [|done].
    pose proof (ids_in_flight_delete rid _ _ _ Hi) as Hdel.
    assert (Hfin : forall d l extra rid0 id st f,
              (f = (fun r => count_failed r id st) /\ st <> Success
               \/ f = (fun r => count_processed r id st) /\ st = Success) ->
              (forall x, x ∈ extra -> id_in_flight rid x = None) ->
              id_in_flight rid o = (if bool_decide (rid0 = rid) then Some id else None) ->
              outcomes_inv rid ts
                (finish {| db := d; reqs := reqs s;
                           pool := delete i (pool s) ++ extra; log := l |}
                        rid0 f)).
    { intros d l extra rid0 id st f Hf Hextra Ho.
      eapply (outcomes_inv_finish rid ts s _ rid0 id st f Hf);
        [reflexivity| | |exact Hinv]; simpl; intros Hr;
        rewrite ids_in_flight_app, (ids_in_flight_other rid extra) by done;
        rewrite app_nil_r, Hdel, Ho.
      - by rewrite bool_decide_eq_false_2.
      - by rewrite bool_decide_eq_true_2. }
    destruct o as [rid0 t|rid0 t|t|t]; simpl.
    + destruct (if err then None else transactions (db s) !! txnId t).
      * rewrite <- (app_nil_r (delete i (pool s))).
        eapply Hfin; [left; split; [done|done]| |done].
        by intros x Hx%elem_of_nil.
      * destruct (t_amount t >? 500).
        -- rewrite <- (app_nil_r (delete i (pool s))).
           eapply Hfin; [left; split; [done|done]| |done].
           by intros x Hx%elem_of_nil.
        -- destruct Hinv as (r & Hr & Hperm & Hp & Hf).
           exists r. simpl. split_and!; try done.
           rewrite ids_in_flight_app, <- Hperm, Hdel. simpl.
           rewrite ids_in_flight_cons, ids_in_flight_nil. simpl.
           case_bool_decide; simpl; [|by rewrite app_nil_r].
           by rewrite <- Permutation_middle, app_nil_r.
    + destruct (err || bool_decide (is_Some (transactions (db s) !! txnId t))).
      * rewrite <- (app_nil_r (delete i (pool s))).
        eapply Hfin; [left; split; [done|done]| |done].
        by intros x Hx%elem_of_nil.
      * eapply Hfin; [right; split; [done|done]| |done].
        intros x Hx. apply elem_of_cons in Hx as [->|Hx]; [done|].
        by apply list_elem_of_singleton in Hx as ->.
    + destruct Hinv as (r & Hr & Hperm & Hp & Hf). simpl in Hdel.
      destruct err; exists r; simpl; (split_and!; [done| |done|done]);
        by rewrite <- Hdel.
    + destruct Hinv as (r & Hr & Hperm & Hp & Hf). simpl in Hdel.
      destruct err; exists r; simpl; (split_and!; [done| |done|done]);
        by rewrite <- Hdel.
Qed.

Lemma outcomes_inv_run rid ts sched : forall s,
  outcomes_inv rid ts s -> outcomes_inv rid ts (run s sched).
Proof.
  induction sched as [|a sched IH]; intros s Hs; [done|].
  apply IH. by apply outcomes_inv_exec.
Qed.

(** X4. Every element of a non-empty batch gets one outcome and no more:
    on every schedule, at any moment, the ids already answered together
    with the ids of the elements still in flight are the ids of the batch,
    each as often as the batch holds it, and [processed] counts the
    'success' outcomes and [failed] all others; and on a schedule the
    process lives through (no UPDATE fails on the storage), once nothing
    is in flight the one response lists exactly the ids of the batch, in
    the order the elements finished. *)
Theorem one_outcome_per_element (d0 : Db) (before after : list Action)
    (ts : list Txn) :
  ts <> [] ->
  let s0 := run (init d0) before in
  let rid := length (reqs s0) in
  let s := run s0 (Submit (Some ts) :: after) in
  (exists r, reqs s !! rid = Some r
     /\ map fst (results r) ++ ids_in_flight rid (pool s) ≡ₚ map txnId ts
     /\ processed r = count is_success (results r)
     /\ failed r = count (fun x => negb (is_success x)) (results r))
  /\ (survives (init d0) (before ++ Submit (Some ts) :: after) = true ->
      quiescent s ->
        exists p f res,
          responses rid (log s) = [SyncReply p f res]
          /\ map fst res ≡ₚ map txnId ts
          /\ p = count is_success res
          /\ f = count (fun x => negb (is_success x)) res).
Proof.
  intros Hts s0 rid s.
  assert (Hinv0 : sys_inv s0) by apply sys_inv_run, sys_inv_init.
  assert (Hstart : outcomes_inv rid ts (exec s0 (Submit (Some ts)))).
  { simpl. unfold submit. destruct ts as [|t ts]; [done|].
    exists (new_req (length (t :: ts)) false). simpl.
    rewrite lookup_app_r by done. subst rid. rewrite Nat.sub_diag.
    split_and!; try done.
    rewrite ids_in_flight_app.
    rewrite (ids_in_flight_other _ (pool s0)).
    - simpl.
      change (Select (length (reqs s0)) t :: map (Select (length (reqs s0))) ts)
        with (map (Select (length (reqs s0))) (t :: ts)).
      by rewrite ids_in_flight_selects.
    - intros o Ho. destruct Hinv0 as (HA & _).
      destruct o as [r t'|r t'| |]; simpl; try done;
        (rewrite bool_decide_eq_false_2; [done|]);
        specialize (HA _ r Ho eq_refl); lia. }
  pose proof (outcomes_inv_run rid ts after _ Hstart) as Hout.
  change (run (exec s0 (Submit (Some ts))) after) with s in Hout.
  split; [exact Hout|].
  intros _ Hq. destruct Hout as (r & Hr & Hperm & Hp & Hf).
  assert (Hinv : sys_inv s) by (apply sys_inv_run, Hinv0).
  destruct Hinv as (_ & _ & HC).
  destruct (HC _ _ Hr) as (Hc & Hres & Hs & Hresp).
  rewrite Hq in Hc, Hperm. rewrite count_nil in Hc.
  rewrite ids_in_flight_nil, app_nil_r in Hperm.
  destruct Hs as [_ Hs]. rewrite Hs in Hresp by lia.
  exists (processed r), (failed r), (results r). done.
Qed.

(** *** One element on its own *)

(** X5. A batch of one element of a whole amount whose statements
    complete in order and without error, on a store in range for it. If
    the id is recorded the answer is 'duplicate' and the store is left
    alone; if not and the amount is above 500 the answer is
    'amount_exceeded' and the store is left alone; otherwise (whatever the
    sign of the amount and whatever the payer holds, no other check being
    made) the answer is 'success'; the record of the id holds the payer,
    the merchant, the amount, the counter and the signature of the element
    and the status 'completed', and no other record changes; the row of
    the payer, when there is one, holds the offline balance it held less
    the amount, with its main balance and public key as they were, and no
    other user changes; and the balance of the merchant, when there is
    one, is the one it was plus the amount, and no other merchant
    changes. In every case the balances stored are in range. *)
Theorem single_element (d : Db) (t : Txn) :
  in_range d (Submit (Some [t]) :: one_by_one) ->
  let s := run (init d) (Submit (Some [t]) :: one_by_one) in
  quiescent s
  /\ (forall phone u, users (db s) !! phone = Some u -> safe (offline_balance u))
  /\ (forall mid b, merchants (db s) !! mid = Some b -> safe b)
  /\ match transactions d !! txnId t with
     | Some _ =>
       responses 0 (log s) = [SyncReply 0 1 [(txnId t, Duplicate)]] /\ db s = d
     | None =>
       if t_amount t >? 500
       then responses 0 (log s) = [SyncReply 0 1 [(txnId t, AmountExceeded)]]
            /\ db s = d
       else responses 0 (log s) = [SyncReply 1 0 [(txnId t, Success)]]
            /\ transactions (db s) !! txnId t
               = Some {| from_phone := fromPhone t; to_merchant := toMerchant t;
                         amount := t_amount t; counter := t_counter t;
                         signature := t_signature t; status := "completed" |}
            /\ (forall id, id <> txnId t ->
                  transactions (db s) !! id = transactions d !! id)
            /\ users (db s) !! fromPhone t
               = (fun u => {| balance := balance u;
                              offline_balance := offline_balance u - t_amount t;
                              public_key := public_key u |})
                 <$> users d !! fromPhone t
            /\ (forall phone, phone <> fromPhone t ->
                  users (db s) !! phone = users d !! phone)
            /\ merchants (db s) !! toMerchant t
               = (fun b => b + t_amount t) <$> merchants d !! toMerchant t
            /\ (forall mid, mid <> toMerchant t ->
                  merchants (db s) !! mid = merchants d !! mid)
     end.
Proof.
  intros Hrange s.
  destruct (balances_stay_in_range d _ Hrange) as [Su Sm]. fold s in Su, Sm.
  assert (A0 : accounts_inv d (init d)).
  { split; simpl; [|done]. intros phone. destruct (users d !! phone); eauto. }
  destruct (accounts_inv_run d (Submit (Some [t]) :: one_by_one) _ A0)
    as (Hacc & Hmer).
  fold s in Hacc, Hmer.
  split.
  { subst s. unfold run, one_by_one, quiescent. simpl.
    destruct (transactions d !! txnId t) eqn:E; simpl; [done|].
    destruct (t_amount t >? 500); simpl; [done|]. by rewrite E. }
  split.
  { intros phone u Hu. specialize (Hacc phone).
    destruct (users d !! phone) as [u0|] eqn:E0; [by eapply Su|congruence]. }
  split.
  { intros mid b Hb. destruct (proj1 (Hmer mid)) as [b0 Hb0]; [eauto|].
    by eapply Sm. }
  clear Su Sm Hacc Hmer A0 Hrange.
  subst s. unfold run, one_by_one. simpl.
  destruct (transactions d !! txnId t) as [row|] eqn:E; simpl.
  - by destruct d.
  - destruct (t_amount t >? 500) eqn:Ea; simpl.
    + by destruct d.
    + rewrite E. simpl. split_and!; try done.
      * by rewrite lookup_insert_eq.
      * intros id Hid. by rewrite lookup_insert_ne.
      * by rewrite lookup_alter_eq.
      * intros phone Hp. by rewrite lookup_alter_ne.
      * by rewrite lookup_alter_eq.
      * intros mid Hm. by rewrite lookup_alter_ne.
Qed.

Lemma records_kept_and_capped_witness :
  let s := run (init Examples.after_T1) Examples.then_T2 in
  transactions Examples.after_T1 !! "T1"
  = Some (row_of (Demo.demo_txn "T1" 5 "c2ln"))
  /\ transactions (db s) !! "T1" = Some (row_of (Demo.demo_txn "T1" 5 "c2ln"))
  /\ (amount (row_of (Demo.demo_txn "T2" 6 "c2ln")) <= 500
      /\ status (row_of (Demo.demo_txn "T2" 6 "c2ln")) = "completed").
Proof.
  intros s.
  destruct (records_kept_and_capped Examples.after_T1 Examples.then_T2)
    as [Hkept Hnew].
  split; [vm_compute; reflexivity|].
  split; [apply Hkept; vm_compute; reflexivity|].
  apply (Hnew "T2" (row_of (Demo.demo_txn "T2" 6 "c2ln")));
    vm_compute; reflexivity.
Defined.

Lemma accounts_untouched_witness :
  let s := run (init Demo.demo_db) Demo.once in
  users (db s) !! "9800000002" = None
  /\ (exists u, users (db s) !! "9800000001" = Some u
                /\ balance u = 5000 /\ public_key u = "cGs=")
  /\ is_Some (merchants (db s) !! "M1").
Proof.
  intros s.
  destruct (accounts_untouched Demo.demo_db Demo.once) as (Hnone & Hsome & Hm).
  split_and!.
  - apply Hnone. vm_compute. reflexivity.
  - apply (Hsome "9800000001" Demo.demo_user). vm_compute. reflexivity.
  - apply Hm. eexists. vm_compute. reflexivity.
Defined.

Lemma demo_in_range sched :
  volume sched <= 1000 -> in_range Demo.demo_db sched.
Proof.
  intros Hv. split_and!.
  - unfold limit. lia.
  - apply map_Forall_singleton. simpl. unfold limit. lia.
  - apply map_Forall_singleton. unfold limit. lia.
Defined.

Lemma balances_follow_records_witness :
  let s := run (init Demo.demo_db) Demo.once in
  in_range Demo.demo_db Demo.once
  /\ forallb no_error Demo.once = true
  /\ quiescent s
  /\ (exists u, users (db s) !! "9800000001" = Some u
        /\ offline_balance u
           = 1800 - (paid_by "9800000001" (transactions (db s))
                     - paid_by "9800000001" (transactions Demo.demo_db))
        /\ safe (offline_balance u))
  /\ (exists b, merchants (db s) !! "M1" = Some b
        /\ b = 0 + (paid_to "M1" (transactions (db s))
                    - paid_to "M1" (transactions Demo.demo_db))
        /\ safe b).
Proof.
  intros s.
  assert (in_range Demo.demo_db Demo.once) as Hr
    by (apply demo_in_range; vm_compute; discriminate).
  assert (forallb no_error Demo.once = true) as Hne by reflexivity.
  assert (quiescent s) as Hq by reflexivity.
  destruct (balances_follow_records Demo.demo_db Demo.once Hr Hne Hq) as [Hu Hm].
  split; [exact Hr|]. split; [exact Hne|]. split; [exact Hq|]. split.
  - apply (Hu "9800000001" Demo.demo_user). vm_compute. reflexivity.
  - apply (Hm "M1" 0). vm_compute. reflexivity.
Defined.

Lemma one_outcome_per_element_witness :
  let s := run (init Demo.demo_db)
               (Submit (Some Demo.two_elements) :: Demo.interleaved) in
  Demo.two_elements <> []
  /\ survives (init Demo.demo_db)
       (Submit (Some Demo.two_elements) :: Demo.interleaved) = true
  /\ quiescent s
  /\ exists p f res,
       responses 0 (log s) = [SyncReply p f res]
       /\ map fst res ≡ₚ map txnId Demo.two_elements
       /\ p = count is_success res
       /\ f = count (fun x => negb (is_success x)) res.
Proof.
  intros s.
  assert (Demo.two_elements <> []) as Hne by (unfold Demo.two_elements; discriminate).
  assert (quiescent s) as Hq by reflexivity.
  split_and!; [exact Hne|reflexivity|exact Hq|].
  exact (proj2 (one_outcome_per_element Demo.demo_db [] Demo.interleaved
                  Demo.two_elements Hne) eq_refl Hq).
Defined.

Lemma single_element_witness :
  let s := run (init Demo.demo_db)
               (Submit (Some [Demo.demo_txn "T1" 5 "c2ln"]) :: one_by_one) in
  in_range Demo.demo_db
    (Submit (Some [Demo.demo_txn "T1" 5 "c2ln"]) :: one_by_one)
  /\ responses 0 (log s) = [SyncReply 1 0 [("T1", Success)]]
  /\ transactions (db s) !! "T1"
     = Some {| from_phone := "9800000001"; to_merchant := "M1"; amount := 100;
               counter := 5; signature := "c2ln"; status := "completed" |}
  /\ users (db s) !! "9800000001"
     = Some {| balance := 5000; offline_balance := 1700; public_key := "cGs=" |}
  /\ merchants (db s) !! "M1" = Some 100.
Proof.
  intros s.
  assert (in_range Demo.demo_db
            (Submit (Some [Demo.demo_txn "T1" 5 "c2ln"]) :: one_by_one)) as Hr
    by (apply demo_in_range; vm_compute; discriminate).
  destruct (single_element Demo.demo_db (Demo.demo_txn "T1" 5 "c2ln") Hr)
    as (_ & _ & _ & Hres & Hrow & _ & Hu & _ & Hm & _).
  split; [exact Hr|]. split; [exact Hres|]. split; [exact Hrow|].
  split; [exact Hu|exact Hm].
Defined.

End LedgerFacts.

(** ** Loading the offline balance, again and again *)

Module LoadsFacts.
Import Token Backend Loads.

Lemma serve_user d r phone u :
  users d !! phone = Some u -> loadable u ->
  exists u', users (serve d r) !! phone = Some u'
    /\ balance u' + offline_balance u' = balance u + offline_balance u
    /\ public_key u' = public_key u
    /\ offline_balance u <= offline_balance u'
    /\ balance u' <= balance u
    /\ (offline_balance u <= 2000 -> offline_balance u' <= 2000)
    /\ (0 <= balance u -> 0 <= balance u')
    /\ loadable u'.
Proof.
  intros Hu Hl. unfold serve, load_balance.
  destruct r as [ty ph a ge re]; simpl.
  assert (Hsame : exists u', users d !! phone = Some u'
    /\ balance u' + offline_balance u' = balance u + offline_balance u
    /\ public_key u' = public_key u
    /\ offline_balance u <= offline_balance u'
    /\ balance u' <= balance u
    /\ (offline_balance u <= 2000 -> offline_balance u' <= 2000)
    /\ (0 <= balance u -> 0 <= balance u')
    /\ loadable u')
    by (exists u; split_and!; try done; lia).
  destruct ty; [|done].
  destruct ((a =? 0) || (a <=? 0)) eqn:E0; [done|].
  apply orb_false_iff in E0 as [_ E0]. apply Z.leb_gt in E0.
  destruct (a >? 2000); [done|].
  destruct (if ge then None else users d !! ph) as [user|] eqn:Eg; [|done].
  destruct (offline_balance user + a >? 2000) eqn:E3; [done|].
  rewrite Z.gtb_ltb in E3. apply Z.ltb_ge in E3.
  destruct (balance user <? a) eqn:E4; [done|]. apply Z.ltb_ge in E4.
  destruct re; [done|]. simpl.
  destruct ge; [done|].
  destruct (decide (ph = phone)) as [->|Hne].
  - rewrite lookup_alter_eq, Hu. simpl. rewrite Hu in Eg. injection Eg as <-.
    eexists. split; [done|]. simpl.
    destruct Hl as [Hb Ho]. unfold loadable, safe, limit in *. simpl.
    split_and!; try done; lia.
  - by rewrite lookup_alter_ne.
Qed.

Lemma serve_tables d r :
  merchants (serve d r) = merchants d
  /\ transactions (serve d r) = transactions d
  /\ (forall phone, users d !! phone = None -> users (serve d r) !! phone = None).
Proof.
  unfold serve, load_balance. destruct r as [ty ph a ge re]; simpl.
  repeat case_match; simpl; split_and!; try done.
  intros phone Hn. by apply lookup_alter_None.
Qed.

(** X6. However many load requests of whole amounts are handled one
    after the other, for whatever accounts and with whatever storage
    errors, every user whose row is in range (main balance below 2^53 in
    magnitude, offline balance at least 2000 below it, so that the handler
    computes exactly) keeps the sum of main and offline balance; the
    offline balance only grows and the main balance only shrinks; an
    offline balance within 2000 stays within 2000 and a main balance that
    is not negative stays so; and the row is in range again. No account
    appears, and the merchants and the records are left alone. *)
Theorem loads_keep_totals (d : Db) (l : list LoadRequest) :
  Forall (fun r => safe (lr_amount r)) l ->
  (forall phone u, users d !! phone = Some u -> loadable u ->
     exists u', users (serve_all d l) !! phone = Some u'
       /\ balance u' + offline_balance u' = balance u + offline_balance u
       /\ public_key u' = public_key u
       /\ offline_balance u <= offline_balance u'
       /\ balance u' <= balance u
       /\ (offline_balance u <= 2000 -> offline_balance u' <= 2000)
       /\ (0 <= balance u -> 0 <= balance u')
       /\ loadable u')
  /\ (forall phone, users d !! phone = None ->
        users (serve_all d l) !! phone = None)
  /\ merchants (serve_all d l) = merchants d
  /\ transactions (serve_all d l) = transactions d.
Proof.
  intros _. revert d. induction l as [|r l IH]; intros d.
  - split_and!; try done. intros phone u Hu Hl. exists u.
    split_and!; try done; lia.
  - simpl. destruct (IH (serve d r)) as (Hu & Hn & Hm & Ht).
    destruct (serve_tables d r) as (Hm1 & Ht1 & Hn1).
    split_and!; [| |congruence|congruence].
    + intros phone u H0 Hl.
      destruct (serve_user d r phone u H0 Hl)
        as (u1 & H1 & A1 & A2 & A3 & A4 & A5 & A6 & A7).
      destruct (Hu _ _ H1 A7) as (u2 & H2 & B1 & B2 & B3 & B4 & B5 & B6 & B7).
      exists u2. split_and!; try done; try lia; congruence.
    + intros phone H0. apply Hn, Hn1, H0.
Qed.

(** X7. When the wallet holds the balances the server holds for its user,
    the checks of the load-balance screen pass for an amount exactly when
    the handler would accept it (no storage error); the remaining capacity
    shown by the screen is the one the handler reports; and after an
    accepted load the balances the screen sets are those of the stored
    row. *)
Theorem screen_agrees_with_handler (state : Wallet.State) (d : Db)
    (phone : string) (u : UserRow) (loadAmount : JsNum) :
  users d !! phone = Some u ->
  Wallet.balance state = balance u ->
  Wallet.offlineBalance state = Some (offline_balance u) ->
  (check_load state loadAmount = None <->
     exists a, loadAmount = Some a
       /\ load_succeeds (snd (load_balance d TUser phone a false false)) = true)
  /\ (forall a n, loadAmount = Some a ->
        check_load state loadAmount = Some (AlertCanOnlyLoad n) ->
        exists m, n = Some m
          /\ snd (load_balance d TUser phone a false false) = CanOnlyLoad m)
  /\ (forall a, loadAmount = Some a ->
        load_succeeds (snd (load_balance d TUser phone a false false)) = true ->
        let state' :=
          Wallet.dispatch state (handleLoad state loadAmount (Return true)) in
        exists u', users (fst (load_balance d TUser phone a false false)) !! phone
                   = Some u'
          /\ Wallet.balance state' = balance u'
          /\ Wallet.offlineBalance state' = Some (offline_balance u')).
Proof.
  intros Hu Hb Ho.
  assert (Hcases : forall a, loadAmount = Some a ->
     (check_load state loadAmount = None
      /\ snd (load_balance d TUser phone a false false)
         = Loaded (balance u - a) (offline_balance u + a)
      /\ users (fst (load_balance d TUser phone a false false)) !! phone
         = Some (move_to_offline a u))
     \/ (check_load state loadAmount
         = Some (AlertCanOnlyLoad (Some (2000 - offline_balance u)))
         /\ snd (load_balance d TUser phone a false false)
            = CanOnlyLoad (2000 - offline_balance u))
     \/ ((check_load state loadAmount = Some AlertInvalidAmount
          \/ check_load state loadAmount = Some AlertLimitExceeded
          \/ check_load state loadAmount = Some AlertInsufficientBalance)
         /\ load_succeeds (snd (load_balance d TUser phone a false false))
            = false)).
  { intros a ->. unfold check_load, load_balance. rewrite Hu, Hb, Ho. simpl.
    destruct ((a =? 0) || (a <=? 0)); [right; right; eauto|].
    destruct (a >? 2000); [right; right; eauto|].
    destruct (offline_balance u + a >? 2000); [right; left; eauto|].
    rewrite (Z.gtb_ltb a).
    destruct (balance u <? a); [right; right; eauto|].
    left. split_and!; try done. simpl. by rewrite lookup_alter_eq, Hu. }
  split_and!.
  - split.
    + destruct loadAmount as [a|]; [|done]. intros Hc. exists a. split; [done|].
      destruct (Hcases a eq_refl) as [(_ & -> & _)|[(H1 & _)|([H1|[H1|H1]] & _)]];
        first [done|congruence].
    + intros (a & -> & Hs).
      destruct (Hcases a eq_refl) as [(H1 & _)|[(_ & H2)|(_ & H3)]];
        [done| |congruence]. by rewrite H2 in Hs.
  - intros a n -> Hc.
    destruct (Hcases a eq_refl) as [(H1 & _)|[(H1 & H2)|([H1|[H1|H1]] & _)]];
      try congruence.
    rewrite H1 in Hc. injection Hc as <-. eauto.
  - intros a -> Hs state'.
    destruct (Hcases a eq_refl) as [(H1 & H2 & H3)|[(_ & H4)|(_ & H5)]];
      [| by rewrite H4 in Hs | congruence].
    exists (move_to_offline a u). split; [done|].
    subst state'. unfold handleLoad. rewrite H1. simpl. rewrite Hb, Ho. done.
Qed.

Lemma loads_keep_totals_witness :
  exists u', users (serve_all Demo.demo_db Examples.demo_loads) !! "9800000001"
             = Some u'
    /\ balance u' + offline_balance u' = 5000 + 1800
    /\ 1800 <= offline_balance u' <= 2000
    /\ 0 <= balance u' <= 5000.
Proof.
  assert (Forall (fun r => safe (lr_amount r)) Examples.demo_loads) as Ha
    by (repeat constructor; unfold safe, limit; simpl; lia).
  assert (loadable Demo.demo_user) as Hl
    by (unfold loadable, safe, limit; simpl; lia).
  destruct (loads_keep_totals Demo.demo_db Examples.demo_loads Ha) as (Hu & _).
  destruct (Hu "9800000001" Demo.demo_user)
    as (u' & H1 & H2 & _ & H4 & H5 & H6 & H7 & _);
    [vm_compute; reflexivity|exact Hl|].
  exists u'. simpl in *. split_and!; [exact H1|exact H2|exact H4| | |exact H5].
  - apply H6. lia.
  - apply H7. lia.
Defined.

Lemma screen_agrees_with_handler_witness :
  check_load Examples.synced_wallet (Some 100) = None
  /\ load_succeeds
       (snd (load_balance Demo.demo_db TUser "9800000001" 100 false false))
     = true
  /\ check_load Examples.synced_wallet (Some 300) <> None.
Proof.
  destruct (screen_agrees_with_handler Examples.synced_wallet Demo.demo_db
              "9800000001" Demo.demo_user (Some 100)) as (Hiff & _);
    [vm_compute; reflexivity|reflexivity|reflexivity|].
  split_and!.
  - apply Hiff. exists 100. split; reflexivity.
  - reflexivity.
  - destruct (screen_agrees_with_handler Examples.synced_wallet Demo.demo_db
                "9800000001" Demo.demo_user (Some 300)) as (Hiff' & _);
      [vm_compute; reflexivity|reflexivity|reflexivity|].
    intros Hn. apply Hiff' in Hn as (a & [= <-] & Hs). discriminate Hs.
Defined.

End LoadsFacts.

(** ** Phone numbers and passwords *)

Module AccountsFacts.
Import Accounts.

Lemma validatePassword_true p :
  valid (validatePassword p) = true <->
  (8 <= length p)%nat /\ has is_upper p = true /\ has is_lower p = true
  /\ has is_digit p = true /\ has is_special p = true.
Proof.
  unfold validatePassword.
  destruct (length p <? 8)%nat eqn:E;
    [apply Nat.ltb_lt in E|apply Nat.ltb_ge in E];
    destruct (has is_upper p), (has is_lower p), (has is_digit p),
      (has is_special p); simpl; split; intros; destruct_and?; try done; lia.
Qed.

Lemma validatePassword_error p :
  error (validatePassword p) = None <-> valid (validatePassword p) = true.
Proof. unfold validatePassword. repeat case_match; simpl; split; done. Qed.

(** The case analysis the checks of a password share: the length against
    8 and the four character classes. *)
Ltac password_cases c p :=
  rewrite ?bool_decide_eq_false_2 by done;
  destruct (length (c :: p) <? 8)%nat eqn:E;
    [apply Nat.ltb_lt in E as E'; assert ((8 <=? length (c :: p))%nat = false) as ->
       by (apply Nat.leb_gt; lia)
    |apply Nat.ltb_ge in E as E'; assert ((8 <=? length (c :: p))%nat = true) as ->
       by (apply Nat.leb_le; lia)];
    destruct (has is_upper (c :: p)), (has is_lower (c :: p)),
      (has is_digit (c :: p)), (has is_special (c :: p)); simpl.

Lemma form_password_ok (p : JsStr) :
  wallet_password_error p = None \/ merchant_password_error p = None ->
  valid (validatePassword p) = true.
Proof.
  rewrite validatePassword_true.
  unfold wallet_password_error, merchant_password_error.
  destruct p as [|c p]; [simpl; by intros [|]|].
  rewrite !bool_decide_eq_false_2 by done.
  destruct (length (c :: p) <? 8)%nat eqn:E; [by intros [|]|].
  apply Nat.ltb_ge in E.
  destruct (has is_upper (c :: p)), (has is_lower (c :: p)),
    (has is_digit (c :: p)), (has is_special (c :: p)); simpl;
    intros [|]; try done.
Qed.

(** X8. The four places that judge a password agree: the server's
    [validatePassword] accepts a password exactly when the wallet's form
    puts no error under it, exactly when the merchant's form puts none,
    and exactly when the strength meter of the wallet's form shows 5. *)
Theorem password_checks_agree (p : JsStr) :
  (valid (validatePassword p) = true <-> wallet_password_error p = None)
  /\ (valid (validatePassword p) = true <-> merchant_password_error p = None)
  /\ (valid (validatePassword p) = true <-> strength p = 5%nat).
Proof.
  rewrite validatePassword_true.
  unfold wallet_password_error, merchant_password_error, strength.
  destruct p as [|c p]; [simpl; split_and!; split; intros; destruct_and?; try done; lia|].
  password_cases c p;
    split_and!; split; intros; destruct_and?; simpl in *; try done; try lia.
Qed.

Lemma has_insert class p1 q p2 :
  has class (p1 ++ p2) = true -> has class (p1 ++ q ++ p2) = true.
Proof.
  unfold has. rewrite !existsb_app. intros [-> | ->]%orb_true_iff; [done|].
  by rewrite !orb_true_r.
Qed.

(** X9. A password the server accepts stays accepted when characters are
    added to it, wherever they are put. *)
Theorem password_grows_valid (p1 q p2 : JsStr) :
  valid (validatePassword (p1 ++ p2)) = true ->
  valid (validatePassword (p1 ++ q ++ p2)) = true.
Proof.
  rewrite !validatePassword_true. intros (Hl & Hu & Hw & Hd & Hs).
  split_and!; try by apply has_insert.
  rewrite !length_app in *. lia.
Qed.

Lemma phone_error_None phone :
  phone_error phone = None -> phone <> [] /\ validatePhone phone = true.
Proof.
  unfold phone_error. case_bool_decide; [done|].
  destruct (validatePhone phone); done.
Qed.

Lemma app_length_0 {A} (l1 l2 : list A) :
  (length (l1 ++ l2) =? 0)%nat = true -> l1 = [] /\ l2 = [].
Proof.
  intros H%Nat.eqb_eq. rewrite length_app in H.
  split; apply length_zero_iff_nil; lia.
Qed.

Lemma publicKey_or_nonempty kp fallback :
  fallback <> [] -> publicKey_or kp fallback <> [].
Proof. by destruct kp as [[|c k]|]. Qed.

(** X10. What a registration form lets through, the validation stage of
    the server accepts: when [validateInputs] of the wallet's form, resp.
    of the merchant's form, returns true, the registration route does not
    answer 400 for the phone, password, name and public key that
    [handleRegister] sends, whatever key pair the application holds. *)
Theorem forms_pass_server_validation :
  (forall (f : WalletForm) (keyPair : option JsStr),
     wallet_validateInputs f = true ->
     register_validation (wf_phone f) (wf_password f) (wf_name f)
       (publicKey_or keyPair (units "temp-public-key"))
     = None)
  /\ (forall (f : MerchantForm) (keyPair : option JsStr),
        merchant_validateInputs f = true ->
        merchant_register_validation (mf_merchantId f) (mf_phone f)
          (mf_password f) (mf_businessName f)
          (publicKey_or keyPair (units "temp-merchant-key"))
        = None).
Proof.
  split.
  - intros f kp. unfold wallet_validateInputs, wallet_errors.
    intros (Hname & H1)%app_length_0.
    apply app_eq_nil in H1 as (Hphone & H1).
    apply app_eq_nil in H1 as (Hpass & _).
    destruct (phone_error (wf_phone f)) eqn:Ep; [done|].
    apply phone_error_None in Ep as [Hp1 Hp2].
    destruct (wallet_password_error (wf_password f)) eqn:Ew; [done|].
    pose proof (form_password_ok (wf_password f) (or_introl Ew)) as Hv.
    assert (wf_password f <> []) by (intros E; by rewrite E in Hv).
    assert (wf_name f <> []).
    { intros E. rewrite E in Hname. done. }
    assert (publicKey_or kp (units "temp-public-key") <> [])
      by by apply publicKey_or_nonempty.
    unfold register_validation.
    rewrite !bool_decide_eq_false_2 by done. simpl. rewrite Hp2. simpl.
    apply validatePassword_error in Hv. by rewrite Hv.
  - intros f kp. unfold merchant_validateInputs, merchant_errors.
    intros (Hid & H1)%app_length_0.
    apply app_eq_nil in H1 as (Hname & H1).
    apply app_eq_nil in H1 as (Hphone & H1).
    apply app_eq_nil in H1 as (Hpass & _).
    destruct (phone_error (mf_phone f)) eqn:Ep; [done|].
    apply phone_error_None in Ep as [Hp1 Hp2].
    destruct (merchant_password_error (mf_password f)) eqn:Ew; [done|].
    pose proof (form_password_ok (mf_password f) (or_intror Ew)) as Hv.
    assert (mf_password f <> []) by (intros E; by rewrite E in Hv).
    assert (mf_businessName f <> []).
    { intros E. rewrite E in Hname. done. }
    assert (mf_merchantId f <> []).
    { intros E. rewrite E in Hid. done. }
    assert (publicKey_or kp (units "temp-merchant-key") <> [])
      by by apply publicKey_or_nonempty.
    unfold merchant_register_validation.
    rewrite !bool_decide_eq_false_2 by done. simpl. rewrite Hp2. simpl.
    apply validatePassword_error in Hv. by rewrite Hv.
Qed.

Lemma forallb_take {A} (f : A -> bool) n l :
  forallb f l = true -> forallb f (take n l) = true.
Proof.
  revert n. induction l as [|x l IH]; intros [|n]; simpl; try done.
  intros [-> Hl]%andb_true_iff. simpl. by apply IH.
Qed.

Lemma between_digit c : between 54 57 c = true -> is_digit c = true.
Proof.
  unfold is_digit, between.
  intros [H1%N.leb_le H2%N.leb_le]%andb_true_iff.
  apply andb_true_iff; split; apply N.leb_le; lia.
Qed.

(** X11. The phone field of the forms, which keeps the first ten digits
    of what is typed: it holds digits only and at most ten of them, typing
    its own content into it gives the same content, and every phone number
    the server accepts can be entered, since the field leaves it as it
    is. *)
Theorem phone_field_keeps_valid_phones (text : JsStr) :
  forallb is_digit (phone_field text) = true
  /\ (length (phone_field text) <= 10)%nat
  /\ phone_field (phone_field text) = phone_field text
  /\ (validatePhone text = true -> phone_field text = text).
Proof.
  assert (forallb is_digit (phone_field text) = true) as Hd.
  { unfold phone_field. apply forallb_take, forallb_filter. }
  assert (length (phone_field text) <= 10)%nat as Hl.
  { unfold phone_field. rewrite length_take. lia. }
  split_and!; [done|done| |].
  - unfold phone_field at 1. rewrite forallb_filter_id by done.
    by apply take_ge.
  - unfold validatePhone, phone_field. destruct text as [|c rest]; [done|].
    intros [[Hc Hn%Nat.eqb_eq]%andb_true_iff Hr]%andb_true_iff.
    rewrite forallb_filter_id.
    + apply take_ge. simpl. lia.
    + simpl. by rewrite (between_digit c Hc), Hr.
Qed.

Lemma password_grows_valid_witness :
  valid (validatePassword (units "Abc1!" ++ units "def")) = true
  /\ valid (validatePassword (units "Abc1!" ++ units "xyz" ++ units "def")) = true.
Proof.
  assert (valid (validatePassword (units "Abc1!" ++ units "def")) = true) as Hv
    by (vm_compute; reflexivity).
  split; [exact Hv|].
  exact (password_grows_valid (units "Abc1!") (units "xyz") (units "def") Hv).
Defined.

Lemma forms_pass_server_validation_witness :
  wallet_validateInputs Examples.wallet_form = true
  /\ register_validation Examples.demo_phone Examples.demo_password
       (units "Asha") (units "temp-public-key") = None
  /\ merchant_validateInputs Examples.merchant_form = true
  /\ merchant_register_validation (units "SHOP1") Examples.demo_phone
       Examples.demo_password (units "Shop") (units "cGs=") = None.
Proof.
  destruct forms_pass_server_validation as [Hw Hm].
  assert (wallet_validateInputs Examples.wallet_form = true) as H1
    by (vm_compute; reflexivity).
  assert (merchant_validateInputs Examples.merchant_form = true) as H2
    by (vm_compute; reflexivity).
  split_and!; [exact H1| |exact H2|].
  - exact (Hw Examples.wallet_form None H1).
  - exact (Hm Examples.merchant_form (Some (units "cGs=")) H2).
Defined.

Lemma phone_field_keeps_valid_phones_witness :
  validatePhone Examples.demo_phone = true
  /\ phone_field Examples.demo_phone = Examples.demo_phone.
Proof.
  assert (validatePhone Examples.demo_phone = true) as Hv by (vm_compute; reflexivity).
  split; [exact Hv|].
  destruct (phone_field_keeps_valid_phones Examples.demo_phone) as (_ & _ & _ & Hfix).
  exact (Hfix Hv).
Defined.

End AccountsFacts.

(** ** Logging in *)

Module LoginFacts.
Import Login.

Definition free (row : Account) : Z := Z.max 0 (4 - failed_attempts row).

Definition gate (row : Account) (t : Z) : Z :=
  match locked_until row with Some e => Z.max t e | None => t end.

Lemma tried_cons p r reply l :
  tried p ((r, reply) :: l)
  = (if bool_decide (phone r = p) && compared reply then 1 else 0) + tried p l.
Proof.
  unfold tried. simpl. destruct (bool_decide (phone r = p) && compared reply);
    simpl; lia.
Qed.

Lemma tried_nonneg p l : 0 <= tried p l.
Proof. unfold tried. lia. Qed.

Lemma logins_cons route accounts r l :
  logins route accounts (r :: l)
  = ((logins route (login route accounts r).1 l).1,
     (r, (login route accounts r).2) :: (logins route (login route accounts r).1 l).2).
Proof.
  simpl. destruct (login route accounts r) as [a reply]. simpl.
  by destruct (logins route a l).
Qed.

(** A request for another phone, or one that does not reach the
    comparison, leaves the row of [p] as it is. *)
Lemma login_other route accounts r p :
  phone r <> p -> (login route accounts r).1 !! p = accounts !! p.
Proof.
  intros Hne. unfold login. repeat case_match; simpl; try done.
  by rewrite lookup_insert_ne.
Qed.

Lemma login_row route accounts r row :
  accounts !! phone r = Some row ->
  password r <> EmptyString -> phone r <> EmptyString -> get_err r = false ->
  (login route accounts r).1 !! phone r = Some (attempt route row r).1
  /\ (login route accounts r).2 = (attempt route row r).2.
Proof.
  intros Hrow Hpw Hph Herr. unfold login.
  rewrite !bool_decide_eq_false_2 by done. simpl. rewrite Herr, Hrow.
  destruct (attempt route row r). simpl. by rewrite lookup_insert_eq.
Qed.

Lemma login_not_compared route accounts r :
  compared (login route accounts r).2 = false ->
  (login route accounts r).1 !! phone r = accounts !! phone r.
Proof.
  unfold login. repeat case_match; simpl; try done.
  intros Hc. rewrite lookup_insert_eq. simplify_eq.
  unfold attempt in *. repeat case_match; simplify_eq/=; done.
Qed.

Lemma rate_general route t1 l : forall accounts t p row,
  accounts !! p = Some row ->
  in_time t l ->
  Forall (fun r => at_lock r <= t1) l ->
  Forall (fun r => phone r = p -> validPassword r = false) l ->
  1 <= tried p (logins route accounts l).2 ->
  gate row t + 900000 * Z.max 0 (tried p (logins route accounts l).2 - 1 - free row)
  <= t1.
Proof.
  induction l as [|r l IH]; intros accounts t p row Hrow Htime Hend Hwrong Hn.
  { simpl in Hn. unfold tried in Hn. simpl in Hn. lia. }
  rewrite logins_cons in *. simpl in *. rewrite tried_cons in *.
  destruct Htime as (Ht1 & Ht2 & Htime).
  apply Forall_cons in Hend as [Hend1 Hend]. apply Forall_cons in Hwrong as [Hw1 Hwrong].
  pose proof (tried_nonneg p (logins route (login route accounts r).1 l).2) as Hnn.
  destruct (bool_decide (phone r = p) && compared (login route accounts r).2) eqn:E.
  - apply andb_true_iff in E as [Ep Ec]. apply bool_decide_eq_true in Ep.
    specialize (Hw1 Ep).
    assert (password r <> EmptyString /\ phone r <> EmptyString /\ get_err r = false)
      as (Hpw & Hph & Herr).
    { unfold login in Ec. repeat case_bool_decide; simpl in Ec; try done.
      destruct (get_err r); done. }
    rewrite <- Ep in Hrow.
    destruct (login_row route accounts r row Hrow Hpw Hph Herr) as [Hrow' Hreply].
    rewrite Hreply in Ec. rewrite Ep in Hrow'.
    unfold attempt in Hrow', Ec. rewrite Hw1 in Hrow', Ec. simpl in Hrow', Ec.
    destruct (isAccountLocked (locked_until row) (at_check r)) eqn:El; [done|].
    assert (gate row t <= at_check r) as Hgate.
    { unfold gate, isAccountLocked in *. destruct (locked_until row); lia. }
    destruct (decide (1 <= tried p (logins route (login route accounts r).1 l).2))
      as [Hn'|Hn'].
    + destruct (failed_attempts row + 1 >=? 5) eqn:E5.
      * assert ((login route accounts r).1 !! p
                = Some {| failed_attempts := failed_attempts row + 1;
                          locked_until := Some (at_lock r + 15 * 60 * 1000) |})
          as Hrow'' by (by destruct route).
        pose proof (IH _ (at_lock r) p _ Hrow'' Htime Hend Hwrong Hn') as IH'.
        unfold gate, free in *. simpl in IH'. lia.
      * assert ((login route accounts r).1 !! p
                = Some {| failed_attempts := failed_attempts row + 1;
                          locked_until := None |})
          as Hrow'' by (by destruct route).
        pose proof (IH _ (at_lock r) p _ Hrow'' Htime Hend Hwrong Hn') as IH'.
        unfold gate, free in *. simpl in IH'. lia.
    + unfold free. lia.
  - assert ((login route accounts r).1 !! p = Some row) as Hrow'.
    { apply andb_false_iff in E as [E|E].
      - apply bool_decide_eq_false in E. by rewrite login_other.
      - destruct (decide (phone r = p)) as [Ep|Ep].
        + rewrite <- Ep. rewrite login_not_compared by done. by rewrite Ep.
        + by rewrite login_other. }
    assert (1 <= tried p (logins route (login route accounts r).1 l).2) as Hn' by lia.
    pose proof (IH _ (at_lock r) p _ Hrow' Htime Hend Hwrong Hn') as IH'.
    unfold gate in *. destruct (locked_until row); lia.
Qed.

(** X12. How fast passwords can be tried: on either login route, as long
    as no request for the account of [p] carries the right password, the
    passwords compared with its hash between [t0] and [t1] are at most
    five, and one more for every quarter of an hour; whatever the state of
    the account before, and whatever other accounts are tried in
    between. *)
Theorem guesses_are_rationed (route : Route) (accounts : gmap string Account)
    (p : string) (row : Account) (l : list Request) (t0 t1 : Z) :
  accounts !! p = Some row ->
  0 <= failed_attempts row ->
  t0 <= t1 ->
  in_time t0 l ->
  Forall (fun r => at_lock r <= t1) l ->
  Forall (fun r => phone r = p -> validPassword r = false) l ->
  900000 * (tried p (logins route accounts l).2 - 5) <= t1 - t0.
Proof.
  intros Hrow Hf Ht Htime Hend Hwrong.
  destruct (decide (1 <= tried p (logins route accounts l).2)) as [Hn|Hn].
  - pose proof (rate_general route t1 l accounts t0 p row Hrow Htime Hend Hwrong Hn)
      as Hg.
    assert (t0 <= gate row t0) by (unfold gate; destruct (locked_until row); lia).
    unfold free in Hg. lia.
  - lia.
Qed.

Lemma attempt_nonneg route row r :
  0 <= failed_attempts row -> 0 <= failed_attempts (attempt route row r).1.
Proof.
  intros Hf. unfold attempt. repeat case_match; simpl; lia.
Qed.

Lemma login_nonneg route accounts r :
  map_Forall (fun _ row => 0 <= failed_attempts row) accounts ->
  map_Forall (fun _ row => 0 <= failed_attempts row) (login route accounts r).1.
Proof.
  intros Hall. unfold login. repeat case_match; simpl; try done.
  apply map_Forall_insert_2; [|done].
  match goal with
  | Hrow : accounts !! _ = Some ?row, Ha : attempt _ ?row _ = _ |- _ =>
    pose proof (attempt_nonneg route row r (Hall _ _ Hrow)) as Hn;
    by rewrite Ha in Hn
  end.
Qed.

(** X13. What the user route says about the attempts left: over any
    sequence of requests, on a table whose counts of failed attempts are
    not negative, every answer 401 that tells the attempts remaining tells
    a number from 1 to 4. *)
Theorem attempts_remaining_range (accounts : gmap string Account)
    (l : list Request) :
  map_Forall (fun _ row => 0 <= failed_attempts row) accounts ->
  Forall (fun x => forall k, snd x = InvalidCredentials (Some k) -> 1 <= k <= 4)
         (logins UserRoute accounts l).2.
Proof.
  revert accounts. induction l as [|r l IH]; intros accounts Hall.
  { simpl. constructor. }
  rewrite logins_cons. simpl. constructor.
  - simpl. intros k. unfold login. repeat case_match; simpl; try done.
    match goal with
    | Hrow : accounts !! _ = Some ?row |- _ => pose proof (Hall _ _ Hrow) as Hf
    end.
    unfold attempt in *. simpl in *.
    repeat case_match; simplify_eq/=; intros; simplify_eq; lia.
  - apply IH. by apply login_nonneg.
Qed.

(** X14. A lock holds: while the account of [p] is locked, that is for
    requests made before the instant it is locked until, no password is
    compared for it, the right one included, and its row stays as it is,
    so that the lock is not extended either. *)
Theorem lock_holds (route : Route) (accounts : gmap string Account)
    (p : string) (row : Account) (e : Z) (l : list Request) :
  accounts !! p = Some row ->
  locked_until row = Some e ->
  Forall (fun r => phone r = p -> at_check r < e) l ->
  (logins route accounts l).1 !! p = Some row
  /\ Forall (fun x => phone (fst x) = p -> compared (snd x) = false)
            (logins route accounts l).2.
Proof.
  intros Hrow He. revert accounts Hrow.
  induction l as [|r l IH]; intros accounts Hrow Hl.
  { simpl. split; [done|constructor]. }
  apply Forall_cons in Hl as [Hr Hl]. rewrite logins_cons. simpl.
  assert (phone r = p -> compared (login route accounts r).2 = false) as Hc.
  { intros Ep. specialize (Hr Ep). unfold login.
    repeat case_match; simpl; try done. simplify_eq.
    unfold attempt, isAccountLocked in *. rewrite He in *.
    assert ((e >? at_check r) = true) as Hlocked by lia.
    rewrite Hlocked in *. by simplify_eq. }
  assert ((login route accounts r).1 !! p = Some row) as Hrow'.
  { destruct (decide (phone r = p)) as [Ep|Ep].
    - rewrite <- Ep. rewrite login_not_compared by auto. by rewrite Ep.
    - by rewrite login_other. }
  destruct (IH _ Hrow' Hl) as [IH1 IH2]. split; [done|].
  constructor; done.
Qed.

Lemma guesses_are_rationed_witness :
  900000 * (tried "9800000001"
              (logins UserRoute Examples.demo_accounts Examples.six_wrong).2 - 5)
  <= 6000 - 1000.
Proof.
  apply (guesses_are_rationed UserRoute Examples.demo_accounts "9800000001"
           registered Examples.six_wrong 1000 6000).
  - vm_compute. reflexivity.
  - simpl. lia.
  - lia.
  - simpl. lia.
  - repeat constructor; simpl; lia.
  - repeat constructor.
Defined.

Lemma attempts_remaining_range_witness :
  Forall (fun x => forall k, snd x = InvalidCredentials (Some k) -> 1 <= k <= 4)
         (logins UserRoute Examples.demo_accounts Examples.six_wrong).2.
Proof.
  apply attempts_remaining_range.
  apply map_Forall_singleton. simpl. lia.
Defined.

Lemma lock_holds_witness :
  (logins UserRoute Examples.locked_accounts [Examples.right_at_6000]).1
    !! "9800000001" = Some Examples.locked_row
  /\ Forall (fun x => phone (fst x) = "9800000001" -> compared (snd x) = false)
            (logins UserRoute Examples.locked_accounts [Examples.right_at_6000]).2.
Proof.
  apply (lock_holds UserRoute Examples.locked_accounts "9800000001"
           Examples.locked_row 905000 [Examples.right_at_6000]).
  - vm_compute. reflexivity.
  - reflexivity.
  - constructor; [intros _; simpl; lia|constructor].
Defined.

End LoginFacts.

(** ** The access token of a request *)

Module AuthFacts.
Import Auth.

Lemma split_no_space s : no_space s = true -> split " " s = [s].
Proof.
  induction s as [|c s IH]; [done|]. simpl.
  intros [Hc Hs]%andb_true_iff. apply negb_true_iff in Hc. rewrite Hc.
  by rewrite IH.
Qed.

Lemma split_app scheme rest :
  no_space scheme = true ->
  split " " (scheme +:+ " " +:+ rest) = scheme :: split " " rest.
Proof.
  induction scheme as [|c s IH]; [done|]. simpl.
  intros [Hc Hs]%andb_true_iff. apply negb_true_iff in Hc. rewrite Hc.
  by rewrite IH.
Qed.

(** X15. From the header to the verification: a header made of a scheme
    word, a space and a token without spaces has exactly that token
    verified, and the request is treated as [jwt.verify] decides; which
    word the scheme is does not matter. The header the applications send
    for an access token is of this form. *)
Theorem header_token_verified {P} (jwt_verify : string -> Verified P)
    (scheme token : string) :
  no_space scheme = true -> no_space token = true -> token <> EmptyString ->
  authenticateToken jwt_verify (Some (scheme +:+ " " +:+ token))
  = match jwt_verify token with
    | TokenExpiredError => TokenExpired
    | OtherError => InvalidToken
    | Decoded decoded => Next decoded
    end
  /\ authenticateToken jwt_verify (Some (authorization token))
     = authenticateToken jwt_verify (Some (scheme +:+ " " +:+ token)).
Proof.
  intros Hs Ht Hne.
  assert (forall w, no_space w = true ->
            token_of (Some (w +:+ " " +:+ token)) = Some token) as Htok.
  { intros w Hw. unfold token_of.
    rewrite bool_decide_eq_false_2 by (by destruct w).
    rewrite split_app by done. rewrite split_no_space by done. simpl.
    by rewrite bool_decide_eq_false_2. }
  pose proof (Htok "Bearer" eq_refl) as Hb.
  unfold authenticateToken, authorization.
  rewrite (Htok scheme Hs). split; [done|].
  replace ("Bearer " +:+ token) with ("Bearer" +:+ " " +:+ token) by reflexivity.
  by rewrite Hb.
Qed.

(** X16. A header without a space, such as the token sent alone, is
    answered 401 'Access token required', and so is a request without the
    header; nothing is verified then. *)
Theorem bare_token_refused {P} (jwt_verify : string -> Verified P)
    (header : string) :
  no_space header = true ->
  authenticateToken jwt_verify (Some header) = AccessTokenRequired
  /\ authenticateToken jwt_verify None = AccessTokenRequired.
Proof.
  intros Hh. split; [|done]. unfold authenticateToken, token_of.
  case_bool_decide; [done|]. by rewrite split_no_space.
Qed.

Lemma header_token_verified_witness :
  authenticateToken Examples.demo_jwt (Some "Bearer abc.def.ghi")
  = Next "9800000001"
  /\ authenticateToken Examples.demo_jwt (Some "Token abc.def.ghi")
     = Next "9800000001".
Proof.
  assert ("abc.def.ghi" <> EmptyString) as Hne by discriminate.
  split.
  - exact (proj1 (header_token_verified Examples.demo_jwt "Bearer" "abc.def.ghi"
                    eq_refl eq_refl Hne)).
  - exact (proj1 (header_token_verified Examples.demo_jwt "Token" "abc.def.ghi"
                    eq_refl eq_refl Hne)).
Defined.

Lemma bare_token_refused_witness :
  authenticateToken Examples.demo_jwt (Some "abc.def.ghi") = AccessTokenRequired.
Proof.
  exact (proj1 (bare_token_refused Examples.demo_jwt "abc.def.ghi" eq_refl)).
Defined.

End AuthFacts.

(** ** The code the merchant shows and the wallet scans *)

Module QrFacts.
Import Token Qr.

Lemma str_or_nonempty v d : d <> EmptyString -> str_or v d <> EmptyString.
Proof. intros Hd. unfold str_or. destruct v; [case_bool_decide|]; done. Qed.

Lemma shown_period id name time k :
  countdown (shown id name time k) = 18 - Z.of_nat (k mod 18)
  /\ qrData (shown id name time k) = generateQR id name (time (18 * (k / 18))%nat).
Proof.
  induction k as [|k [IH1 IH2]]; [done|].
  pose proof (Nat.div_mod_eq k 18) as Hk.
  pose proof (Nat.mod_upper_bound k 18 ltac:(lia)) as Hk'.
  pose proof (Nat.div_mod_eq (S k) 18) as HS.
  pose proof (Nat.mod_upper_bound (S k) 18 ltac:(lia)) as HS'.
  cbn [shown]. unfold tick. rewrite IH1, IH2.
  destruct (decide (k mod 18 = 17)%nat) as [E|E].
  - assert (S k mod 18 = 0 /\ 18 * (S k / 18) = S k)%nat as [-> ->] by lia.
    assert ((18 - Z.of_nat (k mod 18) <=? 1) = true) as -> by lia. done.
  - assert (S k mod 18 = S (k mod 18) /\ S k / 18 = k / 18)%nat as [-> ->] by lia.
    assert ((18 - Z.of_nat (k mod 18) <=? 1) = false) as -> by lia.
    simpl. split; [lia|done].
Qed.

(** X17. The code on the merchant's screen and the wallet's scan of it:
    the count shown goes from 18 down to 1 and the code is made anew at
    every 18th firing of the interval; and the wallet that scans the code
    shown after [k] firings never finds it invalid: it goes to the payment
    screen for the merchant of the code, with no amount filled in, unless
    more than 18000 ms have passed since the code was made, and then it
    reports it expired. *)
Theorem shown_code_scans (id name : option string) (time : nat -> Z)
    (k : nat) (now : Z) :
  (forall i, time i <> 0) ->
  let made := time (18 * (k / 18))%nat in
  countdown (shown id name time k) = 18 - Z.of_nat (k mod 18)
  /\ onScan (Return (read (qrData (shown id name time k)))) now
     = if now - made >? 18000 then QRExpired
       else Payment (Some (str_or id "MERCHANT001"))
                    (Some (str_or name "Demo Merchant"))
                    (Some ("TOKPAY-" +:+ str_or id "M001")) None.
Proof.
  intros Htime made.
  destruct (shown_period id name time k) as [Hc Hq]. split; [done|].
  rewrite Hq. fold made.
  assert ((made =? 0) = false) as Hmade by (apply Z.eqb_neq; apply Htime).
  clearbody made.
  assert (str_or id "MERCHANT001" <> EmptyString) by (by apply str_or_nonempty).
  unfold onScan, read, generateQR, falsy_str, falsy_num. simpl.
  rewrite !bool_decide_eq_false_2 by done. rewrite Hmade. simpl.
  by destruct (now - made >? 18000).
Qed.

Lemma shown_code_scans_witness :
  countdown (shown (Some "M1") (Some "Shop") Examples.every_second 20) = 16
  /\ onScan (Return (read (qrData (shown (Some "M1") (Some "Shop")
                                     Examples.every_second 20)))) 21500
     = Payment (Some "M1") (Some "Shop") (Some "TOKPAY-M1") None
  /\ onScan (Return (read (qrData (shown (Some "M1") (Some "Shop")
                                     Examples.every_second 20)))) 37001
     = QRExpired.
Proof.
  assert (forall i, Examples.every_second i <> 0) as Htime
    by (intros i; unfold Examples.every_second; lia).
  split_and!.
  - exact (proj1 (shown_code_scans (Some "M1") (Some "Shop")
                    Examples.every_second 20 21500 Htime)).
  - exact (proj2 (shown_code_scans (Some "M1") (Some "Shop")
                    Examples.every_second 20 21500 Htime)).
  - exact (proj2 (shown_code_scans (Some "M1") (Some "Shop")
                    Examples.every_second 20 37001 Htime)).
Defined.

End QrFacts.

(** ** Paying *)

Module PayFacts.
Import Token Pay.

#[local] Arguments total : simpl never.

Section General.
Context `{Library}.

Lemma check_pay_None state payAmount :
  check_pay state payAmount = None ->
  exists a, payAmount = Some a /\ 0 < a <= 500
            /\ (forall b, Wallet.offlineBalance state = Some b -> a <= b).
Proof.
  unfold check_pay. destruct payAmount as [a|]; [|done].
  destruct ((a =? 0) || (a <=? 0)) eqn:E1; [done|].
  unfold js_gt at 1. destruct (a >? 500) eqn:E2; [done|].
  destruct (js_gt (Some a) (Wallet.offlineBalance state)) eqn:E3; [done|].
  intros _. exists a. split_and!; try done; try lia.
  intros b Hb. rewrite Hb in E3. simpl in E3. lia.
Qed.

(** What one call dispatches: nothing that touches the balance or the
    queue, or, after a counter increment, the transaction and the token of
    the amount asked. *)
Lemma handlePay_actions state i :
  (forall act, act ∈ (handlePay state i).1 -> act = Wallet.INCREMENT_COUNTER)
  \/ exists a token,
       p_amount i = Some a /\ check_pay state (p_amount i) = None
       /\ amount (data token) = Some a
       /\ counter (data token) = Some (Wallet.counter state)
       /\ (handlePay state i).2 = Succeeded
       /\ (handlePay state i).1
          = [Wallet.INCREMENT_COUNTER;
             Wallet.ADD_TRANSACTION
               (with_status token (p_merchantName i) "completed");
             Wallet.ADD_PENDING_SYNC token].
Proof.
  unfold handlePay.
  destruct (check_pay state (p_amount i)) eqn:Ec;
    [left; simpl; intros act Hact; by apply elem_of_nil in Hact|].
  destruct (p_amount i) as [a|] eqn:Ea;
    [|left; simpl; intros act Hact; by apply elem_of_nil in Hact].
  unfold pay_try, Wallet.signPaymentToken.
  destruct (p_connect i);
    [|left; simpl; intros act Hact; by apply elem_of_nil in Hact].
  destruct (Wallet.keyPair state) as [kp|];
    [|left; simpl; intros act Hact; by apply elem_of_nil in Hact].
  simpl.
  destruct (decodeUTF8 _); simpl;
    [|left; intros act Hact; by apply elem_of_nil in Hact].
  destruct (decodeBase64 _); simpl;
    [|left; intros act Hact; by apply elem_of_nil in Hact].
  destruct (sign_detached _ _); simpl;
    [|left; intros act Hact; by apply elem_of_nil in Hact].
  destruct (p_send i) as [response|];
    [|left; simpl; intros act Hact; by apply list_elem_of_singleton in Hact].
  destruct (success response);
    [|left; simpl; intros act Hact; by apply list_elem_of_singleton in Hact].
  right. eexists a, _. split_and!; try done. all: reflexivity.
Qed.

Definition balanced (c m : Z) (store : Wallet.State) : Prop :=
  exists b, Wallet.offlineBalance store = Some b /\ 0 <= b <= m
            /\ b + total (Wallet.pendingSync store) = c.

Lemma total_snoc l t :
  total (l ++ [t]) = total l + default 0 (amount (data t)).
Proof.
  unfold total.
  by rewrite LedgerFacts.sumZ_app, LedgerFacts.sumZ_cons, LedgerFacts.sumZ_nil,
    Z.add_0_r.
Qed.

Lemma dispatch_increments store acts :
  (forall act, act ∈ acts -> act = Wallet.INCREMENT_COUNTER) ->
  Wallet.offlineBalance (Wallet.dispatch store acts) = Wallet.offlineBalance store
  /\ Wallet.pendingSync (Wallet.dispatch store acts) = Wallet.pendingSync store
  /\ Wallet.transactions (Wallet.dispatch store acts) = Wallet.transactions store
  /\ Wallet.counter store <= Wallet.counter (Wallet.dispatch store acts).
Proof.
  revert store. induction acts as [|act acts IH]; intros store Hall.
  { simpl. split_and!; try done; lia. }
  assert (act = Wallet.INCREMENT_COUNTER) as -> by (apply Hall; left).
  unfold Wallet.dispatch in *. cbn [foldl].
  destruct (IH (Wallet.appReducer store Wallet.INCREMENT_COUNTER))
    as (Ho & Hp & Ht & Hc).
  { intros a Ha. apply Hall. by right. }
  rewrite Ho, Hp, Ht. simpl in *. split_and!; try done; lia.
Qed.

Lemma pay_balanced c m store i :
  balanced c m store ->
  balanced c m (pay store i)
  /\ Wallet.counter store <= Wallet.counter (pay store i)
  /\ (forall t, t ∈ Wallet.pendingSync (pay store i) ->
        t ∈ Wallet.pendingSync store
        \/ exists a, amount (data t) = Some a /\ 0 < a <= 500).
Proof.
  intros (b & Hb & Hb0 & Hc). unfold pay.
  destruct (handlePay_actions store i)
    as [Hinc|(a & token & Ha & Hcheck & Hamount & Hctr & Hst & ->)].
  - destruct (dispatch_increments store _ Hinc) as (Ho & Hp & Ht & Hcnt).
    split_and!; [|done|].
    + exists b. by rewrite Ho, Hp.
    + intros t. rewrite Hp. by left.
  - apply check_pay_None in Hcheck as (a' & Ha' & Hrange & Hle).
    rewrite Ha in Ha'. simplify_eq. specialize (Hle b Hb).
    unfold Wallet.dispatch. simpl. rewrite Hb, Hamount. simpl. split_and!.
    + exists (b - a'). split_and!; [done|lia|lia|].
      assert (forall s, Wallet.pendingSync s = Wallet.pendingSync store ++ [token] ->
                total (Wallet.pendingSync s) = total (Wallet.pendingSync store) + a')
        as Htotal by (intros s ->; by rewrite total_snoc, Hamount).
      rewrite Htotal by done. lia.
    + lia.
    + intros t [Ht|Ht%list_elem_of_singleton]%elem_of_app; [by left|].
      right. exists a'. by rewrite Ht.
Qed.

(** X18. The wallet's books over any sequence of payments of whole
    amounts made through the payment screen, from an offline balance that
    is whole, not negative and in range: the offline balance never drops
    below zero and never grows, so that it stays in range; it and the
    amounts of the tokens queued for synchronisation add up to what they
    added up to before; the counter never goes back; and every token
    queued on the way is for an amount above 0 and of at most 500. (The
    screen takes an amount with a fractional part as well; such a payment
    is outside this statement.) *)
Theorem payments_balance (store : Wallet.State) (l : list PayInput) (b : Z) :
  Wallet.offlineBalance store = Some b -> 0 <= b -> safe b ->
  Forall (fun i => forall a, p_amount i = Some a -> safe a) l ->
  exists b',
    Wallet.offlineBalance (pay_all store l) = Some b'
    /\ 0 <= b' <= b /\ safe b'
    /\ b' + total (Wallet.pendingSync (pay_all store l))
       = b + total (Wallet.pendingSync store)
    /\ Wallet.counter store <= Wallet.counter (pay_all store l)
    /\ (forall t, t ∈ Wallet.pendingSync (pay_all store l) ->
          t ∈ Wallet.pendingSync store
          \/ exists a, amount (data t) = Some a /\ 0 < a <= 500).
Proof.
  intros Hb Hb0 Hsafe _.
  assert (balanced (b + total (Wallet.pendingSync store)) b store) as Hbal
    by (exists b; split_and!; try done; lia).
  revert Hbal. generalize (b + total (Wallet.pendingSync store)) as c.
  clear Hb. intros c Hbal.
  assert (balanced c b (pay_all store l)
          /\ Wallet.counter store <= Wallet.counter (pay_all store l)
          /\ (forall t, t ∈ Wallet.pendingSync (pay_all store l) ->
                t ∈ Wallet.pendingSync store
                \/ exists a, amount (data t) = Some a /\ 0 < a <= 500))
    as ((b' & Hb' & Hb0' & Hc) & Hcnt & Htok).
  { revert store Hbal. induction l as [|i l IH]; intros store Hbal.
    { simpl. split_and!; [done|lia|by left]. }
    destruct (pay_balanced c b store i Hbal) as (Hbal' & Hcnt' & Htok').
    destruct (IH _ Hbal') as (Hbal'' & Hcnt'' & Htok'').
    unfold pay_all in *. simpl. split_and!; [done|lia|].
    intros t Ht. destruct (Htok'' t Ht) as [Hin|Hnew]; [|by right].
    by apply Htok'. }
  exists b'. unfold safe in *. split_and!; try done; lia.
Qed.

End General.

Import Checksum.

Lemma payments_balance_witness :
  exists b',
    Wallet.offlineBalance (pay_all Examples.synced_wallet Examples.three_payments)
    = Some b'
    /\ 0 <= b'
    /\ b' + total (Wallet.pendingSync
                     (pay_all Examples.synced_wallet Examples.three_payments))
       = 1800 + total (Wallet.pendingSync Examples.synced_wallet).
Proof.
  destruct (payments_balance Examples.synced_wallet Examples.three_payments 1800)
    as (b' & H1 & H2 & _ & H3 & _);
    [reflexivity|lia|unfold safe, limit; lia
    |repeat constructor; intros a [= <-]; unfold safe, limit; lia|].
  exists b'. split; [exact H1|]. split; [lia|exact H3].
Defined.

(** Two tokens signed from one render carry the same counter: the one
    [handlePay] hands to the BLE service and the one 'Save Offline' signs
    after it. *)
Lemma same_render_same_counter `{Library} (state : Wallet.State) (i : PayInput)
    (a ts1 ts2 : Z) (random : string) (t1 t2 : Token)
    (acts : list Wallet.Action) :
  token_sent state i = Some t1 ->
  saveOfflinePayment state i a ts1 ts2 random = Some (t2, acts) ->
  counter (data t1) = Some (Wallet.counter state)
  /\ counter (data t2) = Some (Wallet.counter state).
Proof.
  unfold token_sent, saveOfflinePayment. intros H1 H2.
  destruct (check_pay state (p_amount i)); [done|].
  destruct (p_amount i); [|done]. destruct (p_connect i); [|done].
  destruct (Wallet.signPaymentToken state _) as [[[u1|] k1]|] eqn:E1 in H1;
    try done.
  destruct (Wallet.signPaymentToken state _) as [[[u2|] k2]|] eqn:E2 in H2;
    try done.
  simplify_eq.
  apply WalletFacts.signPaymentToken_token in E1 as [-> _].
  apply WalletFacts.signPaymentToken_token in E2 as [-> _]. done.
Qed.

(** C7. The counter of a token repeats. On the payment screen, [handlePay]
    signs a token and hands it to the BLE service; when the transmission
    fails with a message that mentions the connection, the screen offers to
    save the payment, and 'Save Offline' signs a second token through the
    same closure, hence against the state the first was signed against:
    the two tokens, of different ids, carry the same counter, while the
    stored counter has gone up by two. Here the wallet holds counter 0 and
    both tokens carry 0. Nor is the counter kept anywhere but in the state
    of the reducer: after logging out and in again it is 0, and the next
    token carries 0 once more. *)
Theorem counter_repeats_after_failed_send :
  let state := Examples.synced_wallet in
  let i := Examples.failed_send in
  exists t1 t2 acts,
    handlePay state i
    = ([Wallet.INCREMENT_COUNTER],
       Failed "Payment transmission failed: Device was disconnected" true)
    /\ token_sent state i = Some t1
    /\ saveOfflinePayment state i 100 2000 2000 "p7q2" = Some (t2, acts)
    /\ txnId (data t1) <> txnId (data t2)
    /\ counter (data t1) = Some 0
    /\ counter (data t2) = Some 0
    /\ Wallet.counter (Wallet.dispatch state ((handlePay state i).1 ++ acts)) = 2
    /\ Wallet.counters
         (Wallet.sign_all
            (Examples.relogin
               (Wallet.dispatch state ((handlePay state i).1 ++ acts)))
            [Demo.demo_args 3000])
       = [Some 0].
Proof.
  intros state i.
  destruct (token_sent state i) as [t1|] eqn:E1; [|discriminate E1].
  destruct (saveOfflinePayment state i 100 2000 2000 "p7q2") as [[t2 acts]|] eqn:E2;
    [|discriminate E2].
  destruct (same_render_same_counter state i 100 2000 2000 "p7q2" t1 t2 acts E1 E2)
    as [C1 C2].
  exists t1, t2, acts.
  vm_compute in E1. injection E1 as <-.
  vm_compute in E2. injection E2 as <- <-.
  split_and!; [reflexivity|reflexivity|reflexivity|discriminate
              |exact C1|exact C2|reflexivity|reflexivity].
Qed.

End PayFacts.

(** ** The wallet's BLE service *)

Module BleFacts.
Import Token Ble.

Lemma scan_not_found bleId s settled events :
  not_found bleId events -> scan bleId s settled events = (s, settled).
Proof.
  induction 1 as [|e events He _ IH]; [done|].
  destruct e as [m|name c d]; [done|]. simpl.
  by rewrite bool_decide_eq_false_2.
Qed.

(** X19. A merchant that is not found: when the scan of [connect] ends
    without an error and without the device of the code, [connect] is
    rejected with 'Could not find merchant. Please try again.', not with a
    message of the BLE initialization, and leaves the service as it was;
    [handlePay] on top of it then dispatches nothing, neither a
    transaction nor a counter increment, and does not offer to save the
    payment for later. *)
Theorem merchant_not_found `{Library} (s : Service) (bleId : string)
    (events : list ScanEvent) (exchange : Exc Pay.Response)
    (state : Wallet.State) (i : Pay.PayInput) :
  not_found bleId events ->
  connect s bleId (Return ()) events
  = (s, Throw "Could not find merchant. Please try again.")
  /\ (Pay.handlePay state
        (over_service s bleId (Return ()) events exchange i)).1 = []
  /\ forall e offer,
       (Pay.handlePay state
          (over_service s bleId (Return ()) events exchange i)).2
       = Pay.Failed e offer ->
       e = "Could not find merchant. Please try again." /\ offer = false.
Proof.
  intros Hnf.
  assert (connect s bleId (Return ()) events
          = (s, Throw "Could not find merchant. Please try again.")) as Hc.
  { unfold connect. by rewrite scan_not_found. }
  split; [done|].
  unfold over_service. rewrite Hc. unfold Pay.handlePay. simpl.
  destruct (Pay.check_pay state (Pay.p_amount i)); [by split|].
  destruct (Pay.p_amount i); [|by split].
  unfold Pay.pay_try. simpl. split; [done|].
  intros e offer [= <- <-]. split; [done|]. by vm_compute.
Qed.

Definition sound (s : Service) : Prop :=
  isConnected s = true -> device s <> None.

Lemma scan_sound bleId events : forall s settled,
  sound s -> sound (scan bleId s settled events).1.
Proof.
  induction events as [|e events IH]; intros s settled Hs; [done|].
  destruct e as [m|name c d]; simpl; [by apply IH|].
  case_bool_decide; [|by apply IH].
  destruct c as [dev|]; [|done]. by destruct d.
Qed.

Lemma call_sound s c : sound s -> sound (call s c).
Proof.
  intros Hs. destruct c as [bleId init events|exchange|]; simpl.
  - unfold connect. destruct init; [|done].
    pose proof (scan_sound bleId events s None Hs) as Hscan.
    by destruct (scan bleId s None events).
  - unfold sendPayment. destruct (negb (isConnected s) || _); [done|].
    unfold disconnect. by destruct exchange, (device s).
  - unfold disconnect. by destruct (device s).
Qed.

Lemma calls_sound l : forall s, sound s -> sound (calls s l).
Proof.
  induction l as [|c l IH]; intros s Hs; [done|].
  apply IH. by apply call_sound.
Qed.

(** X20. One connection, one payment: whatever calls have been made on
    the service since it was created, a [sendPayment] leaves it without a
    device and not connected when it has sent, and in any case not
    connected, so that a [sendPayment] that follows without a new
    [connect] is refused with 'Not connected to merchant' and sends
    nothing. *)
Theorem one_payment_per_connection (l : list Call)
    (exchange exchange' : Exc Pay.Response) :
  let s := calls fresh l in
  isConnected (sendPayment s exchange).1 = false
  /\ ((sendPayment s exchange).2 <> Throw "Not connected to merchant" ->
      (sendPayment s exchange).1 = fresh)
  /\ sendPayment (sendPayment s exchange).1 exchange'
     = ((sendPayment s exchange).1, Throw "Not connected to merchant").
Proof.
  intros s.
  assert (sound s) as Hs by (by apply calls_sound).
  assert (isConnected (sendPayment s exchange).1 = false) as Hoff.
  { unfold sendPayment, sound, disconnect in *.
    destruct (isConnected s) eqn:Ec; simpl.
    - specialize (Hs eq_refl). destruct (device s); [|done].
      rewrite bool_decide_eq_false_2 by done. by destruct exchange.
    - done. }
  split_and!; [done| |].
  - unfold sendPayment, disconnect in *.
    destruct (negb (isConnected s) || bool_decide (device s = None)) eqn:E;
      [done|].
    intros _. apply orb_false_iff in E as [_ Hd%bool_decide_eq_false].
    destruct (device s); [|done]. by destruct exchange.
  - unfold sendPayment at 1. by rewrite Hoff.
Qed.

Import Checksum.

Lemma merchant_not_found_witness :
  connect fresh "TOKPAY-M1" (Return ()) Examples.others_seen
  = (fresh, Throw "Could not find merchant. Please try again.")
  /\ (Pay.handlePay Examples.synced_wallet
        (over_service fresh "TOKPAY-M1" (Return ()) Examples.others_seen
           Examples.accepted (Examples.pay_input 100 (Return ()) true 1000))).1
     = []
  /\ (Pay.handlePay Examples.synced_wallet
        (over_service fresh "TOKPAY-M1" (Return ()) Examples.others_seen
           Examples.accepted (Examples.pay_input 100 (Return ()) true 1000))).2
     = Pay.Failed "Could not find merchant. Please try again." false.
Proof.
  assert (not_found "TOKPAY-M1" Examples.others_seen) as Hnf
    by (repeat constructor; discriminate).
  destruct (merchant_not_found fresh "TOKPAY-M1" Examples.others_seen
              Examples.accepted Examples.synced_wallet
              (Examples.pay_input 100 (Return ()) true 1000) Hnf)
    as (Hc & Hd & Hf).
  split_and!; [exact Hc|exact Hd|reflexivity].
Defined.

Lemma one_payment_per_connection_witness :
  let s := calls fresh
             [Connect "TOKPAY-M1" (Return ()) Examples.merchant_seen] in
  isConnected s = true
  /\ (sendPayment s Examples.accepted).1 = fresh
  /\ sendPayment (sendPayment s Examples.accepted).1 Examples.accepted
     = (fresh, Throw "Not connected to merchant").
Proof.
  intros s.
  destruct (one_payment_per_connection
              [Connect "TOKPAY-M1" (Return ()) Examples.merchant_seen]
              Examples.accepted Examples.accepted) as (_ & Hsent & Hagain).
  split_and!; [reflexivity| |exact Hagain].
  apply Hsent. discriminate.
Defined.

End BleFacts.

(** ** From the wallet to the merchant *)

Module HandoverFacts.
Import Token.

Section General.
Context `{Library}.

(** X21. A token the wallet has signed passes the merchant's
    verification: with a library in which base64 decoding undoes base64
    encoding and a signature made with the secret key of the wallet's key
    pair verifies under its public key, the token [signPaymentToken]
    returns for an amount of at most 500 is accepted by
    [verifyPaymentToken], provided the wallet's counter is above the one
    the merchant has recorded for the payer and the merchant's clock is at
    most 60000 ms past the instant the token was made. *)
Theorem signed_token_accepted (wallet : Wallet.State) (a : Wallet.SignArgs)
    (kp : KeyPair) (sk pk : Bytes) (token : Token) (acts : list Wallet.Action)
    (merchant : Merchant.State) (now : Z) :
  (forall b, decodeBase64 (Some (encodeBase64 b)) = Return b) ->
  Wallet.keyPair wallet = Some kp ->
  decodeBase64 (Some (kp_secretKey kp)) = Return sk ->
  decodeBase64 (Some (kp_publicKey kp)) = Return pk ->
  (forall m sig, sign_detached m sk = Return sig ->
                 sign_detached_verify m sig pk = Return true) ->
  Wallet.signPaymentToken wallet a = Return (Some token, acts) ->
  Wallet.payAmount a <= 500 ->
  0 <= Wallet.counter wallet ->
  (forall last,
     Merchant.lastCounter merchant !! js_key (Wallet.user wallet)
     = Some (Some last) ->
     last < Wallet.counter wallet) ->
  now - Wallet.now_timestamp a <= 60000 ->
  Merchant.verifyPaymentToken merchant now (Some token) = Merchant.accept.
Proof.
  intros Hb64 Hkp Hsk Hpk Hpair Hsign Hamount Hc0 Hlast Hage.
  unfold Wallet.signPaymentToken in Hsign. rewrite Hkp in Hsign.
  destruct (decodeUTF8 _) as [mb|] eqn:Em; simpl in Hsign; [|done].
  rewrite Hsk in Hsign. simpl in Hsign.
  destruct (sign_detached mb sk) as [sig|] eqn:Es; simpl in Hsign; [|done].
  injection Hsign as <- <-.
  unfold Merchant.verifyPaymentToken, Merchant.verify_checks. simpl.
  rewrite Em. simpl. rewrite Hb64. simpl. rewrite Hpk. simpl.
  rewrite (Hpair _ _ Es). simpl.
  assert ((Wallet.payAmount a >? 500) = false) as -> by lia.
  assert ((now - Wallet.now_timestamp a >? 60000) = false) as -> by lia.
  destruct (Merchant.lastCounter merchant !! js_key (Wallet.user wallet))
    as [[last|]|] eqn:El; simpl.
  - specialize (Hlast last eq_refl).
    destruct (last =? 0); simpl.
    + by assert ((Wallet.counter wallet <=? -1) = false) as -> by lia.
    + by assert ((Wallet.counter wallet <=? last) = false) as -> by lia.
  - by assert ((Wallet.counter wallet <=? -1) = false) as -> by lia.
  - by assert ((Wallet.counter wallet <=? -1) = false) as -> by lia.
Qed.

End General.

Lemma signed_token_accepted_witness :
  exists token acts,
    Wallet.signPaymentToken (H := Examples.plain_library) Demo.demo_wallet
      (Demo.demo_args 1000) = Return (Some token, acts)
    /\ Merchant.verifyPaymentToken (H := Examples.plain_library)
         Merchant.initialState 2000 (Some token) = Merchant.accept.
Proof.
  eexists _, _. split; [reflexivity|].
  apply (signed_token_accepted (H := Examples.plain_library) Demo.demo_wallet
           (Demo.demo_args 1000) Demo.demo_keyPair Demo.demo_key Demo.demo_key
           _ [Wallet.INCREMENT_COUNTER]).
  - intros b. reflexivity.
  - reflexivity.
  - reflexivity.
  - reflexivity.
  - intros m sig [= <-]. simpl. by rewrite String.eqb_refl.
  - reflexivity.
  - simpl. lia.
  - simpl. lia.
  - intros last Hl. vm_compute in Hl. discriminate Hl.
  - simpl. lia.
Defined.

End HandoverFacts.

(** ** Sessions and the unauthenticated client *)

Module SessionsFacts.
Import Sessions.

Lemma find_is_Some {A} (f : A -> bool) l x :
  x ∈ l -> f x = true -> is_Some (List.find f l).
Proof.
  induction 1 as [x l|x y l Hin IH]; intros Hf; simpl.
  - rewrite Hf. by eexists.
  - destruct (f y); [by eexists|by apply IH].
Qed.

Lemma elem_of_logout r phone table :
  r ∈ logout phone table <-> r ∈ table /\ user_phone r <> Some phone.
Proof.
  unfold logout. rewrite !list_elem_of_In, filter_In, negb_true_iff.
  by rewrite bool_decide_eq_false.
Qed.

(** X22. Whom a logout logs out: after the DELETE of the logout route for
    a phone, the refresh route finds no session of the user of that phone;
    but a session stored by the merchant login is still found, whoever
    logs out, the merchant included, as long as it has not expired. *)
Theorem logout_revokes_users_only (unexpired : string -> bool) (phone hash : string)
    (table : list RefreshRow) :
  (forall r, refresh_find unexpired hash (logout phone table) = Some r ->
             user_phone r <> Some phone)
  /\ (forall merchantId expiresAt,
        unexpired expiresAt = true ->
        is_Some (refresh_find unexpired hash
                   (logout phone (merchant_session merchantId hash expiresAt table)))).
Proof.
  split.
  - intros r Hr. unfold refresh_find in Hr. apply find_some in Hr as [Hin _].
    apply list_elem_of_In, elem_of_logout in Hin. tauto.
  - intros mid e He. unfold refresh_find.
    apply (find_is_Some _ _ {| user_phone := None; merchant_id := Some mid;
                               token_hash := hash; expires_at := e |}).
    + apply elem_of_logout. split; [|done].
      unfold merchant_session. apply elem_of_app. right. by left.
    + simpl. rewrite He. by rewrite bool_decide_eq_true_2.
Qed.

Lemma logout_revokes_users_only_witness :
  let unexpired := fun e => String.eqb e "2026-01-08" in
  let table := user_session "9800000001" "h1" "2026-01-08" [] in
  refresh_find unexpired "h1" (logout "9800000001" table) = None
  /\ is_Some (refresh_find unexpired "h2"
                (logout "9800000001"
                   (merchant_session "M1" "h2" "2026-01-08" table))).
Proof.
  intros unexpired table.
  destruct (logout_revokes_users_only unexpired "9800000001" "h2" table)
    as [_ Hm].
  split; [reflexivity|].
  apply Hm. reflexivity.
Defined.

End SessionsFacts.

Module ClientFacts.
Import Token Client.

(** X23. The applications' [ApiService] sends no access token, and the
    routes it calls are behind [authenticateToken]: whatever the token
    verification and the route would do, the request is answered by the
    middleware, so that [handleSync] of the merchant never clears the
    queue of tokens to synchronise and [handleLoad] of the wallet never
    sets the balances. *)
Theorem api_service_unauthenticated {P} (jwt_verify : string -> Auth.Verified P)
    (sync load : P -> bool) (merchant : Merchant.State)
    (wallet : Wallet.State) (loadAmount : JsNum) :
  Auth.authenticateToken jwt_verify (authorization_of api_headers)
  = Auth.AccessTokenRequired
  /\ handleSync merchant (Return (protected_success jwt_verify api_headers sync))
     = []
  /\ Loads.handleLoad wallet loadAmount
       (Return (protected_success jwt_verify api_headers load))
     = [].
Proof.
  assert (authorization_of api_headers = None) as Hnone by done.
  unfold protected_success. rewrite Hnone. simpl. split_and!; [done| |].
  - unfold handleSync. by destruct (Merchant.pendingSync merchant).
  - unfold Loads.handleLoad. by destruct (Loads.check_load wallet loadAmount).
Qed.

End ClientFacts.
